(** * emorec.dataset: a shallow embedding of [dataset.py]

    The development follows [src/emorec/dataset/dataset.py]: the two
    module-level helpers [_make_flat] and [_make_ragged], and the classes
    [Dataset], [LabelledDataset] and [CombinedDataset].

    Python objects are records of their attributes; a method is a function
    from the object before the call to an outcome and the object after it,
    so that assignments made before an exception is raised stay visible.
    Attributes that a constructor may leave unset are [option]s and reading
    an unset one raises [AttributeError].

    Integer numpy arrays carry their dtype next to their data, because
    [np.array] of an empty Python list is a float64 array and numpy refuses
    such an array as an index and as the argument of [np.bincount].

    Not modelled: the [_labels] dictionary and [binarise], the array-shape
    transforms, [normalise] (it fits a scikit-learn transformer), [__str__],
    warnings and printing. *)

From stdpp Require Import base option list list_numbers strings gmap.

(** ** Exceptions and outcomes *)

Inductive exn : Type :=
| NotImplementedError (msg : string)
| KeyError (key : string)
| AttributeError (attr : string)
| IndexError
| ValueError
| TypeError.

(** The name of the Python class of an exception. *)
Definition exn_class (e : exn) : string :=
  match e with
  | NotImplementedError _ => "NotImplementedError"
  | KeyError _ => "KeyError"
  | AttributeError _ => "AttributeError"
  | IndexError => "IndexError"
  | ValueError => "ValueError"
  | TypeError => "TypeError"
  end.

(** [Unspecified] marks an execution whose continuation depends on memory
    that [np.empty] left uninitialised; the model does not follow it. *)
Inductive outcome (A : Type) : Type :=
| Ok (a : A)
| Raise (e : exn)
| Unspecified.
Arguments Ok {A} a.
Arguments Raise {A} e.
Arguments Unspecified {A}.

#[global] Instance outcome_ret : MRet outcome := λ A a, Ok a.
#[global] Instance outcome_bind : MBind outcome := λ A B f m,
  match m with
  | Ok a => f a
  | Raise e => Raise e
  | Unspecified => Unspecified
  end.

Definition of_option {A} (e : exn) (o : option A) : outcome A :=
  match o with Some a => Ok a | None => Raise e end.

(** A list comprehension whose body may raise: the first failure wins. *)
Fixpoint traverse {A B} (f : A → outcome B) (l : list A) : outcome (list B) :=
  match l with
  | [] => Ok []
  | a :: l' => b ← f a; bs ← traverse f l'; Ok (b :: bs)
  end.

(** Methods: the object is threaded through, also past a [raise]. *)
Definition meth (S A : Type) : Type := S → outcome A * S.

#[global] Instance meth_ret S : MRet (meth S) := λ A a s, (Ok a, s).
#[global] Instance meth_bind S : MBind (meth S) := λ A B f m s,
  match m s with
  | (Ok a, s') => f a s'
  | (Raise e, s') => (Raise e, s')
  | (Unspecified, s') => (Unspecified, s')
  end.

Definition getattr {S A} (f : S → A) : meth S A := λ s, (Ok (f s), s).
Definition setattr {S} (f : S → S) : meth S unit := λ s, (Ok tt, f s).
Definition lift {S A} (o : outcome A) : meth S A := λ s, (o, s).
(** Reading an attribute that may be unset. *)
Definition getattr_opt {S A} (name : string) (f : S → option A) : meth S A :=
  λ s, (of_option (AttributeError name) (f s), s).

(** ** Python built-ins *)

(** [l[i]] on a Python list, for a non-negative [i]. *)
Definition list_getitem {A} (l : list A) (i : nat) : outcome A :=
  of_option IndexError (l !! i).

(** [l.index(v)]: the first position of [v]. *)
Fixpoint index_of {A} `{EqDecision A} (v : A) (l : list A) : option nat :=
  match l with
  | [] => None
  | a :: l' => if decide (a = v) then Some 0 else S <$> index_of v l'
  end.
Definition list_index {A} `{EqDecision A} (l : list A) (v : A) : outcome nat :=
  of_option ValueError (index_of v l).

(** [sorted(set(l))] and [np.unique]: the strictly increasing list with the
    elements of [l], built by ordered insertion without repetition. *)
Fixpoint insert_uniq {A} (cmp : A → A → comparison) (v : A) (l : list A) : list A :=
  match l with
  | [] => [v]
  | a :: l' =>
      match cmp v a with
      | Lt => v :: l
      | Eq => l
      | Gt => a :: insert_uniq cmp v l'
      end
  end.
Definition sorted_set {A} (cmp : A → A → comparison) (l : list A) : list A :=
  foldr (insert_uniq cmp) [] l.

(** Strings are compared as Python does, code point by code point. *)
Definition sorted_strs : list string → list string := sorted_set String.compare.

(** [x in keep] for a collection of strings. *)
Definition contains (keep : list string) (v : string) : bool := bool_decide (v ∈ keep).

(** [[i for i, v in enumerate(l) if p(v)]] *)
Fixpoint positions_from {A} (p : A → bool) (i : nat) (l : list A) : list nat :=
  match l with
  | [] => []
  | v :: l' =>
      if p v then i :: positions_from p (S i) l' else positions_from p (S i) l'
  end.
Definition positions {A} (p : A → bool) (l : list A) : list nat :=
  positions_from p 0 l.

(** [d[k]] on a dict with string keys. *)
Definition dict_getitem {V} (d : gmap string V) (k : string) : outcome V :=
  of_option (KeyError k) (d !! k).
(** [d.get(k, dflt)] *)
Definition dict_get {V} (d : gmap string V) (k : string) (dflt : V) : V :=
  default dflt (d !! k).

(** ** numpy *)

Inductive dtype : Type := int64 | float64.
#[global] Instance dtype_eq_dec : EqDecision dtype.
Proof. solve_decision. Defined.

(** A one-dimensional array of non-negative integers. A float64 array holds
    integral values here: it is [np.array([])], or a concatenation that one
    such array promoted. *)
Record ndarray : Type := mk_ndarray { dt : dtype; data : list nat }.

#[global] Instance ndarray_eq_dec : EqDecision ndarray.
Proof. solve_decision. Defined.

(** [np.array(l)] for a Python list of ints: float64 when [l] is empty. *)
Definition np_array (l : list nat) : ndarray :=
  mk_ndarray (match l with [] => float64 | _ => int64 end) l.

(** [np.zeros(n, dtype=int)] *)
Definition np_zeros (n : nat) : ndarray := mk_ndarray int64 (replicate n 0).

(** [len(a)] *)
Definition np_len (a : ndarray) : nat := length (data a).

(** Selection by a list of positions, the core of fancy indexing. *)
Definition select {A} (l : list A) (idx : list nat) : outcome (list A) :=
  traverse (list_getitem l) idx.

(** [a[idx]] with [idx] a Python list of ints (an empty list is accepted). *)
Definition np_getitem_list (a : ndarray) (idx : list nat) : outcome ndarray :=
  d ← select (data a) idx; Ok (mk_ndarray (dt a) d).

(** An array used as an index must have an integer dtype. *)
Definition as_index (i : ndarray) : outcome (list nat) :=
  match dt i with
  | int64 => Ok (data i)
  | float64 => Raise IndexError
  end.

(** [a[i]] with [i] an array. *)
Definition np_getitem_array (a i : ndarray) : outcome ndarray :=
  idx ← as_index i; np_getitem_list a idx.

(** [l[v]] on a Python list, with [v] an element of an array of dtype [t]:
    a float is not a list index. *)
Definition list_getitem_np {A} (l : list A) (t : dtype) (v : nat) : outcome A :=
  match t with
  | int64 => list_getitem l v
  | float64 => Raise TypeError
  end.

(** [np.unique(a)] *)
Definition np_unique (a : ndarray) : ndarray :=
  mk_ndarray (dt a) (sorted_set Nat.compare (data a)).

(** The number of occurrences of [v]. *)
Definition count (v : nat) (l : list nat) : nat :=
  length (filter (λ w, w = v) l).

Definition bincount_data (l : list nat) (minlength : nat) : list nat :=
  let n := (match l with [] => 0 | _ => S (max_list l) end) `max` minlength in
  (λ v, count v l) <$> seq 0 n.

(** [np.bincount(a, minlength=m)]: the argument is cast to an integer type
    under the safe rule, which a float64 array fails. *)
Definition np_bincount (a : ndarray) (minlength : nat) : outcome ndarray :=
  match dt a with
  | int64 => Ok (mk_ndarray int64 (bincount_data (data a) minlength))
  | float64 => Raise TypeError
  end.

(** [a + k] *)
Definition np_add (a : ndarray) (k : nat) : ndarray :=
  mk_ndarray (dt a) ((λ v, v + k) <$> data a).

(** The dtype of a concatenation: integer only if every part is. *)
Definition promote (l : list ndarray) : dtype :=
  if forallb (λ a, bool_decide (dt a = int64)) l then int64 else float64.

(** [np.concatenate(l)] for one-dimensional arrays. *)
Definition np_concatenate (l : list ndarray) : outcome ndarray :=
  match l with
  | [] => Raise ValueError
  | _ => Ok (mk_ndarray (promote l) (concat (data <$> l)))
  end.

(** [np.repeat(np.arange(len(sizes)), sizes)] *)
Fixpoint repeat_arange_from (i : nat) (sizes : list nat) : list nat :=
  match sizes with
  | [] => []
  | n :: sizes' => replicate n i ++ repeat_arange_from (S i) sizes'
  end.
Definition np_repeat_arange (sizes : list nat) : ndarray :=
  mk_ndarray int64 (repeat_arange_from 0 sizes).

(** [np.nonzero(cond)[0]] for a boolean array. *)
Definition np_nonzero (cond : list bool) : list nat := positions id cond.

(** [a == k], elementwise. *)
Definition np_eq (a : ndarray) (k : nat) : list bool :=
  (λ v, bool_decide (v = k)) <$> data a.

(** [np.cumsum(l)] *)
Fixpoint cumsum_from (acc : nat) (l : list nat) : list nat :=
  match l with
  | [] => []
  | n :: l' => (acc + n) :: cumsum_from (acc + n) l'
  end.
Definition np_cumsum (l : list nat) : list nat := cumsum_from 0 l.

(** [l[:-1]] *)
Definition drop_last {A} (l : list A) : list A := take (length l - 1) l.

(** [l[st:end]] for non-negative bounds. *)
Definition slice {A} (st en : nat) (l : list A) : list A := take (en - st) (drop st l).

(** ** Two-dimensional arrays and the flatten / restore helpers *)

Section Ragged.
Context {A : Type}.

(** An array of shape [(length rows, shape1)]; [A] is the element type. *)
Record array2 : Type := mk_array2 { shape1 : nat; rows : list (list A) }.

Definition shape0 (a : array2) : nat := length (rows a).

(** [np.concatenate(a)] along axis 0: the list must not be empty and the
    other dimension must agree. *)
Definition np_concatenate2 (a : list array2) : outcome array2 :=
  match a with
  | [] => Raise ValueError
  | a0 :: rest =>
      if forallb (λ b, shape1 b =? shape1 a0) rest
      then Ok (mk_array2 (shape1 a0) (concat (rows <$> a)))
      else Raise ValueError
  end.

(** [np.split(flat, indices, axis=0)] with a sequence of indices: numpy's
    [array_split] cuts at [[0] + list(indices) + [Ntotal]]. *)
Fixpoint sections (div_points : list nat) (flat : array2) : list array2 :=
  match div_points with
  | st :: ((en :: _) as rest) =>
      mk_array2 (shape1 flat) (slice st en (rows flat)) :: sections rest flat
  | _ => []
  end.
Definition np_split (flat : array2) (indices : list nat) : list array2 :=
  sections ([0] ++ indices ++ [shape0 flat]) flat.

(** [_make_flat] (lines 16-20): the lengths are recorded before numpy
    concatenates. *)
Definition _make_flat (a : list array2) : outcome (array2 * list nat) :=
  let slices := shape0 <$> a in
  flat ← np_concatenate2 a;
  Ok (flat, slices).

(** [_make_ragged] (lines 23-27) *)
Definition _make_ragged (flat : array2) (slices : list nat) : list array2 :=
  let indices := np_cumsum slices in
  np_split flat (drop_last indices).

End Ragged.
Arguments array2 A : clear implicits.

(** ** Dataset *)

(** A [pathlib.Path], with what [path.suffix] returns. *)
Record Path : Type := mk_Path { path_str : string; suffix : string }.

Inductive backend_cls : Type := NetCDFBackend | RawAudioBackend | ARFFBackend.

(** The registry of adapters by suffix (lines 30-34). *)
Definition _BACKENDS : gmap string backend_cls :=
  <[".nc" := NetCDFBackend]> (<[".txt" := RawAudioBackend]> (<[".arff" := ARFFBackend]> ∅)).

(** An entry of the corpus registry [corpora]. A speaker group, a Python set
    of speaker names, is the list of its elements. *)
Record CorpusInfo : Type := mk_CorpusInfo {
  male_speakers : list string;
  female_speakers : list string;
  speaker_groups : list (list string) }.

Section Datasets.
(** [X] is what the feature container holds for one instance. *)
Context {X : Type}.

(** What a backend adapter exposes once it has loaded a file. *)
Record Backend : Type := mk_Backend {
  backend_corpus : string;
  backend_names : list string;
  backend_feature_names : list string;
  backend_features : list X }.

(** The attributes of a [Dataset] object. [_male_indices] and
    [_female_indices] hold the one-element tuple that [nonzero()] returns,
    given by the array in it. *)
Record Dataset : Type := mk_Dataset {
  _corpus : string;
  _names : list string;
  _features : list string;
  _x : list X;
  _speakers : list string;
  _male_speakers : list string;
  _female_speakers : list string;
  _speaker_groups : list (list string);
  _speaker_indices : ndarray;
  _speaker_counts : option ndarray;
  _male_indices : option (list nat);
  _female_indices : option (list nat);
  _speaker_group_indices : ndarray }.

Definition set_names (v : list string) (self : Dataset) : Dataset :=
  {| _corpus := _corpus self;
     _names := v;
     _features := _features self;
     _x := _x self;
     _speakers := _speakers self;
     _male_speakers := _male_speakers self;
     _female_speakers := _female_speakers self;
     _speaker_groups := _speaker_groups self;
     _speaker_indices := _speaker_indices self;
     _speaker_counts := _speaker_counts self;
     _male_indices := _male_indices self;
     _female_indices := _female_indices self;
     _speaker_group_indices := _speaker_group_indices self |}.

Definition set_x (v : list X) (self : Dataset) : Dataset :=
  {| _corpus := _corpus self;
     _names := _names self;
     _features := _features self;
     _x := v;
     _speakers := _speakers self;
     _male_speakers := _male_speakers self;
     _female_speakers := _female_speakers self;
     _speaker_groups := _speaker_groups self;
     _speaker_indices := _speaker_indices self;
     _speaker_counts := _speaker_counts self;
     _male_indices := _male_indices self;
     _female_indices := _female_indices self;
     _speaker_group_indices := _speaker_group_indices self |}.

Definition set_speakers (v : list string) (self : Dataset) : Dataset :=
  {| _corpus := _corpus self;
     _names := _names self;
     _features := _features self;
     _x := _x self;
     _speakers := v;
     _male_speakers := _male_speakers self;
     _female_speakers := _female_speakers self;
     _speaker_groups := _speaker_groups self;
     _speaker_indices := _speaker_indices self;
     _speaker_counts := _speaker_counts self;
     _male_indices := _male_indices self;
     _female_indices := _female_indices self;
     _speaker_group_indices := _speaker_group_indices self |}.

Definition set_male_speakers (v : list string) (self : Dataset) : Dataset :=
  {| _corpus := _corpus self;
     _names := _names self;
     _features := _features self;
     _x := _x self;
     _speakers := _speakers self;
     _male_speakers := v;
     _female_speakers := _female_speakers self;
     _speaker_groups := _speaker_groups self;
     _speaker_indices := _speaker_indices self;
     _speaker_counts := _speaker_counts self;
     _male_indices := _male_indices self;
     _female_indices := _female_indices self;
     _speaker_group_indices := _speaker_group_indices self |}.

Definition set_female_speakers (v : list string) (self : Dataset) : Dataset :=
  {| _corpus := _corpus self;
     _names := _names self;
     _features := _features self;
     _x := _x self;
     _speakers := _speakers self;
     _male_speakers := _male_speakers self;
     _female_speakers := v;
     _speaker_groups := _speaker_groups self;
     _speaker_indices := _speaker_indices self;
     _speaker_counts := _speaker_counts self;
     _male_indices := _male_indices self;
     _female_indices := _female_indices self;
     _speaker_group_indices := _speaker_group_indices self |}.

Definition set_speaker_groups (v : list (list string)) (self : Dataset) : Dataset :=
  {| _corpus := _corpus self;
     _names := _names self;
     _features := _features self;
     _x := _x self;
     _speakers := _speakers self;
     _male_speakers := _male_speakers self;
     _female_speakers := _female_speakers self;
     _speaker_groups := v;
     _speaker_indices := _speaker_indices self;
     _speaker_counts := _speaker_counts self;
     _male_indices := _male_indices self;
     _female_indices := _female_indices self;
     _speaker_group_indices := _speaker_group_indices self |}.

Definition set_speaker_indices (v : ndarray) (self : Dataset) : Dataset :=
  {| _corpus := _corpus self;
     _names := _names self;
     _features := _features self;
     _x := _x self;
     _speakers := _speakers self;
     _male_speakers := _male_speakers self;
     _female_speakers := _female_speakers self;
     _speaker_groups := _speaker_groups self;
     _speaker_indices := v;
     _speaker_counts := _speaker_counts self;
     _male_indices := _male_indices self;
     _female_indices := _female_indices self;
     _speaker_group_indices := _speaker_group_indices self |}.

Definition set_speaker_counts (v : option ndarray) (self : Dataset) : Dataset :=
  {| _corpus := _corpus self;
     _names := _names self;
     _features := _features self;
     _x := _x self;
     _speakers := _speakers self;
     _male_speakers := _male_speakers self;
     _female_speakers := _female_speakers self;
     _speaker_groups := _speaker_groups self;
     _speaker_indices := _speaker_indices self;
     _speaker_counts := v;
     _male_indices := _male_indices self;
     _female_indices := _female_indices self;
     _speaker_group_indices := _speaker_group_indices self |}.

Definition set_male_indices (v : option (list nat)) (self : Dataset) : Dataset :=
  {| _corpus := _corpus self;
     _names := _names self;
     _features := _features self;
     _x := _x self;
     _speakers := _speakers self;
     _male_speakers := _male_speakers self;
     _female_speakers := _female_speakers self;
     _speaker_groups := _speaker_groups self;
     _speaker_indices := _speaker_indices self;
     _speaker_counts := _speaker_counts self;
     _male_indices := v;
     _female_indices := _female_indices self;
     _speaker_group_indices := _speaker_group_indices self |}.

Definition set_female_indices (v : option (list nat)) (self : Dataset) : Dataset :=
  {| _corpus := _corpus self;
     _names := _names self;
     _features := _features self;
     _x := _x self;
     _speakers := _speakers self;
     _male_speakers := _male_speakers self;
     _female_speakers := _female_speakers self;
     _speaker_groups := _speaker_groups self;
     _speaker_indices := _speaker_indices self;
     _speaker_counts := _speaker_counts self;
     _male_indices := _male_indices self;
     _female_indices := v;
     _speaker_group_indices := _speaker_group_indices self |}.

Definition set_speaker_group_indices (v : ndarray) (self : Dataset) : Dataset :=
  {| _corpus := _corpus self;
     _names := _names self;
     _features := _features self;
     _x := _x self;
     _speakers := _speakers self;
     _male_speakers := _male_speakers self;
     _female_speakers := _female_speakers self;
     _speaker_groups := _speaker_groups self;
     _speaker_indices := _speaker_indices self;
     _speaker_counts := _speaker_counts self;
     _male_indices := _male_indices self;
     _female_indices := _female_indices self;
     _speaker_group_indices := v |}.

Definition n_instances (self : Dataset) : nat := length (_names self).

(** [np.isin(np.array(speakers)[speaker_indices], group).nonzero()] *)
Definition isin_nonzero (speakers : list string) (speaker_indices : ndarray)
    (group : list string) : outcome (list nat) :=
  idx ← as_index speaker_indices;
  sp ← select speakers idx;
  Ok (np_nonzero (contains group <$> sp)).

(** The two assignments of [_reset_male_female_indices], when its guard
    holds: both index tuples, or the exception of the first. *)
Definition male_female_indices (speakers male female : list string)
    (speaker_indices : ndarray) : outcome (option (list nat * list nat)) :=
  if bool_decide (male ≠ [] ∧ female ≠ []) then
    m ← isin_nonzero speakers speaker_indices male;
    f ← isin_nonzero speakers speaker_indices female;
    Ok (Some (m, f))
  else Ok None.

(** [_reset_male_female_indices] (lines 90-97) *)
Definition _reset_male_female_indices : meth Dataset unit :=
  self ← getattr id;
  mf ← lift (male_female_indices (_speakers self) (_male_speakers self)
               (_female_speakers self) (_speaker_indices self));
  match mf with
  | Some (m, f) =>
      setattr (set_male_indices (Some m));;
      setattr (set_female_indices (Some f))
  | None => mret tt
  end.

(** The loops of [_reset_speaker_group_indices]: [speaker_to_group] starts as
    [np.empty(len(speakers), dtype=int)], every cell uninitialised ([None]). *)
Fixpoint fill_group (speakers : list string) (i : nat) (group : list string)
    (speaker_to_group : list (option nat)) : outcome (list (option nat)) :=
  match group with
  | [] => Ok speaker_to_group
  | sp :: group' =>
      k ← list_index speakers sp;
      fill_group speakers i group' (<[k := Some i]> speaker_to_group)
  end.
Fixpoint fill_groups (speakers : list string) (i : nat) (groups : list (list string))
    (speaker_to_group : list (option nat)) : outcome (list (option nat)) :=
  match groups with
  | [] => Ok speaker_to_group
  | group :: groups' =>
      arr ← fill_group speakers i group speaker_to_group;
      fill_groups speakers (S i) groups' arr
  end.

(** A read of cells of an [np.empty] array: defined when all were written. *)
Definition initialised (cells : list (option nat)) : outcome (list nat) :=
  match mapM id cells with
  | Some l => Ok l
  | None => Unspecified
  end.

(** [speaker_to_group[speaker_indices]] after the loops. *)
Definition speaker_group_indices_of (speakers : list string)
    (groups : list (list string)) (speaker_indices : ndarray) : outcome ndarray :=
  speaker_to_group ← fill_groups speakers 0 groups (replicate (length speakers) None);
  idx ← as_index speaker_indices;
  cells ← select speaker_to_group idx;
  l ← initialised cells;
  Ok (mk_ndarray int64 l).

(** [_reset_speaker_group_indices] (lines 99-104) *)
Definition _reset_speaker_group_indices : meth Dataset unit :=
  self ← getattr id;
  a ← lift (speaker_group_indices_of (_speakers self) (_speaker_groups self)
              (_speaker_indices self));
  setattr (set_speaker_group_indices a).

(** [t[idx]] with [t] a tuple and [idx] a Python list: tuple indices must be
    integers or slices. *)
Definition tuple_getitem_list (t : list nat) (idx : list nat) : outcome (list nat) :=
  Raise TypeError.

(** [Dataset.remove_instances] (lines 106-140). No statement of it assigns
    [_speaker_counts]; its second branch reads [_male_indices] and
    [_female_indices] and indexes each tuple with the list [idx]. *)
Definition remove_instances (keep : list string) : meth Dataset unit :=
  self ← getattr id;
  let idx := positions (contains keep) (_names self) in
  names' ← lift (select (_names self) idx);
  setattr (set_names names');;
  x' ← lift (select (_x self) idx);
  setattr (set_x x');;
  kept_sp ← lift (np_getitem_list (_speaker_indices self) idx);
  let new_sp := np_unique kept_sp in
  if bool_decide (np_len new_sp < length (_speakers self)) then
    new_speakers ← lift (traverse (list_getitem_np (_speakers self) (dt new_sp))
                           (data new_sp));
    si ← lift (traverse (λ i,
                 v ← list_getitem (data (_speaker_indices self)) i;
                 s ← list_getitem_np (_speakers self) (dt (_speaker_indices self)) v;
                 list_index new_speakers s) idx);
    setattr (set_speaker_indices (np_array si));;
    setattr (set_speakers new_speakers);;
    kept_grp ← lift (np_getitem_list (_speaker_group_indices self) idx);
    let new_sp_grp := np_unique kept_grp in
    groups' ← lift (traverse (list_getitem_np (_speaker_groups self) (dt new_sp_grp))
                      (data new_sp_grp));
    setattr (set_speaker_groups groups');;
    _reset_speaker_group_indices;;
    if bool_decide (_male_speakers self ≠ [] ∧ _female_speakers self ≠ []) then
      setattr (set_male_speakers
                 (filter (λ s, s ∈ new_speakers) (_male_speakers self)));;
      setattr (set_female_speakers
                 (filter (λ s, s ∈ new_speakers) (_female_speakers self)));;
      _reset_male_female_indices
    else mret tt
  else
    setattr (set_speaker_indices kept_sp);;
    kept_grp ← lift (np_getitem_list (_speaker_group_indices self) idx);
    setattr (set_speaker_group_indices kept_grp);;
    mi ← getattr_opt "_male_indices" _male_indices;
    mi' ← lift (tuple_getitem_list mi idx);
    setattr (set_male_indices (Some mi'));;
    fi ← getattr_opt "_female_indices" _female_indices;
    fi' ← lift (tuple_getitem_list fi idx);
    setattr (set_female_indices (Some fi')).

(** *** Construction *)

Section Init.
(** The backend adapters and the corpus registry live in modules of the
    package that are not part of the embedded file: what an adapter class
    does with a path, and the registry, are taken as given. *)
Variable load_backend : backend_cls → Path → outcome Backend.
Variable corpora : gmap string CorpusInfo.
(** [str.lower], the method of Python's strings: it follows the Unicode
    case mapping, which is no part of the embedded file either. *)
Variable lower : string → string.

(** [_BACKENDS[path.suffix](path)] inside [try ... except KeyError]. *)
Definition open_backend (path : Path) : outcome Backend :=
  let unknown := NotImplementedError ("Unknown filetype '" +:+ suffix path +:+ "'.") in
  match _BACKENDS !! suffix path with
  | None => Raise unknown
  | Some cls =>
      match load_backend cls path with
      | Raise (KeyError _) => Raise unknown
      | o => o
      end
  end.

(** The speaker attributes after the [if speaker_path:] statement. Without an
    annotation the class attributes are read: [["unknown"]] and empty lists. *)
Record speaker_attrs : Type := mk_speaker_attrs {
  sa_speakers : list string;
  sa_speaker_indices : ndarray;
  sa_male_speakers : list string;
  sa_female_speakers : list string;
  sa_speaker_groups : list (list string) }.

Definition read_speakers (corpus : string) (names : list string)
    (speaker_annot : option (gmap string string)) : outcome speaker_attrs :=
  match speaker_annot with
  | Some spk_dict =>
      spk ← traverse (dict_getitem spk_dict) names;
      let speakers := sorted_strs spk in
      idx ← traverse (list_index speakers) spk;
      match corpora !! lower corpus with
      | Some c =>
          Ok (mk_speaker_attrs speakers (np_array idx) (male_speakers c)
                (female_speakers c) (speaker_groups c))
      | None => Ok (mk_speaker_attrs speakers (np_array idx) [] [] [])
      end
  | None => Ok (mk_speaker_attrs ["unknown"] (np_zeros (length names)) [] [] [])
  end.

(** [Dataset.__init__(path, speaker_path)] (lines 51-88); [speaker_annot] is the dictionary
    that [parse_annotations(speaker_path, dtype=str)] returned when a speaker
    path was given. *)
Definition Dataset_init (path : Path) (speaker_annot : option (gmap string string))
    : outcome Dataset :=
  backend ← open_backend path;
  let corpus := backend_corpus backend in
  let names := backend_names backend in
  sa ← read_speakers corpus names speaker_annot;
  speaker_counts ← np_bincount (sa_speaker_indices sa) (length (sa_speakers sa));
  mf ← male_female_indices (sa_speakers sa) (sa_male_speakers sa)
         (sa_female_speakers sa) (sa_speaker_indices sa);
  let groups :=
    match sa_speaker_groups sa with
    | [] => (λ s, [s]) <$> sa_speakers sa
    | g => g
    end in
  sgi ← speaker_group_indices_of (sa_speakers sa) groups (sa_speaker_indices sa);
  Ok {| _corpus := corpus;
        _names := names;
        _features := backend_feature_names backend;
        _x := backend_features backend;
        _speakers := sa_speakers sa;
        _male_speakers := sa_male_speakers sa;
        _female_speakers := sa_female_speakers sa;
        _speaker_groups := groups;
        _speaker_indices := sa_speaker_indices sa;
        _speaker_counts := Some speaker_counts;
        _male_indices := fst <$> mf;
        _female_indices := snd <$> mf;
        _speaker_group_indices := sgi |}.

End Init.

(** ** LabelledDataset *)

(** A [LabelledDataset] object: the attributes of the base class and its own.
    [_class_counts] is unset on a fresh [CombinedDataset]. *)
Record LabelledDataset : Type := mk_LabelledDataset {
  base : Dataset;
  _classes : list string;
  _y : ndarray;
  _class_counts : option ndarray }.

Definition set_base (v : Dataset) (self : LabelledDataset) : LabelledDataset :=
  {| base := v;
     _classes := _classes self;
     _y := _y self;
     _class_counts := _class_counts self |}.
Definition set_classes (v : list string) (self : LabelledDataset) : LabelledDataset :=
  {| base := base self;
     _classes := v;
     _y := _y self;
     _class_counts := _class_counts self |}.
Definition set_y (v : ndarray) (self : LabelledDataset) : LabelledDataset :=
  {| base := base self;
     _classes := _classes self;
     _y := v;
     _class_counts := _class_counts self |}.
Definition set_class_counts (v : option ndarray) (self : LabelledDataset)
    : LabelledDataset :=
  {| base := base self;
     _classes := _classes self;
     _y := _y self;
     _class_counts := v |}.

Definition n_classes (self : LabelledDataset) : nat := length (_classes self).

(** A method of the base class, called on a derived object. *)
Definition on_base {A} (m : meth Dataset A) : meth LabelledDataset A :=
  λ self, let r := m (base self) in (r.1, set_base r.2 self).

(** [LabelledDataset.remove_instances] (lines 330-342) *)
Definition LabelledDataset_remove_instances (keep : list string)
    : meth LabelledDataset unit :=
  self ← getattr id;
  let idx := positions (contains keep) (_names (base self)) in
  kept_y ← lift (np_getitem_list (_y self) idx);
  let new_cl := np_unique kept_y in
  (if bool_decide (np_len new_cl < length (_classes self)) then
     new_classes ← lift (traverse (list_getitem_np (_classes self) (dt new_cl))
                           (data new_cl));
     y' ← lift (traverse (λ i,
                  v ← list_getitem (data (_y self)) i;
                  c ← list_getitem_np (_classes self) (dt (_y self)) v;
                  list_index new_classes c) idx);
     setattr (set_y (np_array y'));;
     setattr (set_classes new_classes)
   else
     setattr (set_y kept_y));;
  self ← getattr id;
  counts ← lift (np_bincount (_y self) 0);
  setattr (set_class_counts (Some counts));;
  on_base (remove_instances keep).

(** [LabelledDataset.map_classes] (lines 360-369); the mapping is a
    dictionary. *)
Definition map_classes (map : gmap string string) : meth LabelledDataset unit :=
  self ← getattr id;
  let mapped := (λ c, dict_get map c c) <$> _classes self in
  let new_classes := sorted_strs mapped in
  arr_map ← lift (traverse (list_index new_classes) mapped);
  y' ← lift (np_getitem_array (np_array arr_map) (_y self));
  setattr (set_y y');;
  counts ← lift (np_bincount y' 0);
  setattr (set_class_counts (Some counts));;
  setattr (set_classes new_classes).

(** [[self.classes[int(i)] for i in self.y]] *)
Definition str_labels_of (self : LabelledDataset) : outcome (list string) :=
  traverse (list_getitem (_classes self)) (data (_y self)).

(** [LabelledDataset.remove_classes] (lines 371-387) *)
Definition remove_classes (keep : list string) : meth LabelledDataset unit :=
  self ← getattr id;
  str_labels ← lift (str_labels_of self);
  let keep_idx := positions (contains keep) str_labels in
  x' ← lift (select (_x (base self)) keep_idx);
  setattr (λ s, set_base (set_x x' (base s)) s);;
  names' ← lift (select (_names (base self)) keep_idx);
  setattr (λ s, set_base (set_names names' (base s)) s);;
  si ← lift (np_getitem_list (_speaker_indices (base self)) keep_idx);
  setattr (λ s, set_base (set_speaker_indices si (base s)) s);;
  counts ← lift (np_bincount si (length (_speakers (base self))));
  setattr (λ s, set_base (set_speaker_counts (Some counts) (base s)) s);;
  setattr (λ s, set_base (set_speaker_group_indices si (base s)) s);;
  let classes' := sorted_strs (filter (λ c, c ∈ keep) (_classes self)) in
  setattr (set_classes classes');;
  let str_labels' := filter (λ c, c ∈ keep) str_labels in
  y' ← lift (traverse (list_index classes') str_labels');
  setattr (set_y (np_array y'));;
  class_counts ← lift (np_bincount (np_array y') 0);
  setattr (set_class_counts (Some class_counts)).

Section LabelledInit.
Variable load_backend : backend_cls → Path → outcome Backend.
Variable corpora : gmap string CorpusInfo.
Variable lower : string → string.

(** [LabelledDataset.__init__(path, label_path, speaker_path)] (lines
    316-328); [label_dict]
    is what [parse_annotations(label_path)] returned. *)
Definition LabelledDataset_init (path : Path) (label_dict : gmap string string)
    (speaker_annot : option (gmap string string)) : outcome LabelledDataset :=
  d ← Dataset_init load_backend corpora lower path speaker_annot;
  labels ← traverse (dict_getitem label_dict) (_names d);
  let classes := sorted_strs labels in
  y ← traverse (list_index classes) labels;
  class_counts ← np_bincount (np_array y) 0;
  Ok {| base := d;
        _classes := classes;
        _y := np_array y;
        _class_counts := Some class_counts |}.

End LabelledInit.

(** ** CombinedDataset *)

Record CombinedDataset : Type := mk_CombinedDataset {
  labelled : LabelledDataset;
  _corpora : list string;
  _corpus_indices : ndarray;
  _corpus_counts : ndarray }.

(** [corpus + "_" + name] *)
Definition prefixed (corpus name : string) : string := corpus +:+ "_" +:+ name.

(** The accumulators of the loop over the sources. *)
Record merged : Type := mk_merged {
  m_speakers : list string;
  m_speaker_indices : list ndarray;
  m_speaker_groups : list (list string);
  m_speaker_group_indices : list ndarray }.

Definition merge_step (acc : merged) (d : LabelledDataset) : merged :=
  let corpus := _corpus (base d) in
  {| m_speaker_indices :=
       m_speaker_indices acc ++
       [np_add (_speaker_indices (base d)) (length (m_speakers acc))];
     m_speakers := m_speakers acc ++ (prefixed corpus <$> _speakers (base d));
     m_speaker_group_indices :=
       m_speaker_group_indices acc ++
       [np_add (_speaker_group_indices (base d)) (length (m_speaker_groups acc))];
     m_speaker_groups :=
       m_speaker_groups acc ++
       ((λ g : list string, prefixed corpus <$> g) <$> _speaker_groups (base d)) |}.

Section Combine.
(** A feature container is modelled by its rows; its number of dimensions
    and the dimensions of a row are not. Whether numpy accepts containers
    together, as having the same number of dimensions and equal dimensions
    after the first, is given by [same_layout]. *)
Variable same_layout : list (list X) → bool.

(** [np.concatenate(l)] for feature containers: along the first axis. *)
Definition np_concatenate_x (l : list (list X)) : outcome (list X) :=
  match l with
  | [] => Raise ValueError
  | _ => if same_layout l then Ok (concat l) else Raise ValueError
  end.

(** [CombinedDataset.__init__] (lines 437-478) on the sources and the
    optional allow-list [labels]. The attributes
    [_speaker_counts], [_male_indices], [_female_indices] and [_class_counts]
    are not assigned; the male and female speaker lists are the empty class
    attributes. *)
Definition CombinedDataset_init (datasets : list LabelledDataset)
    (labels : option (list string)) : outcome CombinedDataset :=
  let corpora := (λ d, _corpus (base d)) <$> datasets in
  let sizes := (λ d, length (_x (base d))) <$> datasets in
  let corpus_indices := np_repeat_arange sizes in
  corpus_counts ← np_bincount corpus_indices 0;
  let names :=
    datasets ≫= (λ d, prefixed (_corpus (base d)) <$> _names (base d)) in
  d0 ← list_getitem datasets 0;
  let features := _features (base d0) in
  let acc := foldl merge_step (mk_merged [] [] [] []) datasets in
  speaker_indices ← np_concatenate (m_speaker_indices acc);
  speaker_group_indices ← np_concatenate (m_speaker_group_indices acc);
  x ← np_concatenate_x ((λ d, _x (base d)) <$> datasets);
  let all_labels := datasets ≫= _classes in
  per_source ← traverse str_labels_of datasets;
  let str_labels := concat per_source in
  '(x', speaker_indices', classes, str_labels') ←
    match labels with
    | Some labels =>
        let drop_labels := filter (λ c, c ∉ labels) all_labels in
        let keep_idx := positions (λ c, negb (contains drop_labels c)) str_labels in
        x' ← select x keep_idx;
        si ← np_getitem_list speaker_indices keep_idx;
        Ok (x', si, sorted_strs labels,
            filter (λ c, c ∉ drop_labels) str_labels)
    | None => Ok (x, speaker_indices, sorted_strs all_labels, str_labels)
    end;
  y ← traverse (list_index classes) str_labels';
  Ok {| labelled :=
          {| base :=
               {| _corpus := "combined";
                  _names := names;
                  _features := features;
                  _x := x';
                  _speakers := m_speakers acc;
                  _male_speakers := [];
                  _female_speakers := [];
                  _speaker_groups := m_speaker_groups acc;
                  _speaker_indices := speaker_indices';
                  _speaker_counts := None;
                  _male_indices := None;
                  _female_indices := None;
                  _speaker_group_indices := speaker_indices' |};
             _classes := classes;
             _y := np_array y;
             _class_counts := None |};
        _corpora := corpora;
        _corpus_indices := corpus_indices;
        _corpus_counts := corpus_counts |}.

End Combine.

(** [corpus_to_idx] (lines 496-497) *)
Definition corpus_to_idx (self : CombinedDataset) (corpus : string) : outcome nat :=
  list_index (_corpora self) corpus.

(** [get_corpus_split] (lines 499-507): it reads the object and returns two
    index arrays. *)
Definition get_corpus_split (self : CombinedDataset) (corpus : string)
    : outcome (list nat * list nat) :=
  k ← corpus_to_idx self corpus;
  let cond := np_eq (_corpus_indices self) k in
  let corpus_idx := np_nonzero cond in
  let other_idx := np_nonzero (negb <$> cond) in
  Ok (corpus_idx, other_idx).

End Datasets.

Arguments Backend X : clear implicits.
Arguments Dataset X : clear implicits.
Arguments LabelledDataset X : clear implicits.
Arguments CombinedDataset X : clear implicits.

(** ** Conditions on objects, as the data model states them *)

(** Strictly increasing for [cmp]: sorted and without duplicates. *)
Fixpoint increasing {A} (cmp : A → A → comparison) (l : list A) : bool :=
  match l with
  | a :: ((b :: _) as l') =>
      match cmp a b with
      | Lt => increasing cmp l'
      | _ => false
      end
  | _ => true
  end.

Section Conditions.
Context {X : Type}.

(** The class list is sorted and deduplicated. *)
Definition classes_sorted (self : LabelledDataset X) : bool :=
  increasing String.compare (_classes self).

(** The label array is an integer array of valid class indices. *)
Definition labels_valid (self : LabelledDataset X) : bool :=
  bool_decide (dt (_y self) = int64) &&
  forallb (λ v, v <? n_classes self) (data (_y self)).

(** [_class_counts] is set, to [np.bincount(self.y)]. *)
Definition class_counts_current (self : LabelledDataset X) : bool :=
  match np_bincount (_y self) 0 with
  | Ok c => bool_decide (_class_counts self = Some c)
  | _ => false
  end.


(** Every labelled position has a name, a feature row and a speaker index,
    and the speaker indices are integers. *)
Definition labels_covered (self : LabelledDataset X) : bool :=
  (np_len (_y self) <=? length (_names (base self))) &&
  (np_len (_y self) <=? length (_x (base self))) &&
  (np_len (_y self) <=? np_len (_speaker_indices (base self))) &&
  bool_decide (dt (_speaker_indices (base self)) = int64).

(** Every name has a feature row, a speaker index and a group index. *)
Definition names_covered (self : Dataset X) : bool :=
  (length (_names self) <=? length (_x self)) &&
  (length (_names self) <=? np_len (_speaker_indices self)) &&
  (length (_names self) <=? np_len (_speaker_group_indices self)).

(** The male and female speaker lists are both configured: the guard of
    [_reset_male_female_indices]. *)
Definition gender_configured (self : Dataset X) : bool :=
  bool_decide (_male_speakers self ≠ [] ∧ _female_speakers self ≠ []).

(** The speaker indices of the instances that [keep] retains, as
    [remove_instances] computes them. *)
Definition kept_speaker_indices (keep : list string) (self : Dataset X)
    : outcome ndarray :=
  np_getitem_list (_speaker_indices self)
    (positions (contains keep) (_names self)).

(** The instances that [keep] retains still span all current speakers: the
    test of [remove_instances] sends the call to its second branch. *)
Definition spans_all_speakers (keep : list string) (self : Dataset X) : bool :=
  match kept_speaker_indices keep self with
  | Ok kept => length (_speakers self) <=? np_len (np_unique kept)
  | _ => false
  end.

(** The sum of the entries of an array. *)
Definition np_sum (a : ndarray) : nat := sum_list (data a).

End Conditions.

(** ** Scenario A of the specification

    Source A holds [a1] (speaker X, class happy) and [a2] (speaker Y, class
    sad); source B holds [b1] (speaker Z, class happy). A feature row is
    named by a number. *)
Module Scenario.

Definition path_A : Path := mk_Path "A.arff" ".arff".
Definition path_B : Path := mk_Path "B.arff" ".arff".

Definition load (cls : backend_cls) (path : Path) : outcome (Backend nat) :=
  if bool_decide (path_str path = path_str path_A)
  then Ok (mk_Backend "A" ["a1"; "a2"] ["f0"] [10; 20])
  else Ok (mk_Backend "B" ["b1"] ["f0"] [30]).

Definition registry : gmap string CorpusInfo := ∅.

(** [str.lower] on the corpus names of the scenario, which are ASCII
    strings: the capital letters A to Z are lowered, every other character
    stays. *)
Definition ascii_lower (c : Ascii.ascii) : Ascii.ascii :=
  let n := Ascii.nat_of_ascii c in
  if (65 <=? n) && (n <=? 90) then Ascii.ascii_of_nat (n + 32) else c.
Fixpoint lower (s : string) : string :=
  match s with
  | EmptyString => EmptyString
  | String c s' => String (ascii_lower c) (lower s')
  end.

(** The feature containers of the scenario are matrices with the one
    column [f0]: numpy concatenates them. *)
Definition same_layout (l : list (list nat)) : bool := true.

Definition speakers_A : gmap string string := <["a1" := "X"]> (<["a2" := "Y"]> ∅).
Definition labels_A : gmap string string := <["a1" := "happy"]> (<["a2" := "sad"]> ∅).
Definition speakers_B : gmap string string := <["b1" := "Z"]> ∅.
Definition labels_B : gmap string string := <["b1" := "happy"]> ∅.

Definition dataset_A : outcome (LabelledDataset nat) :=
  LabelledDataset_init load registry lower path_A labels_A (Some speakers_A).
Definition dataset_B : outcome (LabelledDataset nat) :=
  LabelledDataset_init load registry lower path_B labels_B (Some speakers_B).

(** [CombinedDataset(A, B, labels=labels)] *)
Definition combined (labels : option (list string)) : outcome (CombinedDataset nat) :=
  a ← dataset_A; b ← dataset_B; CombinedDataset_init same_layout [a; b] labels.

(** The plain [Dataset] over the file of A, with its speaker annotation. *)
Definition plain_A : outcome (Dataset nat) :=
  Dataset_init load registry lower path_A (Some speakers_A).

(** A file whose suffix no adapter is registered for. *)
Definition path_csv : Path := mk_Path "corpus.csv" ".csv".

(** The objects that the constructors build. *)
Definition object_A : LabelledDataset nat :=
  {| base :=
       {| _corpus := "A";
          _names := ["a1"; "a2"];
          _features := ["f0"];
          _x := [10; 20];
          _speakers := ["X"; "Y"];
          _male_speakers := [];
          _female_speakers := [];
          _speaker_groups := [["X"]; ["Y"]];
          _speaker_indices := mk_ndarray int64 [0; 1];
          _speaker_counts := Some (mk_ndarray int64 [1; 1]);
          _male_indices := None;
          _female_indices := None;
          _speaker_group_indices := mk_ndarray int64 [0; 1] |};
     _classes := ["happy"; "sad"];
     _y := mk_ndarray int64 [0; 1];
     _class_counts := Some (mk_ndarray int64 [1; 1]) |}.

Definition object_AB : CombinedDataset nat :=
  {| labelled :=
       {| base :=
            {| _corpus := "combined";
               _names := ["A_a1"; "A_a2"; "B_b1"];
               _features := ["f0"];
               _x := [10; 20; 30];
               _speakers := ["A_X"; "A_Y"; "B_Z"];
               _male_speakers := [];
               _female_speakers := [];
               _speaker_groups := [["A_X"]; ["A_Y"]; ["B_Z"]];
               _speaker_indices := mk_ndarray int64 [0; 1; 2];
               _speaker_counts := None;
               _male_indices := None;
               _female_indices := None;
               _speaker_group_indices := mk_ndarray int64 [0; 1; 2] |};
          _classes := ["happy"; "sad"];
          _y := mk_ndarray int64 [0; 1; 0];
          _class_counts := None |};
     _corpora := ["A"; "B"];
     _corpus_indices := mk_ndarray int64 [0; 0; 1];
     _corpus_counts := mk_ndarray int64 [2; 1] |}.


End Scenario.

(** ** Proof automation *)

(** Evaluation of a method body: the binds of the method monad become
    matches on the outcomes of the steps, ready for a case analysis. *)
Ltac run_meth :=
  unfold mbind, meth_bind, mret, meth_ret, getattr, getattr_opt, setattr, lift,
    tuple_getitem_list;
  cbn [id of_option].
Ltac split_outcomes :=
  repeat (case_match; simplify_eq/=; try done).

(** ** Further accessors and conditions *)

Section MoreConditions.
Context {X : Type}.

(** [LabelledDataset.class_to_int] (lines 417-419) *)
Definition class_to_int (self : LabelledDataset X) (c : string) : outcome nat :=
  list_index (_classes self) c.

(** The speaker name of every instance: [speakers[i]] for [i] in
    [speaker_indices]. *)
Definition speaker_names (self : Dataset X) : outcome (list string) :=
  select (_speakers self) (data (_speaker_indices self)).

(** The speaker indices are integers and valid offsets into the speaker
    list. *)
Definition speakers_valid (self : Dataset X) : bool :=
  bool_decide (dt (_speaker_indices self) = int64) &&
  forallb (λ v, v <? length (_speakers self)) (data (_speaker_indices self)).

(** A method of [LabelledDataset] called on a combination that does not
    override it: it reads and assigns the inherited attributes, and none of
    [_corpora], [_corpus_indices] and [_corpus_counts]. *)
Definition on_labelled {A} (m : meth (LabelledDataset X) A)
    : meth (CombinedDataset X) A :=
  λ self, let r := m (labelled self) in
          (r.1, {| labelled := r.2;
                   _corpora := _corpora self;
                   _corpus_indices := _corpus_indices self;
                   _corpus_counts := _corpus_counts self |}).

(** [remove_classes] (lines 371-387) on a [CombinedDataset], which inherits
    it. *)
Definition CombinedDataset_remove_classes (keep : list string)
    : meth (CombinedDataset X) unit :=
  on_labelled (remove_classes keep).

End MoreConditions.

(** ** Further scenario objects *)
Module Scenario2.

(** A speaker annotation that lacks the second instance of A. *)
Definition speakers_partial : gmap string string := <["a1" := "X"]> ∅.

(** A label annotation that lacks the second instance of A. *)
Definition labels_partial : gmap string string := <["a1" := "happy"]> ∅.

(** The dataset of A with two overlapping speaker groups: speaker Y is in
    both. *)
Definition overlapping : Dataset nat :=
  set_speaker_groups [["X"; "Y"]; ["Y"]] (base Scenario.object_A).

(** The dataset of A with one group of both speakers. *)
Definition paired : Dataset nat :=
  set_speaker_group_indices (mk_ndarray int64 [0; 0])
    (set_speaker_groups [["X"; "Y"]] (base Scenario.object_A)).

(** The dataset of A with X configured as male and Y as female. *)
Definition gendered : Dataset nat :=
  set_female_speakers ["Y"] (set_male_speakers ["X"] (base Scenario.object_A)).

(** The object that the constructor builds for B. *)
Definition object_B : LabelledDataset nat :=
  {| base :=
       {| _corpus := "B";
          _names := ["b1"];
          _features := ["f0"];
          _x := [30];
          _speakers := ["Z"];
          _male_speakers := [];
          _female_speakers := [];
          _speaker_groups := [["Z"]];
          _speaker_indices := mk_ndarray int64 [0];
          _speaker_counts := Some (mk_ndarray int64 [1]);
          _male_indices := None;
          _female_indices := None;
          _speaker_group_indices := mk_ndarray int64 [0] |};
     _classes := ["happy"];
     _y := mk_ndarray int64 [0];
     _class_counts := Some (mk_ndarray int64 [1]) |}.

End Scenario2.

(** * Properties *)

(** ** Flatten and restore *)

Section RaggedFacts.
Context {A : Type}.
Implicit Types (a : list (array2 A)) (flat : array2 A).

Lemma cumsum_from_last acc (l : list nat) :
  l ≠ [] → drop_last (cumsum_from acc l) ++ [acc + sum_list l] = cumsum_from acc l.
Proof.
  revert acc. induction l as [|n l IH]; intros acc Hne; [done|].
  destruct l as [|m l].
  - simpl. f_equal. lia.
  - specialize (IH (acc + n) ltac:(done)).
    simpl in *. unfold drop_last in *. simpl in *.
    rewrite Nat.sub_0_r in IH.
    f_equal. rewrite <- IH at 2. f_equal. f_equal. lia.
Qed.

Lemma shape0_concat a :
  length (concat (rows <$> a)) = sum_list (shape0 <$> a).
Proof.
  induction a as [|b a IH]; [done|].
  rewrite !fmap_cons. cbn [concat]. rewrite length_app, IH. done.
Qed.

(** Cutting at the running totals of the lengths gives back the pieces. *)
Lemma sections_cumsum n a (pre : list (list A)) :
  sections (length pre :: cumsum_from (length pre) (shape0 <$> a))
    (mk_array2 n (pre ++ concat (rows <$> a)))
  = (λ b, mk_array2 n (rows b)) <$> a.
Proof.
  revert pre. induction a as [|b a IH]; intros pre; [done|].
  cbn [fmap list_fmap cumsum_from sections concat].
  f_equal.
  - f_equal. unfold slice. cbn [rows].
    rewrite drop_app_length. replace (length pre + shape0 b - length pre) with (length (rows b)) by (unfold shape0; lia).
    apply take_app_length.
  - specialize (IH (pre ++ rows b)).
    rewrite length_app in IH. rewrite <- (assoc_L (++)) in IH. exact IH.
Qed.

Lemma common_shape1 n a :
  Forall (λ b, shape1 b = n) a → (λ b, mk_array2 n (rows b)) <$> a = a.
Proof.
  induction 1 as [|b a Hb _ IH]; [done|].
  cbn. rewrite IH. f_equal. destruct b; simpl in *; by subst.
Qed.

(** C4. For a non-empty list of two-dimensional arrays that agree on their
    feature dimension, [_make_flat] succeeds, records the length of every
    instance, and [_make_ragged] applied to the flat array and the recorded
    lengths returns the original list: every instance comes back with its
    shape and its elements. *)
Theorem make_flat_make_ragged a :
  a ≠ [] →
  (∀ b c, b ∈ a → c ∈ a → shape1 b = shape1 c) →
  ∃ flat, _make_flat a = Ok (flat, shape0 <$> a) ∧
          _make_ragged flat (shape0 <$> a) = a.
Proof.
  intros Hne Hdim. destruct a as [|a0 rest]; [done|].
  assert (Hall : Forall (λ b, shape1 b = shape1 a0) (a0 :: rest)).
  { apply Forall_forall. intros b Hb. apply Hdim; [done|left]. }
  unfold _make_flat, np_concatenate2.
  replace (forallb (λ b, shape1 b =? shape1 a0) rest) with true; cycle 1.
  { symmetry. apply forallb_forall. intros b Hb. apply Nat.eqb_eq.
    apply Hdim; [right; by apply list_elem_of_In|left]. }
  eexists. split; [reflexivity|].
  unfold _make_ragged, np_split, np_cumsum.
  set (a := a0 :: rest) in *.
  replace (shape0 {| shape1 := shape1 a0; rows := concat (rows <$> a) |})
    with (0 + sum_list (shape0 <$> a)) by (unfold shape0; cbn [rows]; by rewrite shape0_concat).
  rewrite cumsum_from_last by done.
  etrans; [apply (sections_cumsum (shape1 a0) a [])|].
  by apply common_shape1.
Qed.

End RaggedFacts.

(** The round trip on three instances of lengths 2, 0 and 1. *)
Lemma make_flat_make_ragged_witness :
  let a := [mk_array2 2 [[1; 2]; [3; 4]]; mk_array2 2 []; mk_array2 2 [[5; 6]]] in
  ∃ flat, _make_flat a = Ok (flat, [2; 0; 1]) ∧ _make_ragged flat [2; 0; 1] = a.
Proof.
  intros a.
  apply (make_flat_make_ragged (A := nat) a).
  - done.
  - intros b c Hb Hc. subst a.
    repeat (apply elem_of_cons in Hb as [->|Hb]); [| | |by apply not_elem_of_nil in Hb];
    repeat (apply elem_of_cons in Hc as [->|Hc]); try by apply not_elem_of_nil in Hc.
    all: reflexivity.
Defined.

(** ** Python and numpy helpers *)

Section ListFacts.
Context {A : Type}.
Implicit Types (p : A → bool) (l pre : list A).

Lemma list_getitem_Some l i v : l !! i = Some v → list_getitem l i = Ok v.
Proof. unfold list_getitem. by intros ->. Qed.

Lemma list_getitem_None l i : l !! i = None → list_getitem l i = Raise IndexError.
Proof. unfold list_getitem. by intros ->. Qed.

Lemma select_cons l i (idx : list nat) :
  select l (i :: idx) = v ← list_getitem l i; r ← select l idx; Ok (v :: r).
Proof. reflexivity. Qed.

Lemma select_positions_from p pre l :
  select (pre ++ l) (positions_from p (length pre) l)
  = Ok (filter (λ v, Is_true (p v)) l).
Proof.
  revert pre. induction l as [|v l IH]; intros pre; [done|].
  specialize (IH (pre ++ [v])).
  rewrite length_app, Nat.add_1_r, <- (assoc_L (++)) in IH. cbn [app] in IH.
  cbn [positions_from]. destruct (p v) eqn:Hp.
  - rewrite filter_cons_True by (by rewrite Hp).
    rewrite select_cons, IH.
    rewrite (list_getitem_Some _ _ v) by (by apply list_lookup_middle).
    reflexivity.
  - rewrite filter_cons_False by (rewrite Hp; exact id). exact IH.
Qed.

(** [[l[i] for i in idx]] over the positions that satisfy [p] is the
    sublist of the elements that satisfy [p], in order. *)
Lemma select_positions p l :
  select l (positions p l) = Ok (filter (λ v, Is_true (p v)) l).
Proof. apply (select_positions_from p [] l). Qed.

Lemma positions_from_bound p s l i :
  i ∈ positions_from p s l → s ≤ i < s + length l.
Proof.
  revert s. induction l as [|v l IH]; intros s; cbn [positions_from length].
  - intros H. by apply not_elem_of_nil in H.
  - destruct (p v).
    + intros [->|H]%elem_of_cons; [lia|]. apply IH in H. lia.
    + intros H. apply IH in H. lia.
Qed.

Lemma positions_bound p l i : i ∈ positions p l → i < length l.
Proof. intros H. apply positions_from_bound in H. lia. Qed.

(** Fancy indexing fails with [IndexError] or not at all. *)
Lemma select_cases l (idx : list nat) :
  (∃ r, select l idx = Ok r) ∨ select l idx = Raise IndexError.
Proof.
  induction idx as [|i idx IH]; [left; by eexists|].
  rewrite select_cons. destruct (l !! i) as [v|] eqn:Hi.
  - rewrite (list_getitem_Some _ _ v) by done.
    destruct IH as [[r ->]| ->]; [left; eexists; reflexivity|right; reflexivity].
  - rewrite list_getitem_None by done. right; reflexivity.
Qed.

Lemma select_in_range l (idx : list nat) :
  (∀ i, i ∈ idx → i < length l) →
  ∃ r, select l idx = Ok r ∧ length r = length idx.
Proof.
  induction idx as [|i idx IH]; intros Hidx; [by eexists|].
  destruct IH as (r & Hr & Hlen); [intros j Hj; apply Hidx; by right|].
  destruct (lookup_lt_is_Some_2 l i) as [v Hv]; [apply Hidx; by left|].
  exists (v :: r). rewrite select_cons, Hr, (list_getitem_Some _ _ v) by done.
  split; [reflexivity|]. cbn. by rewrite Hlen.
Qed.

End ListFacts.

Lemma filter_contains (keep l : list string) :
  filter (λ v, Is_true (contains keep v)) l = filter (λ v, v ∈ keep) l.
Proof. apply list_filter_iff. intros v. unfold contains. apply bool_decide_spec. Qed.


(** ** Dataset *)

Section DatasetFacts.
Context {X : Type}.
Implicit Types (self : Dataset X) (keep : list string).

(** The first assignment of [remove_instances] is the last one to the
    names. *)
Lemma remove_instances_names_filter keep self :
  _names (remove_instances keep self).2 = filter (λ n, n ∈ keep) (_names self).
Proof.
  rewrite <- filter_contains.
  unfold remove_instances, _reset_speaker_group_indices, _reset_male_female_indices.
  run_meth. rewrite select_positions.
  split_outcomes.
Qed.

(** C5. After [remove_instances(keep)], however the call ends, the names
    are the names that were in [keep], in the order they had. *)
Theorem remove_instances_names keep self :
  _names (remove_instances keep self).2 = filter (λ n, n ∈ keep) (_names self).
Proof. apply remove_instances_names_filter. Qed.

(** [remove_instances] assigns no new value to [_speaker_counts]. *)
Lemma remove_instances_speaker_counts keep self :
  _speaker_counts (remove_instances keep self).2 = _speaker_counts self.
Proof.
  unfold remove_instances, _reset_speaker_group_indices, _reset_male_female_indices.
  run_meth. split_outcomes.
Qed.

(** Hence the counts drift: when they added up to the number of instances
    before a call that drops an instance, they no longer do after it. *)
Lemma remove_instances_counts_drift keep self counts n :
  _speaker_counts self = Some counts →
  np_sum counts = n_instances self →
  n ∈ _names self → n ∉ keep →
  _speaker_counts (remove_instances keep self).2 = Some counts ∧
  n_instances (remove_instances keep self).2 < np_sum counts.
Proof.
  intros Hcounts Hsum Hn Hkeep.
  rewrite remove_instances_speaker_counts. split; [done|].
  unfold n_instances in *. rewrite remove_instances_names_filter, Hsum.
  by eapply length_filter_lt.
Qed.

End DatasetFacts.

Section DatasetRaises.
Context {X : Type}.
Implicit Types (self : Dataset X) (keep : list string).

Lemma np_getitem_list_cases (a : ndarray) idx :
  (∃ r, select (data a) idx = Ok r ∧ np_getitem_list a idx = Ok (mk_ndarray (dt a) r))
  ∨ np_getitem_list a idx = Raise IndexError.
Proof.
  unfold np_getitem_list.
  destruct (select_cases (data a) idx) as [[r Hr]|Hr]; rewrite Hr.
  - left. by eexists.
  - by right.
Qed.

Lemma np_getitem_list_in_range (a : ndarray) idx :
  (∀ i, i ∈ idx → i < np_len a) →
  ∃ r, np_getitem_list a idx = Ok (mk_ndarray (dt a) r) ∧ length r = length idx.
Proof.
  intros H. destruct (select_in_range (data a) idx H) as (r & Hr & Hlen).
  exists r. unfold np_getitem_list. by rewrite Hr.
Qed.

Lemma spans_all_speakers_inv keep self :
  spans_all_speakers keep self = true →
  ∃ kept, np_getitem_list (_speaker_indices self)
            (positions (contains keep) (_names self)) = Ok kept ∧
          ¬ np_len (np_unique kept) < length (_speakers self).
Proof.
  unfold spans_all_speakers, kept_speaker_indices.
  destruct (np_getitem_list _ _) as [kept| |]; [|done..].
  intros H%Nat.leb_le. exists kept. split; [done|lia].
Qed.

(** The second branch of [remove_instances] never completes. *)
Lemma remove_instances_spanning_raises keep self :
  spans_all_speakers keep self = true →
  ∃ e, (remove_instances keep self).1 = Raise e.
Proof.
  intros (kept & Hkept & Hlen)%spans_all_speakers_inv.
  unfold remove_instances. run_meth. rewrite select_positions, Hkept.
  rewrite bool_decide_eq_false_2 by done.
  destruct (select_cases (_x self) (positions (contains keep) (_names self)))
    as [[x' ->]| ->]; [|by eexists].
  destruct (np_getitem_list_cases (_speaker_group_indices self)
              (positions (contains keep) (_names self)))
    as [(g & _ & ->)| ->]; [|by eexists].
  cbn. destruct (_male_indices self); by eexists.
Qed.

Lemma remove_instances_spanning_unset keep self :
  spans_all_speakers keep self = true →
  names_covered self = true →
  _male_indices self = None →
  (remove_instances keep self).1 = Raise (AttributeError "_male_indices").
Proof.
  intros (kept & Hkept & Hlen)%spans_all_speakers_inv Hcov Hunset.
  unfold names_covered in Hcov.
  apply andb_prop in Hcov as [[Hx _]%andb_prop Hg].
  apply Nat.leb_le in Hx, Hg.
  unfold remove_instances. run_meth. rewrite select_positions, Hkept.
  rewrite bool_decide_eq_false_2 by done.
  destruct (select_in_range (_x self) (positions (contains keep) (_names self)))
    as (x' & -> & _).
  { intros i Hi%positions_bound. lia. }
  destruct (np_getitem_list_in_range (_speaker_group_indices self)
              (positions (contains keep) (_names self)))
    as (g & -> & _).
  { intros i Hi%positions_bound. lia. }
  cbn. by rewrite Hunset.
Qed.

(** C9. On a dataset whose male and female speaker lists are not both
    configured, a call of [remove_instances] whose kept instances still span
    all current speakers raises an exception; when the index attributes were
    never initialised and every name has its rows, it is the
    [AttributeError] of the read of [_male_indices]. *)
Theorem remove_instances_unconfigured_raises keep self :
  gender_configured self = false →
  spans_all_speakers keep self = true →
  ∃ e, (remove_instances keep self).1 = Raise e ∧
       (names_covered self = true → _male_indices self = None →
        e = AttributeError "_male_indices").
Proof.
  intros _ Hspan.
  destruct (remove_instances_spanning_raises keep self Hspan) as [e He].
  exists e. split; [done|]. intros Hcov Hunset.
  rewrite (remove_instances_spanning_unset keep self) in He by done.
  congruence.
Qed.

Section InitFacts.
Variable load_backend : backend_cls → Path → outcome (Backend X).
Variable corpora : gmap string CorpusInfo.
Variable lower : string → string.

(** A constructed dataset has the two index attributes exactly when both
    speaker lists are configured. *)
Lemma Dataset_init_gender_indices path annot self :
  Dataset_init load_backend corpora lower path annot = Ok self →
  if gender_configured self
  then is_Some (_male_indices self) ∧ is_Some (_female_indices self)
  else _male_indices self = None ∧ _female_indices self = None.
Proof.
  unfold Dataset_init, gender_configured, male_female_indices.
  intros H. unfold mbind, outcome_bind in H.
  repeat (case_match; simplify_eq/=; try done).
  all: split; by eexists.
Qed.

(** C6, as the code has it. Constructing a [Dataset] from a path whose
    suffix has no registered adapter raises [NotImplementedError] with the
    message [Unknown filetype '<suffix>'.], whatever the adapters would do
    and whether or not a speaker annotation is given. *)
Theorem Dataset_init_unknown_suffix path annot :
  _BACKENDS !! suffix path = None →
  Dataset_init load_backend corpora lower path annot
  = Raise (NotImplementedError ("Unknown filetype '" +:+ suffix path +:+ "'.")).
Proof.
  intros H. unfold Dataset_init, open_backend. by rewrite H.
Qed.

End InitFacts.

End DatasetRaises.

(** C1, at a failing input. The dataset over the file of A has one instance
    for each of its two speakers; [remove_instances] keeping [a1] completes
    and leaves one instance and one speaker, and [speaker_counts] is still the
    array [[1, 1]] of before the call: its sum is 2, not 1. *)
Theorem remove_instances_stale_speaker_counts :
  ∃ self after,
    Scenario.plain_A = Ok self ∧
    remove_instances ["a1"] self = (Ok tt, after) ∧
    n_instances after = 1 ∧
    _speakers after = ["X"] ∧
    _speaker_indices after = mk_ndarray int64 [0] ∧
    _speaker_counts after = Some (mk_ndarray int64 [1; 1]) ∧
    _speaker_counts after = _speaker_counts self ∧
    (∀ counts, _speaker_counts after = Some counts → np_sum counts ≠ n_instances after).
Proof.
  eexists _, _. split; [vm_compute; reflexivity|].
  split; [vm_compute; reflexivity|].
  repeat split.
  intros counts [= <-]. vm_compute. lia.
Qed.

(** C6, as the specification names the error: the exception raised for the
    unregistered suffix [.csv] is not of a class [UnsupportedFormatError]. *)
Lemma Dataset_init_not_UnsupportedFormatError :
  _BACKENDS !! suffix Scenario.path_csv = None ∧
  ¬ ∃ e, Dataset_init Scenario.load Scenario.registry Scenario.lower Scenario.path_csv None
         = Raise e ∧
         exn_class e = "UnsupportedFormatError".
Proof.
  split; [by vm_compute|].
  intros (e & He & Hcls). vm_compute in He. by simplify_eq.
Qed.

Lemma Dataset_init_unknown_suffix_witness :
  Dataset_init Scenario.load Scenario.registry Scenario.lower Scenario.path_csv None
  = Raise (NotImplementedError "Unknown filetype '.csv'.").
Proof.
  apply (Dataset_init_unknown_suffix Scenario.load Scenario.registry Scenario.lower
           Scenario.path_csv None).
  vm_compute. reflexivity.
Defined.

Lemma remove_instances_unconfigured_raises_witness :
  (remove_instances ["a1"; "a2"] (base Scenario.object_A)).1
  = Raise (AttributeError "_male_indices").
Proof.
  destruct (remove_instances_unconfigured_raises ["a1"; "a2"]
              (base Scenario.object_A)) as (e & He & Hunset).
  - vm_compute. reflexivity.
  - vm_compute. reflexivity.
  - rewrite He. f_equal. apply Hunset.
    + vm_compute. reflexivity.
    + vm_compute. reflexivity.
Defined.

(** ** Sorting, searching and counting *)

Section SortedSet.
Context {A : Type} (cmp : A → A → comparison).
Hypothesis cmp_eq : ∀ a b, cmp a b = Eq → a = b.
Hypothesis cmp_refl : ∀ a, cmp a a = Eq.
Hypothesis cmp_gt : ∀ a b, cmp a b = Gt → cmp b a = Lt.
Hypothesis cmp_trans : ∀ a b c, cmp a b = Lt → cmp b c = Lt → cmp a c = Lt.
Implicit Types (l : list A).

Lemma increasing_cons a b l :
  increasing cmp (a :: b :: l) = true ↔ cmp a b = Lt ∧ increasing cmp (b :: l) = true.
Proof.
  cbn [increasing]. destruct (cmp a b); split; try done; by intros [? ?].
Qed.

Lemma increasing_tail a l : increasing cmp (a :: l) = true → increasing cmp l = true.
Proof. destruct l as [|b l]; [done|]. by intros [_ ?]%increasing_cons. Qed.

Lemma increasing_insert_uniq v l :
  increasing cmp l = true → increasing cmp (insert_uniq cmp v l) = true.
Proof.
  induction l as [|a l IH]; [done|]. intros Hl.
  cbn [insert_uniq]. destruct (cmp v a) eqn:Hva; [done| |].
  - by apply increasing_cons.
  - specialize (IH (increasing_tail _ _ Hl)).
    destruct l as [|b l]; cbn [insert_uniq] in *.
    + apply increasing_cons. auto.
    + apply increasing_cons in Hl as [Hab Hl].
      destruct (cmp v b); apply increasing_cons; auto.
Qed.

Lemma increasing_sorted_set l : increasing cmp (sorted_set cmp l) = true.
Proof.
  induction l as [|a l IH]; [done|]. by apply increasing_insert_uniq.
Qed.

(** An increasing list is its own sorted set. *)
Lemma sorted_set_increasing l : increasing cmp l = true → sorted_set cmp l = l.
Proof.
  induction l as [|a l IH]; [done|]. intros Hl.
  cbn [sorted_set foldr]. fold (sorted_set cmp l).
  rewrite IH by by eapply increasing_tail.
  destruct l as [|b l]; [done|].
  apply increasing_cons in Hl as [Hab _]. cbn [insert_uniq]. by rewrite Hab.
Qed.

Lemma elem_of_insert_uniq x v l : x ∈ insert_uniq cmp v l ↔ x = v ∨ x ∈ l.
Proof.
  induction l as [|a l IH]; cbn [insert_uniq].
  - by rewrite elem_of_cons.
  - destruct (cmp v a) eqn:Hva.
    + apply cmp_eq in Hva as ->. rewrite elem_of_cons. tauto.
    + by rewrite elem_of_cons.
    + rewrite !elem_of_cons, IH. tauto.
Qed.

Lemma elem_of_sorted_set x l : x ∈ sorted_set cmp l ↔ x ∈ l.
Proof.
  induction l as [|a l IH]; [done|].
  cbn [sorted_set foldr]. fold (sorted_set cmp l).
  by rewrite elem_of_insert_uniq, IH, elem_of_cons.
Qed.

Lemma increasing_Forall a l :
  increasing cmp (a :: l) = true → Forall (λ b, cmp a b = Lt) l.
Proof.
  revert a. induction l as [|b l IH]; intros a Hl; [done|].
  apply increasing_cons in Hl as [Hab Hl]. constructor; [done|].
  eapply Forall_impl; [by apply IH|]. intros c Hbc. by eapply cmp_trans.
Qed.

Lemma increasing_NoDup l : increasing cmp l = true → NoDup l.
Proof.
  induction l as [|a l IH]; intros Hl; [constructor|].
  constructor; [|by eapply IH, increasing_tail].
  intros Ha. apply increasing_Forall in Hl.
  rewrite Forall_forall in Hl. specialize (Hl a Ha).
  by rewrite cmp_refl in Hl.
Qed.

End SortedSet.

Lemma ascii_compare_trans a b c :
  Ascii.compare a b = Lt → Ascii.compare b c = Lt → Ascii.compare a c = Lt.
Proof.
  unfold Ascii.compare. rewrite !N.compare_lt_iff. apply N.lt_trans.
Qed.

Lemma string_compare_trans a b c :
  String.compare a b = Lt → String.compare b c = Lt → String.compare a c = Lt.
Proof.
  revert b c. induction a as [|x a IH]; intros [|y b] [|z c]; cbn; try done.
  destruct (Ascii.compare x y) eqn:Hxy; [|by destruct (Ascii.compare y z) eqn:Hyz;
    [apply Ascii.compare_eq_iff in Hyz as <-; rewrite Hxy
    |rewrite (ascii_compare_trans x y z)|]|done].
  apply Ascii.compare_eq_iff in Hxy as <-.
  destruct (Ascii.compare x z); [apply IH|done..].
Qed.

Lemma string_compare_eq a b : String.compare a b = Eq → a = b.
Proof. apply String.compare_eq_iff. Qed.

Lemma string_compare_refl a : String.compare a a = Eq.
Proof.
  induction a as [|x a IH]; cbn; [done|].
  unfold Ascii.compare. by rewrite N.compare_refl.
Qed.

Lemma string_compare_gt a b : String.compare a b = Gt → String.compare b a = Lt.
Proof. rewrite (String.compare_antisym b a). by intros ->. Qed.

Lemma sorted_strs_increasing l : increasing String.compare (sorted_strs l) = true.
Proof. apply increasing_sorted_set, string_compare_gt. Qed.

Lemma sorted_strs_id l : increasing String.compare l = true → sorted_strs l = l.
Proof. apply sorted_set_increasing. Qed.

Lemma elem_of_sorted_strs x l : x ∈ sorted_strs l ↔ x ∈ l.
Proof. apply elem_of_sorted_set, string_compare_eq. Qed.

Lemma increasing_strs_NoDup l : increasing String.compare l = true → NoDup l.
Proof.
  apply increasing_NoDup; [apply string_compare_refl|apply string_compare_trans].
Qed.

Section IndexFacts.
Context {A : Type} `{EqDecision A}.
Implicit Types (l pre : list A) (v : A).

Lemma index_of_Some v l i :
  index_of v l = Some i → l !! i = Some v ∧ i < length l.
Proof.
  revert i. induction l as [|a l IH]; intros i; cbn [index_of]; [done|].
  case_decide as Ha.
  - intros [= <-]. subst. cbn. split; [done|lia].
  - destruct (index_of v l) as [j|]; [|done]. intros [= <-].
    destruct (IH j eq_refl). cbn. split; [done|lia].
Qed.

Lemma list_index_Some l v i : index_of v l = Some i → list_index l v = Ok i.
Proof. unfold list_index. by intros ->. Qed.

Lemma list_index_None l v : index_of v l = None → list_index l v = Raise ValueError.
Proof. unfold list_index. by intros ->. Qed.

Lemma index_of_elem v l : v ∈ l → is_Some (index_of v l).
Proof.
  induction l as [|a l IH]; [by intros ?%not_elem_of_nil|].
  cbn [index_of]. case_decide; [by eexists|].
  intros [->|Hv]%elem_of_cons; [done|].
  destruct (IH Hv) as [j ->]. by eexists.
Qed.

Lemma index_of_app_r v pre l :
  v ∉ pre → index_of v (pre ++ l) = (λ i, length pre + i) <$> index_of v l.
Proof.
  induction pre as [|a pre IH]; intros Hv.
  - cbn. by destruct (index_of v l).
  - apply not_elem_of_cons in Hv as [Hne Hv]. cbn [app index_of length].
    rewrite decide_False by done. rewrite IH by done.
    by destruct (index_of v l).
Qed.


Lemma traverse_list_index_elem l (vs : list A) :
  (∀ v, v ∈ vs → v ∈ l) →
  ∃ r, traverse (list_index l) vs = Ok r ∧ length r = length vs ∧
       Forall (λ i, i < length l) r.
Proof.
  induction vs as [|v vs IH]; intros Hin; [by exists []|].
  destruct IH as (r & Hr & Hlen & Hall); [intros w Hw; apply Hin; by right|].
  destruct (index_of_elem v l) as [i Hi]; [apply Hin; by left|].
  exists (i :: r). cbn [traverse].
  rewrite (list_index_Some _ _ _ Hi), Hr.
  split; [reflexivity|]. split; [cbn; by rewrite Hlen|].
  constructor; [by apply index_of_Some in Hi as [_ ?]|done].
Qed.

Lemma select_elem l idx (r : list A) v : select l idx = Ok r → v ∈ r → v ∈ l.
Proof.
  revert r. induction idx as [|i idx IH]; intros r.
  - intros [= <-] ?%not_elem_of_nil. done.
  - rewrite select_cons. unfold list_getitem.
    destruct (l !! i) as [w|] eqn:Hw; [|done]. cbn.
    destruct (select l idx) as [r'| |]; [|done..]. cbn.
    intros [= <-] [->|Hv]%elem_of_cons.
    + by eapply list_elem_of_lookup_2.
    + by eapply IH.
Qed.

End IndexFacts.

Lemma select_seq n (idx : list nat) :
  Forall (λ i, i < n) idx → select (seq 0 n) idx = Ok idx.
Proof.
  induction 1 as [|i idx Hi _ IH]; [done|].
  rewrite select_cons, IH, (list_getitem_Some _ _ i); [done|].
  by apply lookup_seq_lt.
Qed.

Lemma forallb_Forall_lt n (l : list nat) :
  forallb (λ v, v <? n) l = true → Forall (λ v, v < n) l.
Proof.
  rewrite forallb_forall, Forall_forall. intros H v Hv.
  apply Nat.ltb_lt, H. by apply list_elem_of_In.
Qed.

(** An entry of [np.bincount] below [minlength] counts the occurrences of
    its position: zero for a value that does not occur. *)
Lemma bincount_data_lookup (l : list nat) minlength i :
  i < minlength → bincount_data l minlength !! i = Some (count i l).
Proof.
  intros Hi. unfold bincount_data.
  rewrite list_lookup_fmap, lookup_seq_lt; [done|]. lia.
Qed.

Lemma count_absent i (l : list nat) : i ∉ l → count i l = 0.
Proof.
  intros Hi. unfold count. induction l as [|v l IH]; [done|].
  apply not_elem_of_cons in Hi as [Hne Hi].
  rewrite filter_cons_False by done. by apply IH.
Qed.

(** ** LabelledDataset *)


Lemma np_bincount_cases (a : ndarray) minlength :
  (dt a = int64 ∧
   np_bincount a minlength = Ok (mk_ndarray int64 (bincount_data (data a) minlength)))
  ∨ (dt a = float64 ∧ np_bincount a minlength = Raise TypeError).
Proof. unfold np_bincount. destruct (dt a); [by left|by right]. Qed.


Section LabelledFacts.
Context {X : Type}.
Implicit Types (self : LabelledDataset X) (keep : list string).

Lemma labels_valid_inv self :
  labels_valid self = true →
  dt (_y self) = int64 ∧ Forall (λ v, v < n_classes self) (data (_y self)).
Proof.
  intros [Hdt Hall]%andb_prop. apply bool_decide_eq_true in Hdt.
  split; [done|]. by apply forallb_Forall_lt.
Qed.


(** [remove_classes] assigns neither [_speakers] nor [_speaker_groups]. *)
Lemma remove_classes_frame keep self :
  _speakers (base (remove_classes keep self).2) = _speakers (base self) ∧
  _speaker_groups (base (remove_classes keep self).2) = _speaker_groups (base self).
Proof.
  unfold remove_classes. run_meth. split; split_outcomes.
Qed.

(** C10. Every call of [remove_classes] leaves the speaker list and the
    speaker groups as they were. On a dataset with valid labels, each with
    its name, feature row and integer speaker index, it sets the speaker
    group indices to the speaker indices and recomputes the speaker counts
    over the unchanged speaker list, so that a speaker without a remaining
    instance stays listed with count zero; the call returns normally when
    some instance has a class in [keep]. *)
Theorem remove_classes_speakers keep self :
  let after := (remove_classes keep self).2 in
  _speakers (base after) = _speakers (base self) ∧
  _speaker_groups (base after) = _speaker_groups (base self) ∧
  (labels_valid self = true →
   labels_covered self = true →
   _speaker_group_indices (base after) = _speaker_indices (base after) ∧
   (∃ counts, _speaker_counts (base after) = Some counts ∧
      ∀ i, i < length (_speakers (base after)) →
           data counts !! i = Some (count i (data (_speaker_indices (base after)))) ∧
           (i ∉ data (_speaker_indices (base after)) → data counts !! i = Some 0)) ∧
   (∀ labels c, str_labels_of self = Ok labels → c ∈ labels → c ∈ keep →
      (remove_classes keep self).1 = Ok tt)).
Proof.
  intros after.
  destruct (remove_classes_frame keep self) as [Hsp Hgr].
  split; [done|]. split; [done|]. subst after.
  intros [Hdt Hall]%labels_valid_inv Hcov.
  unfold labels_covered in Hcov.
  apply andb_prop in Hcov as [[[Hn Hx]%andb_prop Hs]%andb_prop Hsi].
  apply Nat.leb_le in Hn, Hx, Hs. apply bool_decide_eq_true in Hsi.
  unfold np_len in *.
  destruct (select_in_range (_classes self) (data (_y self))) as (labels & Hlabels & Hlen).
  { intros i Hi. rewrite Forall_forall in Hall. by apply Hall. }
  set (keep_idx := positions (contains keep) labels).
  assert (Hidx : ∀ i, i ∈ keep_idx → i < length (data (_y self))).
  { intros i Hi%positions_bound. lia. }
  destruct (select_in_range (_x (base self)) keep_idx) as (x' & Hx' & _).
  { intros i Hi%Hidx. lia. }
  destruct (select_in_range (_names (base self)) keep_idx) as (names' & Hnames' & _).
  { intros i Hi%Hidx. lia. }
  destruct (np_getitem_list_in_range (_speaker_indices (base self)) keep_idx)
    as (si & Hsi' & _).
  { intros i Hi%Hidx. unfold np_len. lia. }
  destruct (traverse_list_index_elem
              (sorted_strs (filter (λ c, c ∈ keep) (_classes self)))
              (filter (λ c, c ∈ keep) labels)) as (y' & Hy' & Hylen & _).
  { intros v [Hk Hv]%list_elem_of_filter.
    apply elem_of_sorted_strs, list_elem_of_filter. split; [done|].
    by eapply select_elem. }
  unfold remove_classes, str_labels_of. run_meth.
  fold (select (_classes self) (data (_y self))).
  rewrite Hlabels. fold keep_idx. rewrite Hx', Hnames', Hsi'.
  unfold np_bincount at 1. cbn [dt]. rewrite Hsi.
  rewrite Hy'.
  assert (Hcounts : ∀ i, i < length (_speakers (base self)) →
            bincount_data si (length (_speakers (base self))) !! i = Some (count i si) ∧
            (i ∉ si → bincount_data si (length (_speakers (base self))) !! i = Some 0)).
  { intros i Hi. rewrite bincount_data_lookup by done. split; [done|].
    intros Hout. by rewrite count_absent. }
  destruct (np_bincount_cases (np_array y') 0) as [[Hint ->]|[Hfl ->]];
    cbn -[count bincount_data].
  - split; [done|]. split; [by eexists|done].
  - split; [done|]. split; [by eexists|].
    intros ? c [= <-] Hc Hk. exfalso.
    assert (Hin : c ∈ filter (λ c, c ∈ keep) labels) by by apply list_elem_of_filter.
    destruct y' as [|? ?]; [|done].
    destruct (filter (λ c, c ∈ keep) labels); [by apply not_elem_of_nil in Hin|done].
Qed.

(** The override of [remove_instances] filters the names when it gets to
    the call of the base method, as it does whenever it returns normally. *)
Lemma LabelledDataset_remove_instances_names keep self :
  (LabelledDataset_remove_instances keep self).1 = Ok tt →
  _names (base (LabelledDataset_remove_instances keep self).2)
  = filter (λ n, n ∈ keep) (_names (base self)).
Proof.
  unfold LabelledDataset_remove_instances, on_base. run_meth.
  repeat (case_match; simplify_eq/=; try done).
  all: intros _; apply remove_instances_names_filter.
Qed.

Section LabelledInitFacts.
Variable load_backend : backend_cls → Path → outcome (Backend X).
Variable corpora : gmap string CorpusInfo.
Variable lower : string → string.

Lemma traverse_list_index_bound (l vs : list string) r :
  traverse (list_index l) vs = Ok r →
  Forall (λ i, i < length l) r ∧ length r = length vs.
Proof.
  revert r. induction vs as [|v vs IH]; intros r.
  - intros [= <-]. by split.
  - cbn [traverse].
    destruct (index_of v l) as [i|] eqn:Hi;
      [rewrite (list_index_Some _ _ _ Hi)|by rewrite (list_index_None _ _ Hi)].
    destruct (traverse (list_index l) vs) as [r'| |]; cbn; [|done..].
    intros [= <-]. destruct (IH r' eq_refl) as [Hall Hlen].
    split; [|cbn; by rewrite Hlen].
    constructor; [by apply index_of_Some in Hi as [_ ?]|done].
Qed.

(** The constructor establishes the conditions of the data model on the
    class list, the labels and the class counts. *)
Lemma LabelledDataset_init_conditions path label_dict annot self :
  LabelledDataset_init load_backend corpora lower path label_dict annot = Ok self →
  classes_sorted self = true ∧ labels_valid self = true ∧
  class_counts_current self = true ∧ _classes self ≠ [].
Proof.
  unfold LabelledDataset_init. intros H.
  destruct (Dataset_init _ _ _ _ _) as [d| |]; [|done..]. cbn in H.
  destruct (traverse (dict_getitem label_dict) (_names d)) as [labels| |]; [|done..].
  cbn in H.
  destruct (traverse (list_index (sorted_strs labels)) labels) as [y| |] eqn:Hy;
    [|done..].
  cbn in H.
  destruct (np_bincount_cases (np_array y) 0) as [[Hint Hb]|[_ Hb]];
    rewrite Hb in H; [|done].
  cbn in H. injection H as <-.
  apply traverse_list_index_bound in Hy as [Hall Hlen].
  destruct y as [|i y]; [done|]. destruct labels as [|c labels]; [done|].
  unfold classes_sorted, labels_valid, class_counts_current, n_classes.
  cbn [_classes _y _class_counts].
  split; [apply sorted_strs_increasing|].
  split.
  { apply andb_true_intro. split; [done|].
    apply forallb_forall. intros v Hv%list_elem_of_In.
    rewrite Forall_forall in Hall. by apply Nat.ltb_lt, Hall. }
  split; [rewrite Hb; by apply bool_decide_eq_true|].
  intros Hnil.
  assert (Hc : c ∈ sorted_strs (c :: labels)) by (apply elem_of_sorted_strs; left).
  rewrite Hnil in Hc. by apply not_elem_of_nil in Hc.
Qed.

End LabelledInitFacts.

End LabelledFacts.



Lemma remove_classes_speakers_witness :
  let after := (remove_classes ["happy"] (labelled Scenario.object_AB)).2 in
  _speakers (base after) = ["A_X"; "A_Y"; "B_Z"] ∧
  _speaker_group_indices (base after) = mk_ndarray int64 [0; 2] ∧
  _speaker_indices (base after) = mk_ndarray int64 [0; 2] ∧
  _speaker_counts (base after) = Some (mk_ndarray int64 [1; 0; 1]) ∧
  (remove_classes ["happy"] (labelled Scenario.object_AB)).1 = Ok tt.
Proof.
  destruct (remove_classes_speakers ["happy"] (labelled Scenario.object_AB))
    as (Hsp & Hgr & Hrest).
  destruct Hrest as (Hgi & Hcounts & Hok).
  - vm_compute. reflexivity.
  - vm_compute. reflexivity.
  - intros after. split; [exact Hsp|].
    split; [vm_compute; reflexivity|].
    split; [vm_compute; reflexivity|].
    split; [vm_compute; reflexivity|].
    apply (Hok ["happy"; "sad"; "happy"] "happy").
    + vm_compute. reflexivity.
    + left.
    + left.
Defined.

(** ** CombinedDataset *)

Section PositionFacts.
Context {A : Type}.
Implicit Types (p : A → bool) (l : list A).

Lemma elem_of_positions_from p s l i :
  i ∈ positions_from p s l ↔ ∃ v, s ≤ i ∧ l !! (i - s) = Some v ∧ p v = true.
Proof.
  revert s. induction l as [|a l IH]; intros s; cbn [positions_from].
  - split; [by intros ?%not_elem_of_nil|by intros (v & _ & ? & _)].
  - assert (Hshift : (∃ v, S s ≤ i ∧ l !! (i - S s) = Some v ∧ p v = true)
                     ↔ (∃ v, s < i ∧ (a :: l) !! (i - s) = Some v ∧ p v = true)).
    { split; intros (v & Hle & Hv & Hp); exists v; (split; [lia|]); (split; [|done]).
      - replace (i - s) with (S (i - S s)) by lia. done.
      - replace (i - s) with (S (i - S s)) in Hv by lia. done. }
    destruct (p a) eqn:Hpa.
    + rewrite elem_of_cons, IH, Hshift. split.
      * intros [->|(v & Hlt & Hv & Hp)].
        -- exists a. rewrite Nat.sub_diag. by split.
        -- exists v. split; [lia|done].
      * intros (v & Hle & Hv & Hp). destruct (decide (i = s)) as [->|Hne]; [by left|].
        right. exists v. split; [lia|done].
    + rewrite IH, Hshift. split.
      * intros (v & Hlt & Hv & Hp). exists v. split; [lia|done].
      * intros (v & Hle & Hv & Hp). exists v. split; [|done].
        destruct (decide (i = s)) as [->|Hne]; [|lia].
        rewrite Nat.sub_diag in Hv. cbn in Hv. congruence.
Qed.

Lemma elem_of_positions p l i :
  i ∈ positions p l ↔ ∃ v, l !! i = Some v ∧ p v = true.
Proof.
  unfold positions. rewrite elem_of_positions_from. rewrite Nat.sub_0_r.
  split; [intros (v & _ & ?); by exists v|intros (v & ?); exists v; split; [lia|done]].
Qed.

Lemma NoDup_positions_from p s l : NoDup (positions_from p s l).
Proof.
  revert s. induction l as [|a l IH]; intros s; cbn [positions_from]; [constructor|].
  destruct (p a); [|done].
  constructor; [|done]. intros Hs%positions_from_bound. lia.
Qed.

Lemma length_positions_from p s l :
  length (positions_from p s l) = length (filter (λ v, Is_true (p v)) l).
Proof.
  revert s. induction l as [|a l IH]; intros s; [done|].
  cbn [positions_from]. destruct (p a) eqn:Hpa.
  - rewrite filter_cons_True by (by rewrite Hpa). cbn. by rewrite IH.
  - rewrite filter_cons_False by (rewrite Hpa; exact id). apply IH.
Qed.

(** Fewer positions than elements, when an element fails the test. *)
Lemma length_positions_lt p l v :
  v ∈ l → p v = false → length (positions p l) < length l.
Proof.
  intros Hv Hp. unfold positions. rewrite length_positions_from.
  eapply length_filter_lt; [done|]. rewrite Hp. exact id.
Qed.

Lemma select_length l (idx : list nat) r :
  select l idx = Ok r → length r = length idx.
Proof.
  revert r. induction idx as [|i idx IH]; intros r.
  - by intros [= <-].
  - rewrite select_cons. destruct (list_getitem l i) as [v| |]; cbn; [|done..].
    destruct (select l idx) as [r'| |]; cbn; [|done..].
    intros [= <-]. cbn. by rewrite (IH r').
Qed.

End PositionFacts.

Lemma length_repeat_arange_from i (sizes : list nat) :
  length (repeat_arange_from i sizes) = sum_list sizes.
Proof.
  revert i. induction sizes as [|n sizes IH]; intros i; [done|].
  cbn [repeat_arange_from]. rewrite length_app, length_replicate, IH. done.
Qed.

Section CombinedFacts.
Context {X : Type}.
Variable same_layout : list (list X) → bool.
Implicit Types (self : CombinedDataset X) (datasets : list (LabelledDataset X)).

Lemma merge_speakers datasets (acc : merged) :
  m_speakers (foldl merge_step acc datasets)
  = m_speakers acc ++
    (datasets ≫= (λ d, prefixed (_corpus (base d)) <$> _speakers (base d))).
Proof.
  revert acc. induction datasets as [|d datasets IH]; intros acc; cbn.
  - by rewrite app_nil_r.
  - rewrite IH. cbn. by rewrite <- (assoc_L (++)).
Qed.

(** What the constructor derives from the sources alone: every name and
    every speaker carries the corpus name of its source, and neither the
    names nor the corpus indices depend on the allow-list. *)
Lemma CombinedDataset_init_sources datasets labels self :
  CombinedDataset_init same_layout datasets labels = Ok self →
  _names (base (labelled self))
  = datasets ≫= (λ d, prefixed (_corpus (base d)) <$> _names (base d)) ∧
  _speakers (base (labelled self))
  = datasets ≫= (λ d, prefixed (_corpus (base d)) <$> _speakers (base d)) ∧
  _corpora self = (λ d, _corpus (base d)) <$> datasets ∧
  _corpus_indices self
  = np_repeat_arange ((λ d, length (_x (base d))) <$> datasets).
Proof.
  unfold CombinedDataset_init. intros H.
  unfold mbind at 1 2 3 4 5, outcome_bind in H.
  repeat (case_match; simplify_eq/=; try done).
  all: unfold mbind, outcome_bind in *;
    repeat (case_match; simplify_eq/=; try done).
  all: by rewrite merge_speakers.
Qed.

(** When every source has one feature row for each name, a fresh combination
    has one corpus index for each name. *)
Lemma CombinedDataset_init_corpus_indices datasets labels self :
  CombinedDataset_init same_layout datasets labels = Ok self →
  Forall (λ d, length (_x (base d)) = length (_names (base d))) datasets →
  np_len (_corpus_indices self) = n_instances (base (labelled self)).
Proof.
  intros (Hnames & _ & _ & Hci)%CombinedDataset_init_sources Hall.
  unfold n_instances, np_len. rewrite Hnames, Hci. cbn [np_repeat_arange data].
  rewrite length_repeat_arange_from.
  clear Hnames Hci. induction Hall as [|d datasets Hd _ IH]; [done|].
  cbn. rewrite length_app, length_fmap, <- IH, Hd. reflexivity.
Qed.

Lemma str_labels_length datasets per_source :
  traverse str_labels_of datasets = Ok per_source →
  length (concat per_source) = sum_list ((λ d, np_len (_y d)) <$> datasets).
Proof.
  revert per_source. induction datasets as [|d datasets IH]; intros per_source.
  - by intros [= <-].
  - cbn [traverse]. destruct (str_labels_of d) as [ls| |] eqn:Hls; cbn; [|done..].
    destruct (traverse str_labels_of datasets) as [per| |]; cbn; [|done..].
    intros [= <-]. cbn. rewrite length_app, (IH per) by done.
    apply select_length in Hls. unfold np_len. by rewrite Hls.
Qed.

(** The allow-list branch in general: when the sources have one label for
    each name and some instance has a class outside the allow-list, a
    combination that is built has fewer speaker indices than names. *)
Lemma CombinedDataset_init_allow_list_shrinks datasets labels self per_source c :
  CombinedDataset_init same_layout datasets (Some labels) = Ok self →
  Forall (λ d, np_len (_y d) = length (_names (base d))) datasets →
  traverse str_labels_of datasets = Ok per_source →
  c ∈ concat per_source → c ∉ labels →
  np_len (_speaker_indices (base (labelled self)))
  < n_instances (base (labelled self)).
Proof.
  intros Hinit Hall Hper Hc Hout.
  assert (Hnames : n_instances (base (labelled self)) = length (concat per_source)).
  { apply CombinedDataset_init_sources in Hinit as (Hn & _).
    unfold n_instances. rewrite Hn, (str_labels_length _ _ Hper). clear Hper Hc Hn.
    induction Hall as [|d datasets Hd _ IH]; [done|].
    cbn. rewrite length_app, length_fmap, IH, Hd. reflexivity. }
  rewrite Hnames. clear Hnames.
  assert (Hall_labels : c ∈ datasets ≫= _classes).
  { clear Hinit Hall Hout. revert per_source Hper Hc.
    induction datasets as [|d datasets IH]; intros per_source.
    - intros [= <-] ?%not_elem_of_nil. done.
    - cbn [traverse]. destruct (str_labels_of d) as [ls| |] eqn:Hls; cbn; [|done..].
      destruct (traverse str_labels_of datasets) as [per| |]; cbn; [|done..].
      intros [= <-]. cbn. rewrite !elem_of_app. intros [Hc|Hc].
      + left. by eapply select_elem.
      + right. by eapply IH. }
  unfold CombinedDataset_init in Hinit. rewrite Hper in Hinit.
  unfold mbind at 1 2 3 4 5, outcome_bind in Hinit.
  repeat (case_match; simplify_eq/=; try done).
  all: unfold mbind, outcome_bind in *;
    repeat (case_match; simplify_eq/=; try done).
  all: match goal with
       | H : np_getitem_list _ _ = Ok _ |- _ =>
           unfold np_getitem_list in H;
           destruct (select _ _) as [r| |] eqn:Hsel in H; cbn in H; [|done..];
           injection H as <-; apply select_length in Hsel
       end.
  all: unfold np_len; cbn [data]; rewrite Hsel.
  all: eapply length_positions_lt; [done|].
  all: apply negb_false_iff, bool_decide_eq_true, list_elem_of_filter; by split.
Qed.

Lemma get_corpus_split_spec self corpus :
  contains (_corpora self) corpus = true →
  ∃ k in_corpus other,
    corpus_to_idx self corpus = Ok k ∧
    _corpora self !! k = Some corpus ∧
    get_corpus_split self corpus = Ok (in_corpus, other) ∧
    (∀ i, i ∈ in_corpus ↔ data (_corpus_indices self) !! i = Some k) ∧
    (∀ i, i ∈ in_corpus → i ∉ other) ∧
    (∀ i, i < np_len (_corpus_indices self) ↔ i ∈ in_corpus ∨ i ∈ other) ∧
    NoDup in_corpus ∧ NoDup other ∧
    (np_len (_corpus_indices self) = n_instances (base (labelled self)) →
     ∀ i, i < n_instances (base (labelled self)) ↔ i ∈ in_corpus ∨ i ∈ other).
Proof.
  intros Hin. unfold contains in Hin. apply bool_decide_eq_true in Hin.
  destruct (index_of_elem corpus (_corpora self) Hin) as [k Hk].
  exists k, (np_nonzero (np_eq (_corpus_indices self) k)),
    (np_nonzero (negb <$> np_eq (_corpus_indices self) k)).
  assert (Hidx : corpus_to_idx self corpus = Ok k)
    by (by apply list_index_Some).
  assert (Hyes : ∀ i, i ∈ np_nonzero (np_eq (_corpus_indices self) k)
                      ↔ data (_corpus_indices self) !! i = Some k).
  { intros i. unfold np_nonzero, np_eq. rewrite elem_of_positions.
    setoid_rewrite list_lookup_fmap. split.
    - intros (b & Hb & Hid). destruct (data _ !! i) as [v|]; [|done].
      cbn in Hb. injection Hb as <-. cbn in Hid. by apply bool_decide_eq_true in Hid as ->.
    - intros ->. exists true. cbn. by rewrite bool_decide_eq_true_2. }
  assert (Hno : ∀ i, i ∈ np_nonzero (negb <$> np_eq (_corpus_indices self) k)
                     ↔ ∃ v, data (_corpus_indices self) !! i = Some v ∧ v ≠ k).
  { intros i. unfold np_nonzero, np_eq. rewrite elem_of_positions.
    setoid_rewrite list_lookup_fmap. setoid_rewrite list_lookup_fmap. split.
    - intros (b & Hb & Hid). destruct (data _ !! i) as [v|]; [|done].
      exists v. split; [done|]. cbn in Hb. injection Hb as <-. cbn in Hid.
      by apply negb_true_iff, bool_decide_eq_false in Hid.
    - intros (v & -> & Hne). exists true. cbn. by rewrite bool_decide_eq_false_2. }
  assert (Hcover : ∀ i, i < np_len (_corpus_indices self)
                        ↔ i ∈ np_nonzero (np_eq (_corpus_indices self) k)
                          ∨ i ∈ np_nonzero (negb <$> np_eq (_corpus_indices self) k)).
  { intros i. unfold np_len. rewrite Hyes, Hno. split.
    - intros [v Hv]%lookup_lt_is_Some_2. destruct (decide (v = k)) as [->|Hne].
      + by left.
      + right. by exists v.
    - intros [Hi|(v & Hi & _)]; by eapply lookup_lt_Some. }
  split; [done|]. split; [by apply index_of_Some in Hk as [? _]|].
  split; [unfold get_corpus_split; by rewrite Hidx|].
  split; [done|].
  split; [intros i Hi%Hyes (v & Hv & Hne)%Hno; congruence|].
  split; [done|].
  split; [apply NoDup_positions_from|]. split; [apply NoDup_positions_from|].
  intros <-. done.
Qed.

End CombinedFacts.

(** C3. Scenario A: the two sources are built from their files and
    annotations, and their combination without an allow-list has three
    instances, the classes happy and sad, the corpus indices [[0, 0, 1]], and
    speakers and instance names prefixed by the corpus name of their source. *)
Theorem combined_scenario_A :
  ∃ a b c,
    Scenario.dataset_A = Ok a ∧ Scenario.dataset_B = Ok b ∧
    _names (base a) = ["a1"; "a2"] ∧ _speakers (base a) = ["X"; "Y"] ∧
    str_labels_of a = Ok ["happy"; "sad"] ∧
    _names (base b) = ["b1"] ∧ _speakers (base b) = ["Z"] ∧
    str_labels_of b = Ok ["happy"] ∧
    CombinedDataset_init Scenario.same_layout [a; b] None = Ok c ∧
    Scenario.combined None = Ok c ∧
    n_instances (base (labelled c)) = 3 ∧
    _classes (labelled c) = ["happy"; "sad"] ∧
    _corpus_indices c = mk_ndarray int64 [0; 0; 1] ∧
    _speakers (base (labelled c)) = ["A_X"; "A_Y"; "B_Z"] ∧
    _names (base (labelled c)) = ["A_a1"; "A_a2"; "B_b1"] ∧
    _speakers (base (labelled c))
    = [a; b] ≫= (λ d, prefixed (_corpus (base d)) <$> _speakers (base d)) ∧
    _names (base (labelled c))
    = [a; b] ≫= (λ d, prefixed (_corpus (base d)) <$> _names (base d)).
Proof.
  exists Scenario.object_A.
  eexists. exists Scenario.object_AB.
  split; [vm_compute; reflexivity|].
  split; [vm_compute; reflexivity|].
  repeat (split; [vm_compute; reflexivity|]).
  vm_compute; reflexivity.
Qed.

(** C2, at a failing input. Scenario A combined with the allow-list
    [["happy"]]: the instance of class sad leaves the feature rows, the
    speaker indices and the labels, which have two entries, and stays in the
    names and the corpus indices, which have three. *)
Theorem combined_allow_list_keeps_names :
  ∃ c,
    Scenario.combined (Some ["happy"]) = Ok c ∧
    _classes (labelled c) = ["happy"] ∧
    _y (labelled c) = mk_ndarray int64 [0; 0] ∧
    _x (base (labelled c)) = [10; 30] ∧
    _speaker_indices (base (labelled c)) = mk_ndarray int64 [0; 2] ∧
    _names (base (labelled c)) = ["A_a1"; "A_a2"; "B_b1"] ∧
    _corpus_indices c = mk_ndarray int64 [0; 0; 1] ∧
    np_len (_speaker_indices (base (labelled c))) = 2 ∧
    n_instances (base (labelled c)) = 3.
Proof.
  eexists. split; [vm_compute; reflexivity|]. repeat split.
Qed.


(** * Further properties *)

(** ** Restore and flatten *)

Section RaggedMore.
Context {A : Type}.
Implicit Types (a : list (array2 A)) (flat : array2 A) (slices : list nat).

Lemma sections_cons st en rest flat :
  sections (st :: en :: rest) flat
  = mk_array2 (shape1 flat) (slice st en (rows flat)) :: sections (en :: rest) flat.
Proof. reflexivity. Qed.

Lemma sections_cumsum_from acc slices flat :
  acc + sum_list slices ≤ shape0 flat →
  let pieces := sections (acc :: cumsum_from acc slices) flat in
  shape0 <$> pieces = slices ∧
  concat (rows <$> pieces) = take (sum_list slices) (drop acc (rows flat)) ∧
  Forall (λ b, shape1 b = shape1 flat) pieces.
Proof.
  revert acc. induction slices as [|n slices IH]; intros acc Hle pieces.
  - subst pieces. cbn. by rewrite take_0.
  - subst pieces. cbn [cumsum_from]. rewrite sections_cons.
    cbn in Hle. unfold shape0 in Hle.
    destruct (IH (acc + n)) as (Hs & Hc & Hall); [unfold shape0; lia|].
    rewrite !fmap_cons. cbn [concat rows shape0 shape1].
    split; [|split].
    + f_equal; [|exact Hs]. unfold shape0, slice. cbn [rows].
      rewrite length_take, length_drop. lia.
    + rewrite Hc. unfold slice.
      replace (acc + n - acc) with n by lia.
      rewrite <- (drop_drop (rows flat) n acc).
      cbn [sum_list sum_list_with]. apply take_take_drop.
    + constructor; [done|exact Hall].
Qed.

Lemma make_ragged_sections slices flat :
  slices ≠ [] → sum_list slices = shape0 flat →
  _make_ragged flat slices = sections (0 :: cumsum_from 0 slices) flat.
Proof.
  intros Hne Hsum. unfold _make_ragged, np_split, np_cumsum.
  rewrite <- Hsum. change (sum_list slices) with (0 + sum_list slices) at 1.
  by rewrite cumsum_from_last.
Qed.

(** X1. Restoring and then flattening: when the recorded lengths are not
    empty and add up to the rows of the flat array, [_make_ragged] cuts it
    into one piece for each length, of that length, and [_make_flat] of the
    pieces gives the flat array and the lengths back. *)
Theorem make_ragged_make_flat flat slices :
  slices ≠ [] →
  sum_list slices = shape0 flat →
  shape0 <$> _make_ragged flat slices = slices ∧
  _make_flat (_make_ragged flat slices) = Ok (flat, slices).
Proof.
  intros Hne Hsum. rewrite make_ragged_sections by done.
  destruct (sections_cumsum_from 0 slices flat) as (Hs & Hc & Hall); [lia|].
  split; [exact Hs|].
  unfold _make_flat. rewrite Hs.
  destruct (sections (0 :: cumsum_from 0 slices) flat) as [|p ps] eqn:Hp.
  { destruct slices; done. }
  unfold np_concatenate2.
  apply Forall_cons in Hall as [Hp1 Hps].
  replace (forallb (λ b, shape1 b =? shape1 p) ps) with true; cycle 1.
  { symmetry. apply forallb_forall. intros b Hb%list_elem_of_In.
    rewrite Forall_forall in Hps. apply Nat.eqb_eq. rewrite Hp1. by apply Hps. }
  cbn [mbind outcome_bind]. rewrite Hc, Hp1, drop_0.
  rewrite take_ge by (unfold shape0 in Hsum; lia).
  by destruct flat.
Qed.

Lemma np_concatenate2_cases a :
  match a with
  | [] => np_concatenate2 a = Raise ValueError
  | a0 :: rest =>
      if forallb (λ b, shape1 b =? shape1 a0) rest
      then ∃ flat, np_concatenate2 a = Ok flat
      else np_concatenate2 a = Raise ValueError
  end.
Proof.
  destruct a as [|a0 rest]; [done|]. unfold np_concatenate2.
  destruct (forallb _ rest); [by eexists|done].
Qed.

(** X2. [_make_flat] raises [ValueError] exactly when the list is empty or
    two of its arrays disagree on the feature dimension. *)
Theorem make_flat_ValueError a :
  _make_flat a = Raise ValueError
  ↔ a = [] ∨ ∃ b c, b ∈ a ∧ c ∈ a ∧ shape1 b ≠ shape1 c.
Proof.
  unfold _make_flat. split.
  - destruct a as [|a0 rest]; [by left|]. intros H. right.
    unfold np_concatenate2 in H.
    destruct (forallb _ rest) eqn:Hall; [done|].
    apply not_true_iff_false in Hall.
    rewrite forallb_forall in Hall.
    destruct (decide (Forall (λ b, shape1 b = shape1 a0) rest)) as [Hf|Hf].
    { exfalso. apply Hall. intros b Hb%list_elem_of_In. apply Nat.eqb_eq.
      rewrite Forall_forall in Hf. by apply Hf. }
    apply not_Forall_Exists in Hf; [|apply _].
    apply Exists_exists in Hf as (b & Hb & Hne).
    exists b, a0. split; [by right|]. split; [by left|done].
  - intros [->|(b & c & Hb & Hc & Hne)]; [done|].
    destruct a as [|a0 rest]; [by apply not_elem_of_nil in Hb|].
    unfold np_concatenate2.
    destruct (forallb _ rest) eqn:Hall; [|done].
    exfalso. rewrite forallb_forall in Hall.
    assert (Heq : ∀ d, d ∈ a0 :: rest → shape1 d = shape1 a0).
    { intros d [->|Hd]%elem_of_cons; [done|].
      apply Nat.eqb_eq, Hall. by apply list_elem_of_In. }
    apply Hne. by rewrite (Heq b), (Heq c).
Qed.

Lemma length_sections div_points flat :
  length (sections div_points flat) = length div_points - 1.
Proof.
  induction div_points as [|st [|en rest] IH]; [done..|].
  rewrite sections_cons. cbn [length] in *. rewrite IH. lia.
Qed.

Lemma length_cumsum_from acc slices :
  length (cumsum_from acc slices) = length slices.
Proof.
  revert acc. induction slices as [|n slices IH]; intros acc; [done|].
  cbn. by rewrite IH.
Qed.

Lemma cumsum_from_app acc slices more :
  cumsum_from acc (slices ++ more)
  = cumsum_from acc slices ++ cumsum_from (acc + sum_list slices) more.
Proof.
  revert acc. induction slices as [|m slices IH]; intros acc; cbn.
  - by rewrite Nat.add_0_r.
  - rewrite IH. do 3 f_equal. lia.
Qed.

Lemma drop_last_snoc {B} (l : list B) x : drop_last (l ++ [x]) = l.
Proof.
  unfold drop_last. rewrite length_app. cbn [length].
  replace (length l + 1 - 1) with (length l) by lia. apply take_app_length.
Qed.

Lemma drop_last_cumsum_from acc slices n :
  drop_last (cumsum_from acc (slices ++ [n])) = cumsum_from acc slices.
Proof. rewrite cumsum_from_app. cbn [cumsum_from]. apply drop_last_snoc. Qed.

(** X3. [_make_ragged] never reads the last recorded length: the last piece
    is what remains of the flat array. It returns one piece for each length,
    and the whole array as one piece when there is no length. *)
Theorem make_ragged_last_length flat slices :
  length (_make_ragged flat slices) = length slices `max` 1 ∧
  _make_ragged flat [] = [flat] ∧
  ∀ n m, _make_ragged flat (slices ++ [n]) = _make_ragged flat (slices ++ [m]).
Proof.
  split; [|split].
  - unfold _make_ragged, np_split, np_cumsum, drop_last.
    rewrite length_sections. cbn [app length]. rewrite length_app. cbn [length].
    rewrite length_take, length_cumsum_from.
    lia.
  - unfold _make_ragged, np_split, np_cumsum, drop_last. cbn.
    unfold slice. rewrite Nat.sub_0_r, drop_0.
    rewrite take_ge by (unfold shape0; lia). by destruct flat.
  - intros n m. unfold _make_ragged, np_cumsum.
    by rewrite !drop_last_cumsum_from.
Qed.

End RaggedMore.

Lemma make_ragged_make_flat_witness :
  let flat := mk_array2 2 [[1; 2]; [3; 4]; [5; 6]] in
  shape0 <$> _make_ragged flat [2; 0; 1] = [2; 0; 1] ∧
  _make_flat (_make_ragged flat [2; 0; 1]) = Ok (flat, [2; 0; 1]).
Proof.
  intros flat. apply (make_ragged_make_flat flat [2; 0; 1]).
  - discriminate.
  - reflexivity.
Defined.

Lemma make_flat_ValueError_witness :
  _make_flat [mk_array2 2 [[1; 2]]; mk_array2 1 [[3]]] = Raise ValueError.
Proof.
  apply make_flat_ValueError. right.
  exists (mk_array2 2 [[1; 2]]), (mk_array2 1 [[3]]).
  split; [left|]. split; [right; left|]. cbn. lia.
Defined.

Lemma make_ragged_last_length_witness :
  let flat := mk_array2 2 [[1; 2]; [3; 4]; [5; 6]] in
  _make_ragged flat [2; 5] = _make_ragged flat [2; 1].
Proof.
  intros flat.
  destruct (make_ragged_last_length flat [2]) as (_ & _ & Hlast).
  apply (Hlast 5 1).
Defined.

(** ** Comprehensions, selections and tallies *)

Section TraverseFacts.
Context {A B : Type}.
Implicit Types (f : A → outcome B) (l : list A) (r : list B).

Lemma traverse_cons f a l :
  traverse f (a :: l) = b ← f a; bs ← traverse f l; Ok (b :: bs).
Proof. reflexivity. Qed.

(** A comprehension that completes has evaluated its body at every element. *)
Lemma traverse_Ok f l r :
  traverse f l = Ok r ↔ Forall2 (λ a b, f a = Ok b) l r.
Proof.
  revert r. induction l as [|a l IH]; intros r.
  - split; [intros [= <-]; constructor|by inversion 1].
  - rewrite traverse_cons. split.
    + destruct (f a) as [b| |] eqn:Hb; cbn; [|done..].
      destruct (traverse f l) as [bs| |]; cbn; [|done..].
      intros [= <-]. constructor; [done|]. by apply IH.
    + inversion 1 as [|? b ? bs Hb Hbs]; subst. rewrite Hb. cbn.
      apply IH in Hbs. by rewrite Hbs.
Qed.

Lemma traverse_length f l r : traverse f l = Ok r → length r = length l.
Proof. intros H%traverse_Ok. symmetry. by eapply Forall2_length. Qed.

Lemma traverse_app f l1 l2 r1 r2 :
  traverse f l1 = Ok r1 → traverse f l2 = Ok r2 →
  traverse f (l1 ++ l2) = Ok (r1 ++ r2).
Proof. rewrite !traverse_Ok. apply Forall2_app. Qed.

(** The first element at which the body raises decides the exception. *)
Lemma traverse_Raise f pre a rest e :
  (∀ x, x ∈ pre → ∃ b, f x = Ok b) → f a = Raise e →
  traverse f (pre ++ a :: rest) = Raise e.
Proof.
  intros Hpre Ha. induction pre as [|x pre IH]; cbn [app].
  - rewrite traverse_cons, Ha. done.
  - rewrite traverse_cons. destruct (Hpre x) as [b ->]; [by left|]. cbn.
    rewrite IH; [done|]. intros y Hy. apply Hpre. by right.
Qed.

End TraverseFacts.

Section SelectFacts.
Context {A : Type}.
Implicit Types (l k r : list A) (idx : list nat).

Lemma select_Ok l idx r :
  select l idx = Ok r ↔ Forall2 (λ i v, l !! i = Some v) idx r.
Proof.
  unfold select. rewrite traverse_Ok.
  split; intros H; (eapply Forall2_impl; [exact H|]).
  - intros i v. unfold list_getitem. by destruct (l !! i) as [w|]; intros [= <-].
  - intros i v. apply list_getitem_Some.
Qed.

Lemma select_lookup l idx r j i :
  select l idx = Ok r → idx !! j = Some i → r !! j = l !! i ∧ is_Some (l !! i).
Proof.
  intros H%select_Ok Hj.
  destruct (Forall2_lookup_l _ _ _ _ _ H Hj) as (v & Hv & Hl).
  rewrite Hv, Hl. split; [done|by eexists].
Qed.

Lemma select_app l idx1 idx2 r1 r2 :
  select l idx1 = Ok r1 → select l idx2 = Ok r2 →
  select l (idx1 ++ idx2) = Ok (r1 ++ r2).
Proof. apply traverse_app. Qed.

Lemma select_app_l l k idx r : select l idx = Ok r → select (l ++ k) idx = Ok r.
Proof.
  rewrite !select_Ok. intros H. eapply Forall2_impl; [exact H|]. intros i v Hv.
  cbn in Hv. rewrite lookup_app_l; [done|]. by apply (lookup_lt_Some _ _ _ Hv).
Qed.

(** Indices offset by the length of a prefix select behind the prefix. *)
Lemma select_offset pre l idx r :
  select l idx = Ok r → select (pre ++ l) ((λ v, v + length pre) <$> idx) = Ok r.
Proof.
  rewrite !select_Ok. intros H. apply Forall2_fmap_l.
  eapply Forall2_impl; [exact H|]. intros i v Hv. cbn in *.
  rewrite lookup_app_r by lia. by replace (i + length pre - length pre) with i by lia.
Qed.

Lemma select_all l : select l (seq 0 (length l)) = Ok l.
Proof.
  apply select_Ok. apply Forall2_same_length_lookup_2.
  - by rewrite length_seq.
  - intros j i v Hi Hv. apply lookup_seq in Hi as [-> _]. done.
Qed.

End SelectFacts.

Lemma select_fmap {A B} (f : A → B) (l : list A) idx r :
  select l idx = Ok r → select (f <$> l) idx = Ok (f <$> r).
Proof.
  rewrite !select_Ok. intros H. apply Forall2_fmap_r.
  eapply Forall2_impl; [exact H|]. intros i v Hv. cbn in *.
  by rewrite list_lookup_fmap, Hv.
Qed.


(** Selecting through an index table: the table composes with the list it
    indexes. *)
Lemma select_compose {A} (l : list A) (table : list nat) k idx idx' :
  select l table = Ok k → select table idx = Ok idx' →
  select l idx' = select k idx.
Proof.
  rewrite (select_Ok l table), (select_Ok table idx). intros Hk Hidx.
  assert (Hlen : length k = length table) by (symmetry; by eapply Forall2_length).
  induction Hidx as [|i v idx idx' Hi _ IH]; [done|].
  rewrite !select_cons, IH.
  destruct (Forall2_lookup_l _ _ _ _ _ Hk Hi) as (w & Hw & Hl).
  by rewrite (list_getitem_Some _ _ _ Hl), (list_getitem_Some _ _ _ Hw).
Qed.

(** Searching every element and reading at the positions found gives the
    elements back. *)
Lemma traverse_list_index_select {A} `{EqDecision A} (l vs : list A) r :
  traverse (list_index l) vs = Ok r → select l r = Ok vs.
Proof.
  rewrite traverse_Ok, select_Ok. intros H. apply Forall2_flip.
  eapply Forall2_impl; [exact H|]. intros v i. unfold list_index.
  destruct (index_of v l) as [j|] eqn:Hj; [|done]. intros [= <-].
  by apply index_of_Some in Hj as [? _].
Qed.

Lemma positions_from_all {A} (p : A → bool) s (l : list A) :
  (∀ v, v ∈ l → p v = true) → positions_from p s l = seq s (length l).
Proof.
  revert s. induction l as [|a l IH]; intros s Hall; [done|].
  cbn [positions_from length seq]. rewrite Hall by left.
  f_equal. apply IH. intros v Hv. apply Hall. by right.
Qed.

(** Every position, when every element passes the test. *)
Lemma positions_all {A} (p : A → bool) (l : list A) :
  (∀ v, v ∈ l → p v = true) → positions p l = seq 0 (length l).
Proof. apply positions_from_all. Qed.

Lemma positions_from_none {A} (p : A → bool) s (l : list A) :
  (∀ v, v ∈ l → p v = false) → positions_from p s l = [].
Proof.
  revert s. induction l as [|a l IH]; intros s Hall; [done|].
  cbn [positions_from]. rewrite Hall by left.
  apply IH. intros v Hv. apply Hall. by right.
Qed.

Section Tally.
Implicit Types (l : list nat).

Lemma count_cons v a l :
  count v (a :: l) = (if decide (a = v) then 1 else 0) + count v l.
Proof.
  unfold count. destruct (decide (a = v)) as [Heq|Hne].
  - by rewrite filter_cons_True.
  - by rewrite filter_cons_False.
Qed.

Lemma sum_indicator a s n :
  sum_list ((λ v, if decide (a = v) then 1 else 0) <$> seq s n)
  = if decide (s ≤ a < s + n) then 1 else 0.
Proof.
  revert s. induction n as [|n IH]; intros s.
  - cbn. by rewrite decide_False by lia.
  - cbn [seq fmap list_fmap sum_list sum_list_with]. rewrite IH. unfold id.
    repeat case_decide; lia.
Qed.

Lemma sum_list_fmap_cons {B} (f : B → nat) v vs :
  sum_list (f <$> v :: vs) = f v + sum_list (f <$> vs).
Proof. reflexivity. Qed.

Lemma sum_list_fmap_add {B} (f g : B → nat) (vs : list B) :
  sum_list ((λ v, f v + g v) <$> vs) = sum_list (f <$> vs) + sum_list (g <$> vs).
Proof.
  induction vs as [|v vs IH]; [done|]. rewrite !sum_list_fmap_cons, IH. lia.
Qed.

Lemma sum_list_fmap_ext {B} (f g : B → nat) (vs : list B) :
  (∀ v, f v = g v) → sum_list (f <$> vs) = sum_list (g <$> vs).
Proof.
  intros Hfg. induction vs as [|v vs IH]; [done|].
  by rewrite !sum_list_fmap_cons, IH, Hfg.
Qed.

Lemma sum_counts l n :
  Forall (λ v, v < n) l → sum_list ((λ v, count v l) <$> seq 0 n) = length l.
Proof.
  induction 1 as [|a l Ha _ IH]; cbn [length].
  - induction (seq 0 n) as [|v vs IHv]; [done|].
    by rewrite sum_list_fmap_cons, IHv.
  - rewrite <- IH.
    rewrite (sum_list_fmap_ext _ (λ v, (if decide (a = v) then 1 else 0) + count v l))
      by (intros v; apply count_cons).
    rewrite sum_list_fmap_add, sum_indicator, decide_True by lia. done.
Qed.

(** The entries of [np.bincount] add up to the number of elements. *)
Lemma sum_bincount_data l minlength :
  sum_list (bincount_data l minlength) = length l.
Proof.
  unfold bincount_data. apply sum_counts. apply Forall_forall. intros v Hv.
  destruct l as [|a l]; [by apply not_elem_of_nil in Hv|].
  pose proof (max_list_elem_of_le v (a :: l) Hv). lia.
Qed.

Lemma length_bincount_data l minlength :
  Forall (λ v, v < minlength) l → length (bincount_data l minlength) = minlength.
Proof.
  intros Hall. unfold bincount_data. rewrite length_fmap, length_seq.
  destruct l as [|a l]; [lia|].
  assert (max_list (a :: l) < minlength); [|lia].
  assert (Hmax : ∀ k, Forall (λ v, v < minlength) k → k ≠ [] → max_list k < minlength).
  { induction 1 as [|b k Hb Hk IHk]; [done|]. intros _. cbn.
    destruct k; [cbn; lia|]. specialize (IHk ltac:(done)). cbn in *. lia. }
  by apply Hmax.
Qed.

Lemma np_bincount_Ok a minlength c :
  np_bincount a minlength = Ok c →
  dt a = int64 ∧ c = mk_ndarray int64 (bincount_data (data a) minlength) ∧
  np_sum c = np_len a.
Proof.
  destruct (np_bincount_cases a minlength) as [[Hdt ->]|[_ ->]]; [|done].
  intros [= <-]. split; [done|]. split; [done|]. apply sum_bincount_data.
Qed.

End Tally.

(** ** Construction of a Dataset *)

Lemma initialised_Some (l : list nat) : initialised (Some <$> l) = Ok l.
Proof. unfold initialised. by rewrite mapM_fmap_Some. Qed.

Lemma initialised_Ok cells l :
  initialised cells = Ok l → cells = Some <$> l.
Proof.
  unfold initialised. destruct (mapM id cells) as [k|] eqn:Hk; [|done].
  intros [= <-]. apply mapM_Some in Hk.
  induction Hk as [|c v cells k Hc _ IH]; [done|]. cbn in *. by subst.
Qed.

Lemma select_singleton {A} (v : A) n : select [v] (replicate n 0) = Ok (replicate n v).
Proof.
  induction n as [|n IH]; [done|]. cbn [replicate]. by rewrite select_cons, IH.
Qed.

Lemma count_replicate v n : count v (replicate n v) = n.
Proof.
  induction n as [|n IH]; [done|]. cbn [replicate].
  rewrite count_cons, decide_True by done. by rewrite IH.
Qed.

Lemma max_list_replicate_0 n : max_list (replicate n 0) = 0.
Proof. induction n as [|n IH]; [done|]. cbn. by rewrite IH. Qed.

Lemma bincount_data_zeros n : bincount_data (replicate n 0) 1 = [n].
Proof.
  unfold bincount_data.
  assert (Hmax := max_list_replicate_0 n).
  destruct (replicate n 0) as [|z l] eqn:Hl.
  - destruct n; [done|discriminate].
  - rewrite Hmax. cbn [Nat.max seq fmap list_fmap]. rewrite <- Hl.
    by rewrite count_replicate.
Qed.

Section GroupFacts.
Implicit Types (speakers group : list string) (groups : list (list string))
  (arr : list (option nat)).

Lemma fill_group_cons speakers i sp group arr :
  fill_group speakers i (sp :: group) arr
  = k ← list_index speakers sp; fill_group speakers i group (<[k := Some i]> arr).
Proof. reflexivity. Qed.

Lemma fill_groups_cons speakers i group groups arr :
  fill_groups speakers i (group :: groups) arr
  = arr' ← fill_group speakers i group arr; fill_groups speakers (S i) groups arr'.
Proof. reflexivity. Qed.

(** The inner loop completes when every member of the group is a speaker,
    and raises [ValueError] otherwise. *)
Lemma fill_group_cases speakers i group arr :
  if decide (Forall (λ sp, sp ∈ speakers) group)
  then ∃ arr', fill_group speakers i group arr = Ok arr' ∧ length arr' = length arr
  else fill_group speakers i group arr = Raise ValueError.
Proof.
  revert arr. induction group as [|sp group IH]; intros arr.
  - rewrite decide_True by constructor. by eexists.
  - rewrite fill_group_cons. destruct (decide (sp ∈ speakers)) as [Hsp|Hsp].
    + destruct (index_of_elem sp speakers Hsp) as [k Hk].
      rewrite (list_index_Some _ _ _ Hk). cbn.
      specialize (IH (<[k := Some i]> arr)).
      destruct (decide (Forall (λ sp, sp ∈ speakers) group)) as [Hg|Hg].
      * rewrite decide_True by by constructor.
        destruct IH as (arr' & -> & Hlen). exists arr'.
        by rewrite Hlen, length_insert.
      * rewrite decide_False by (intros [_ ?]%Forall_cons; done). done.
    + rewrite decide_False by (intros [? _]%Forall_cons; done).
      destruct (index_of sp speakers) as [k|] eqn:Hk.
      { exfalso. apply Hsp. apply index_of_Some in Hk as [Hk _].
        by eapply list_elem_of_lookup_2. }
      by rewrite (list_index_None _ _ Hk).
Qed.

Lemma fill_groups_cases speakers i groups arr :
  if decide (Forall (Forall (λ sp, sp ∈ speakers)) groups)
  then ∃ arr', fill_groups speakers i groups arr = Ok arr' ∧ length arr' = length arr
  else fill_groups speakers i groups arr = Raise ValueError.
Proof.
  revert i arr. induction groups as [|g groups IH]; intros i arr.
  - rewrite decide_True by constructor. by eexists.
  - rewrite fill_groups_cons. pose proof (fill_group_cases speakers i g arr) as Hg.
    destruct (decide (Forall (λ sp, sp ∈ speakers) g)) as [Hin|Hin].
    + destruct Hg as (arr1 & -> & Hlen1). cbn.
      specialize (IH (S i) arr1).
      destruct (decide (Forall (Forall (λ sp, sp ∈ speakers)) groups)) as [Hgs|Hgs].
      * rewrite decide_True by by constructor.
        destruct IH as (arr' & -> & Hlen). exists arr'. by rewrite Hlen.
      * rewrite decide_False by (intros [_ ?]%Forall_cons; done). done.
    + rewrite decide_False by (intros [? _]%Forall_cons; done). by rewrite Hg.
Qed.

(** A cell after the inner loop: the group index when the speaker of the
    cell is a member, the old content otherwise. *)
Lemma fill_group_lookup speakers i group arr arr' k s :
  NoDup speakers → speakers !! k = Some s → k < length arr →
  fill_group speakers i group arr = Ok arr' →
  arr' !! k = if decide (s ∈ group) then Some (Some i) else arr !! k.
Proof.
  intros Hnd Hs. revert arr. induction group as [|sp group IH]; intros arr Hk.
  - intros [= <-]. rewrite decide_False; [done|]. by intros ?%not_elem_of_nil.
  - rewrite fill_group_cons.
    destruct (index_of sp speakers) as [j|] eqn:Hj;
      [rewrite (list_index_Some _ _ _ Hj)|by rewrite (list_index_None _ _ Hj)].
    cbn. intros Hfill. apply index_of_Some in Hj as [Hj _].
    rewrite (IH _ ltac:(by rewrite length_insert) Hfill).
    destruct (decide (s ∈ group)) as [Hin|Hin].
    + rewrite decide_True; [done|by right].
    + destruct (decide (j = k)) as [->|Hne].
      * assert (sp = s) as -> by congruence.
        rewrite decide_True by left. by rewrite list_lookup_insert_eq.
      * rewrite list_lookup_insert_ne by done.
        rewrite decide_False; [done|].
        intros [->|?]%elem_of_cons; [|done].
        apply Hne. by eapply NoDup_lookup.
Qed.

Lemma fill_groups_absent speakers i groups arr arr' k s :
  NoDup speakers → speakers !! k = Some s → k < length arr →
  (∀ g, g ∈ groups → s ∉ g) →
  fill_groups speakers i groups arr = Ok arr' →
  arr' !! k = arr !! k.
Proof.
  intros Hnd Hs. revert i arr. induction groups as [|g groups IH]; intros i arr Hk Habs.
  - by intros [= <-].
  - rewrite fill_groups_cons.
    pose proof (fill_group_cases speakers i g arr) as Hg.
    destruct (fill_group speakers i g arr) as [arr1| |] eqn:Hfill; cbn; [|done..].
    case_decide; [|done]. destruct Hg as (? & [= <-] & Hlen).
    intros Hrest. assert (Hk1 : k < length arr1) by lia.
    rewrite (IH (S i) arr1 Hk1 ltac:(intros g' Hg'; apply Habs; by right) Hrest).
    rewrite (fill_group_lookup _ _ _ _ _ _ _ Hnd Hs Hk Hfill).
    rewrite decide_False; [done|]. apply Habs. by left.
Qed.

(** The later group wins: the cell of a speaker holds the position of the
    last group that names it. *)
Lemma fill_groups_later_wins speakers i before g after arr arr' k s :
  NoDup speakers → speakers !! k = Some s → k < length arr →
  s ∈ g → (∀ g', g' ∈ after → s ∉ g') →
  fill_groups speakers i (before ++ g :: after) arr = Ok arr' →
  arr' !! k = Some (Some (i + length before)).
Proof.
  intros Hnd Hs. revert i arr.
  induction before as [|g0 before IH]; intros i arr Hk Hin Habs; cbn [app].
  - rewrite fill_groups_cons.
    pose proof (fill_group_cases speakers i g arr) as Hg.
    destruct (fill_group speakers i g arr) as [arr1| |] eqn:Hfill; cbn; [|done..].
    case_decide; [|done]. destruct Hg as (? & [= <-] & Hlen).
    intros Hrest. assert (Hk1 : k < length arr1) by lia.
    rewrite (fill_groups_absent _ _ _ _ _ _ _ Hnd Hs Hk1 Habs Hrest).
    rewrite (fill_group_lookup _ _ _ _ _ _ _ Hnd Hs Hk Hfill).
    rewrite decide_True by done. cbn. by rewrite Nat.add_0_r.
  - rewrite fill_groups_cons.
    pose proof (fill_group_cases speakers i g0 arr) as Hg.
    destruct (fill_group speakers i g0 arr) as [arr1| |] eqn:Hfill; cbn; [|done..].
    case_decide; [|done]. destruct Hg as (? & [= <-] & Hlen).
    intros Hrest. assert (Hk1 : k < length arr1) by lia.
    rewrite (IH (S i) arr1 Hk1 Hin Habs Hrest).
    do 2 f_equal. lia.
Qed.

(** With one group for each speaker, in order, the table is the identity. *)
Lemma fill_groups_singletons pre l arr :
  NoDup (pre ++ l) → length arr = length (pre ++ l) →
  fill_groups (pre ++ l) (length pre) ((λ s, [s]) <$> l) arr
  = Ok (take (length pre) arr ++ (Some <$> seq (length pre) (length l))).
Proof.
  revert pre arr. induction l as [|v l IH]; intros pre arr Hnd Hlen.
  - cbn [fmap list_fmap fill_groups length seq]. rewrite app_nil_r in Hlen.
    rewrite app_nil_r. by rewrite take_ge by lia.
  - rewrite fmap_cons, fill_groups_cons, fill_group_cons.
    assert (Hv : index_of v (pre ++ v :: l) = Some (length pre)).
    { rewrite index_of_app_r.
      - cbn. rewrite decide_True by done. cbn. by rewrite Nat.add_0_r.
      - apply NoDup_app in Hnd as (_ & Hd & _). intros Hin. apply (Hd v Hin). by left. }
    rewrite (list_index_Some _ _ _ Hv). cbn [mbind outcome_bind fill_group].
    specialize (IH (pre ++ [v]) (<[length pre := Some (length pre)]> arr)).
    replace (length (pre ++ [v])) with (S (length pre)) in IH
      by (rewrite length_app; cbn; lia).
    rewrite <- (assoc_L (++)) in IH. cbn [app] in IH.
    rewrite IH by (by rewrite ?length_insert).
    f_equal. cbn [length seq fmap list_fmap].
    rewrite length_app in Hlen. cbn [length] in Hlen.
    rewrite (take_S_r _ _ (Some (length pre)))
      by (apply list_lookup_insert_eq; lia).
    rewrite take_insert_ge by lia. by rewrite <- (assoc_L (++)).
Qed.

Lemma speaker_group_indices_of_singletons speakers (si : ndarray) :
  NoDup speakers → dt si = int64 →
  Forall (λ v, v < length speakers) (data si) →
  speaker_group_indices_of speakers ((λ s, [s]) <$> speakers) si = Ok si.
Proof.
  intros Hnd Hdt Hall. unfold speaker_group_indices_of.
  rewrite (fill_groups_singletons [] speakers) by (by rewrite ?length_replicate).
  cbn [mbind outcome_bind length take app]. unfold as_index. rewrite Hdt.
  cbn [mbind outcome_bind]. rewrite take_0. cbn [app].
  rewrite (select_fmap Some _ _ (data si)) by (by apply select_seq).
  cbn [mbind outcome_bind]. rewrite initialised_Some. cbn.
  destruct si as [t d]. cbn in *. by subst.
Qed.

Lemma speaker_group_indices_of_length speakers groups (si a : ndarray) :
  speaker_group_indices_of speakers groups si = Ok a →
  dt a = int64 ∧ np_len a = np_len si.
Proof.
  unfold speaker_group_indices_of.
  destruct (fill_groups _ _ _ _) as [arr| |]; cbn; [|done..].
  destruct (as_index si) as [idx| |] eqn:Hidx; cbn; [|done..].
  destruct (select arr idx) as [cells| |] eqn:Hsel; cbn; [|done..].
  destruct (initialised cells) as [l| |] eqn:Hl; cbn; [|done..].
  intros [= <-]. split; [done|]. unfold np_len. cbn.
  apply initialised_Ok in Hl as ->. apply select_length in Hsel.
  rewrite length_fmap in Hsel. rewrite Hsel.
  unfold as_index in Hidx. destruct (dt si); [|done]. by injection Hidx as <-.
Qed.

End GroupFacts.

Section DatasetInitMore.
Context {X : Type}.
Variable load_backend : backend_cls → Path → outcome (Backend X).
Variable corpora : gmap string CorpusInfo.
Variable lower : string → string.
Implicit Types (self : Dataset X) (b : Backend X).

(** X4. Without a speaker annotation every instance belongs to the one
    speaker ["unknown"]: the speaker indices are all zero, the one count is
    the number of instances, the speaker is its own group, and the male and
    female index attributes stay unset. *)
Theorem Dataset_init_default_speaker path b :
  open_backend load_backend path = Ok b →
  Dataset_init load_backend corpora lower path None
  = Ok {| _corpus := backend_corpus b;
          _names := backend_names b;
          _features := backend_feature_names b;
          _x := backend_features b;
          _speakers := ["unknown"];
          _male_speakers := [];
          _female_speakers := [];
          _speaker_groups := [["unknown"]];
          _speaker_indices := np_zeros (length (backend_names b));
          _speaker_counts := Some (mk_ndarray int64 [length (backend_names b)]);
          _male_indices := None;
          _female_indices := None;
          _speaker_group_indices := np_zeros (length (backend_names b)) |}.
Proof.
  intros Hb. unfold Dataset_init. rewrite Hb.
  cbn [mbind outcome_bind read_speakers sa_speakers sa_speaker_indices
       sa_male_speakers sa_female_speakers sa_speaker_groups length].
  unfold np_bincount, np_zeros. cbn [dt data mbind outcome_bind].
  rewrite bincount_data_zeros.
  unfold male_female_indices. rewrite bool_decide_eq_false_2 by (by intros [? _]).
  cbn [mbind outcome_bind fmap list_fmap].
  assert (Hg := speaker_group_indices_of_singletons ["unknown"]
                  (mk_ndarray int64 (replicate (length (backend_names b)) 0))).
  cbn [fmap list_fmap] in Hg. rewrite Hg; [reflexivity| | |].
  - apply NoDup_singleton.
  - done.
  - cbn. apply Forall_forall. intros v ->%elem_of_replicate_inv. lia.
Qed.

(** X5. With a speaker annotation that lacks an instance name the
    constructor raises [KeyError] for the first such name. *)
Theorem Dataset_init_missing_speaker path b spk_dict pre n rest :
  open_backend load_backend path = Ok b →
  backend_names b = pre ++ n :: rest →
  (∀ m, m ∈ pre → is_Some (spk_dict !! m)) →
  spk_dict !! n = None →
  Dataset_init load_backend corpora lower path (Some spk_dict) = Raise (KeyError n).
Proof.
  intros Hb Hnames Hpre Hn. unfold Dataset_init. rewrite Hb.
  cbn [mbind outcome_bind]. unfold read_speakers. rewrite Hnames.
  rewrite (traverse_Raise (dict_getitem spk_dict) pre n rest (KeyError n)); [done| |].
  - intros m [v Hv]%Hpre. exists v. unfold dict_getitem. by rewrite Hv.
  - unfold dict_getitem. by rewrite Hn.
Qed.

Lemma read_speakers_Ok corpus names annot sa c :
  read_speakers corpora lower corpus names annot = Ok sa →
  np_bincount (sa_speaker_indices sa) (length (sa_speakers sa)) = Ok c →
  dt (sa_speaker_indices sa) = int64 ∧
  Forall (λ v, v < length (sa_speakers sa)) (data (sa_speaker_indices sa)) ∧
  np_len (sa_speaker_indices sa) = length names ∧
  increasing String.compare (sa_speakers sa) = true ∧
  (∀ d, annot = Some d →
        select (sa_speakers sa) (data (sa_speaker_indices sa))
        = traverse (dict_getitem d) names) ∧
  ((annot = None ∨ corpora !! lower corpus = None) →
   sa_male_speakers sa = [] ∧ sa_speaker_groups sa = []).
Proof.
  unfold read_speakers. destruct annot as [d|].
  - destruct (traverse (dict_getitem d) names) as [spk| |] eqn:Hspk; cbn; [|done..].
    destruct (traverse (list_index (sorted_strs spk)) spk) as [idx| |] eqn:Hidx;
      cbn; [|done..].
    intros Hsa Hc.
    assert (Hfacts : sa_speakers sa = sorted_strs spk ∧
                     sa_speaker_indices sa = np_array idx ∧
                     (corpora !! lower corpus = None →
                      sa_male_speakers sa = [] ∧ sa_speaker_groups sa = [])).
    { destruct (corpora !! lower corpus); injection Hsa as <-; by cbn. }
    destruct Hfacts as (Hsp & Hsi & Hreg).
    apply np_bincount_Ok in Hc as (Hdt & _ & _).
    rewrite Hsp, Hsi in *.
    destruct (traverse_list_index_elem (sorted_strs spk) spk) as (r & Hr & Hlen & Hall).
    { intros v Hv. by apply elem_of_sorted_strs. }
    rewrite Hidx in Hr. injection Hr as <-.
    split; [done|]. split; [done|].
    split; [unfold np_len; cbn; rewrite Hlen; by eapply traverse_length|].
    split; [apply sorted_strs_increasing|].
    split.
    + intros ? [= <-]. cbn. rewrite Hspk. by apply traverse_list_index_select.
    + intros [?|Hnone]; [done|]. by apply Hreg.
  - intros [= <-] _. cbn.
    split; [done|].
    split; [apply Forall_forall; intros v ->%elem_of_replicate_inv; lia|].
    split; [unfold np_len; cbn; by rewrite length_replicate|].
    done.
Qed.

(** X6. A constructed dataset has its speaker list sorted without
    duplicates, one valid integer speaker index and one group index for
    each instance, and speaker counts that tally the speaker indices: one
    entry for each speaker, adding up to the number of instances. With an
    annotation, the speaker of every instance is its annotation. *)
Theorem Dataset_init_invariants path annot self :
  Dataset_init load_backend corpora lower path annot = Ok self →
  speakers_valid self = true ∧
  increasing String.compare (_speakers self) = true ∧
  np_len (_speaker_indices self) = n_instances self ∧
  np_len (_speaker_group_indices self) = n_instances self ∧
  (∃ counts, _speaker_counts self = Some counts ∧
     np_len counts = length (_speakers self) ∧
     np_sum counts = n_instances self ∧
     ∀ i, i < length (_speakers self) →
          data counts !! i = Some (count i (data (_speaker_indices self)))) ∧
  (∀ d, annot = Some d →
        speaker_names self = traverse (dict_getitem d) (_names self)).
Proof.
  unfold Dataset_init.
  destruct (open_backend load_backend path) as [b| |]; cbn; [|done..].
  destruct (read_speakers _ _ _ _) as [sa| |] eqn:Hsa; cbn; [|done..].
  destruct (np_bincount _ _) as [c| |] eqn:Hc; cbn; [|done..].
  destruct (male_female_indices _ _ _ _) as [mf| |]; cbn; [|done..].
  destruct (speaker_group_indices_of _ _ _) as [sgi| |] eqn:Hsgi; cbn; [|done..].
  intros [= <-].
  destruct (read_speakers_Ok _ _ _ _ _ Hsa Hc) as (Hdt & Hall & Hlen & Hinc & Hnames & _).
  apply speaker_group_indices_of_length in Hsgi as [_ Hsgi].
  apply np_bincount_Ok in Hc as (_ & -> & Hsum).
  unfold speakers_valid, n_instances, speaker_names. cbn.
  split.
  { rewrite Hdt. cbn. apply forallb_forall. intros v Hv%list_elem_of_In.
    rewrite Forall_forall in Hall. by apply Nat.ltb_lt, Hall. }
  split; [done|]. split; [done|]. split; [by rewrite Hsgi|].
  split; [|done].
  eexists. split; [done|]. unfold np_len. cbn.
  split; [by apply length_bincount_data|].
  split; [by rewrite <- Hlen|].
  intros i Hi. by apply bincount_data_lookup.
Qed.

(** X7. Without a speaker annotation, or without a registry entry for the
    lowered corpus name, every speaker is its own group: the groups are
    the singletons of the speakers in order, the group indices are the
    speaker indices, and the male and female index attributes stay unset. *)
Theorem Dataset_init_singleton_groups path annot self :
  Dataset_init load_backend corpora lower path annot = Ok self →
  annot = None ∨ corpora !! lower (_corpus self) = None →
  _speaker_groups self = (λ s, [s]) <$> _speakers self ∧
  _speaker_group_indices self = _speaker_indices self ∧
  _male_indices self = None ∧ _female_indices self = None.
Proof.
  unfold Dataset_init.
  destruct (open_backend load_backend path) as [b| |]; cbn; [|done..].
  destruct (read_speakers _ _ _ _) as [sa| |] eqn:Hsa; cbn; [|done..].
  destruct (np_bincount _ _) as [c| |] eqn:Hc; cbn; [|done..].
  destruct (read_speakers_Ok _ _ _ _ _ Hsa Hc) as (Hdt & Hall & _ & Hinc & _ & Hreg).
  destruct (male_female_indices _ _ _ _) as [mf| |] eqn:Hmf; cbn; [|done..].
  destruct (speaker_group_indices_of _ _ _) as [sgi| |] eqn:Hsgi; cbn; [|done..].
  intros [= <-]. cbn. intros Hnone. destruct (Hreg Hnone) as [Hmale Hgroups].
  rewrite Hgroups in *.
  rewrite speaker_group_indices_of_singletons in Hsgi
    by (try done; by apply increasing_strs_NoDup).
  injection Hsgi as <-.
  unfold male_female_indices in Hmf. rewrite Hmale in Hmf.
  rewrite bool_decide_eq_false_2 in Hmf by (by intros [? _]).
  by injection Hmf as <-.
Qed.

End DatasetInitMore.

Section GroupResetMore.
Context {X : Type}.
Implicit Types (self : Dataset X).

(** X8. [_reset_speaker_group_indices] raises [ValueError] exactly when some
    group names a speaker that is not in the speaker list; whenever it does
    not return normally it leaves the object as it was. *)
Theorem reset_speaker_group_indices_ValueError self :
  ((_reset_speaker_group_indices self).1 = Raise ValueError
   ↔ ∃ g sp, g ∈ _speaker_groups self ∧ sp ∈ g ∧ sp ∉ _speakers self) ∧
  ((_reset_speaker_group_indices self).1 ≠ Ok tt →
   (_reset_speaker_group_indices self).2 = self).
Proof.
  unfold _reset_speaker_group_indices, speaker_group_indices_of. run_meth.
  pose proof (fill_groups_cases (_speakers self) 0 (_speaker_groups self)
                (replicate (length (_speakers self)) None)) as Hfill.
  destruct (decide (Forall (Forall (λ sp, sp ∈ _speakers self))
                      (_speaker_groups self))) as [Hall|Hall].
  - destruct Hfill as (arr & -> & _). cbn [mbind outcome_bind].
    split.
    + split.
      * unfold as_index. destruct (dt (_speaker_indices self)); cbn; [|done].
        destruct (select_cases arr (data (_speaker_indices self))) as [[r ->]| ->];
          cbn; [|done].
        unfold initialised. by destruct (mapM id r).
      * intros (g & sp & Hg & Hsp & Hout). exfalso. apply Hout.
        rewrite Forall_forall in Hall. specialize (Hall g Hg).
        rewrite Forall_forall in Hall. by apply Hall.
    + destruct (as_index _) as [idx| |]; cbn; [|done..].
      destruct (select arr idx) as [cells| |]; cbn; [|done..].
      by destruct (initialised cells).
  - rewrite Hfill. cbn. split; [|done]. split; [|done]. intros _.
    apply not_Forall_Exists in Hall; [|apply _].
    apply Exists_exists in Hall as (g & Hg & Hng).
    apply not_Forall_Exists in Hng; [|apply _].
    apply Exists_exists in Hng as (sp & Hsp & Hout).
    by exists g, sp.
Qed.

(** X9. When a speaker is named by more than one group, the later group in
    the list wins: after a reset that returns normally, the group index of
    every instance of a speaker is the position of the last group that
    names the speaker. *)
Theorem reset_speaker_group_indices_later_wins self before g after s k i :
  NoDup (_speakers self) →
  _speaker_groups self = before ++ g :: after →
  s ∈ g → (∀ g', g' ∈ after → s ∉ g') →
  _speakers self !! k = Some s →
  data (_speaker_indices self) !! i = Some k →
  (_reset_speaker_group_indices self).1 = Ok tt →
  data (_speaker_group_indices (_reset_speaker_group_indices self).2) !! i
  = Some (length before).
Proof.
  intros Hnd Hgroups Hin Habs Hs Hi.
  unfold _reset_speaker_group_indices, speaker_group_indices_of. run_meth.
  rewrite Hgroups.
  destruct (fill_groups _ _ _ _) as [arr| |] eqn:Hfill; cbn; [|done..].
  destruct (as_index _) as [idx| |] eqn:Hidx; cbn; [|done..].
  destruct (select arr idx) as [cells| |] eqn:Hsel; cbn; [|done..].
  destruct (initialised cells) as [l| |] eqn:Hl; cbn; [|done..].
  intros _.
  apply initialised_Ok in Hl as ->.
  assert (idx = data (_speaker_indices self)) as ->.
  { unfold as_index in Hidx. destruct (dt _); [|done]. by injection Hidx. }
  destruct (select_lookup _ _ _ _ _ Hsel Hi) as [Hcell _].
  rewrite (fill_groups_later_wins _ _ _ _ _ _ _ _ _ Hnd Hs
             ltac:(rewrite length_replicate; by eapply lookup_lt_Some)
             Hin Habs Hfill) in Hcell.
  rewrite list_lookup_fmap in Hcell.
  destruct (l !! i) as [v|]; [|done]. cbn in Hcell. by injection Hcell as ->.
Qed.

End GroupResetMore.

Lemma Dataset_init_default_speaker_witness :
  Dataset_init Scenario.load Scenario.registry Scenario.lower Scenario.path_A None
  = Ok {| _corpus := "A";
          _names := ["a1"; "a2"];
          _features := ["f0"];
          _x := [10; 20];
          _speakers := ["unknown"];
          _male_speakers := [];
          _female_speakers := [];
          _speaker_groups := [["unknown"]];
          _speaker_indices := mk_ndarray int64 [0; 0];
          _speaker_counts := Some (mk_ndarray int64 [2]);
          _male_indices := None;
          _female_indices := None;
          _speaker_group_indices := mk_ndarray int64 [0; 0] |}.
Proof.
  apply (Dataset_init_default_speaker Scenario.load Scenario.registry Scenario.lower
           Scenario.path_A (mk_Backend "A" ["a1"; "a2"] ["f0"] [10; 20])).
  vm_compute. reflexivity.
Defined.

Lemma Dataset_init_missing_speaker_witness :
  Dataset_init Scenario.load Scenario.registry Scenario.lower Scenario.path_A
    (Some Scenario2.speakers_partial)
  = Raise (KeyError "a2").
Proof.
  apply (Dataset_init_missing_speaker Scenario.load Scenario.registry Scenario.lower
           Scenario.path_A (mk_Backend "A" ["a1"; "a2"] ["f0"] [10; 20])
           Scenario2.speakers_partial ["a1"] "a2" []).
  - vm_compute. reflexivity.
  - reflexivity.
  - intros m ->%list_elem_of_singleton. vm_compute. by eexists.
  - vm_compute. reflexivity.
Defined.

Lemma Dataset_init_invariants_witness :
  speakers_valid (base Scenario.object_A) = true ∧
  np_len (_speaker_indices (base Scenario.object_A)) = 2 ∧
  (∃ counts, _speaker_counts (base Scenario.object_A) = Some counts ∧
             np_sum counts = 2) ∧
  speaker_names (base Scenario.object_A) = Ok ["X"; "Y"].
Proof.
  destruct (Dataset_init_invariants Scenario.load Scenario.registry Scenario.lower
              Scenario.path_A (Some Scenario.speakers_A) (base Scenario.object_A))
    as (Hvalid & _ & Hlen & _ & (counts & Hc & _ & Hsum & _) & Hnames).
  - vm_compute. reflexivity.
  - split; [exact Hvalid|]. split; [exact Hlen|].
    split; [exists counts; by split|].
    rewrite (Hnames _ eq_refl). vm_compute. reflexivity.
Defined.

Lemma Dataset_init_singleton_groups_witness :
  _speaker_groups (base Scenario.object_A) = [["X"]; ["Y"]] ∧
  _speaker_group_indices (base Scenario.object_A)
  = _speaker_indices (base Scenario.object_A) ∧
  _male_indices (base Scenario.object_A) = None ∧
  _female_indices (base Scenario.object_A) = None.
Proof.
  apply (Dataset_init_singleton_groups Scenario.load Scenario.registry
           Scenario.lower Scenario.path_A (Some Scenario.speakers_A) (base Scenario.object_A)).
  - vm_compute. reflexivity.
  - right. vm_compute. reflexivity.
Defined.

Lemma reset_speaker_group_indices_later_wins_witness :
  data (_speaker_group_indices
          (_reset_speaker_group_indices Scenario2.overlapping).2) !! 1
  = Some 1.
Proof.
  apply (reset_speaker_group_indices_later_wins Scenario2.overlapping
           [["X"; "Y"]] ["Y"] [] "Y" 1 1).
  - apply increasing_strs_NoDup. reflexivity.
  - reflexivity.
  - left.
  - intros g' Hg'. by apply not_elem_of_nil in Hg'.
  - reflexivity.
  - reflexivity.
  - vm_compute. reflexivity.
Defined.

Lemma reset_speaker_group_indices_ValueError_witness :
  (_reset_speaker_group_indices
     (set_speaker_groups [["W"]] (base Scenario.object_A))).1
  = Raise ValueError.
Proof.
  apply reset_speaker_group_indices_ValueError.
  exists ["W"], "W". split; [left|]. split; [left|].
  intros Hin. cbn in Hin.
  repeat (apply elem_of_cons in Hin as [[=]|Hin]).
  by apply not_elem_of_nil in Hin.
Defined.

(** ** Removal of instances *)

Lemma nat_compare_gt a b : Nat.compare a b = Gt → Nat.compare b a = Lt.
Proof. rewrite Nat.compare_gt_iff, Nat.compare_lt_iff. lia. Qed.

Lemma np_unique_increasing (a : ndarray) :
  increasing Nat.compare (data (np_unique a)) = true.
Proof. apply increasing_sorted_set, nat_compare_gt. Qed.

(** Reading a list at increasing positions gives a sublist. *)
Lemma select_increasing_sublist {A} (l : list A) idx r s :
  increasing Nat.compare idx = true →
  match idx with i :: _ => s ≤ i | [] => True end →
  select l idx = Ok r →
  r `sublist_of` drop s l.
Proof.
  revert r s. induction idx as [|i idx IH]; intros r s Hinc Hs.
  - intros [= <-]. apply sublist_nil_l.
  - rewrite select_cons. unfold list_getitem.
    destruct (l !! i) as [v|] eqn:Hv; cbn; [|done].
    destruct (select l idx) as [r'| |] eqn:Hr; cbn; [|done..].
    intros [= <-].
    assert (Hr' : r' `sublist_of` drop (S i) l).
    { apply IH; [by eapply (increasing_tail Nat.compare)| |done].
      destruct idx as [|j idx]; [done|].
      apply increasing_cons in Hinc as [Hij _].
      apply Nat.compare_lt_iff in Hij. lia. }
    replace (drop s l) with (drop s (take i l) ++ drop i l); cycle 1.
    { rewrite <- (take_drop i l) at 3. rewrite drop_app_le; [done|].
      rewrite length_take. apply lookup_lt_Some in Hv. lia. }
    apply sublist_inserts_l. rewrite (drop_S _ _ _ Hv). by constructor.
Qed.

Section RemoveInstancesMore.
Context {X : Type}.
Implicit Types (self : Dataset X) (keep : list string).

(** What a call of [remove_instances] that returns normally has computed. *)
Lemma remove_instances_Ok keep self :
  (remove_instances keep self).1 = Ok tt →
  let idx := positions (contains keep) (_names self) in
  let after := (remove_instances keep self).2 in
  ∃ kept si' kept_grp,
    np_getitem_list (_speaker_indices self) idx = Ok kept ∧
    np_len (np_unique kept) < length (_speakers self) ∧
    select (_x self) idx = Ok (_x after) ∧
    traverse (list_getitem_np (_speakers self) (dt kept)) (data (np_unique kept))
    = Ok (_speakers after) ∧
    traverse (λ i,
        v ← list_getitem (data (_speaker_indices self)) i;
        s ← list_getitem_np (_speakers self) (dt (_speaker_indices self)) v;
        list_index (_speakers after) s) idx = Ok si' ∧
    _speaker_indices after = np_array si' ∧
    np_getitem_list (_speaker_group_indices self) idx = Ok kept_grp ∧
    traverse (list_getitem_np (_speaker_groups self) (dt kept_grp))
      (data (np_unique kept_grp)) = Ok (_speaker_groups after) ∧
    speaker_group_indices_of (_speakers after) (_speaker_groups after)
      (np_array si') = Ok (_speaker_group_indices after).
Proof.
  unfold remove_instances, _reset_speaker_group_indices, _reset_male_female_indices.
  run_meth. rewrite select_positions.
  repeat (case_match; simplify_eq/=; try done).
  all: intros _; eexists _, _, _; repeat split; try done.
  all: match goal with H : bool_decide (_ < _) = true |- _ =>
         by apply bool_decide_eq_true in H end.
Qed.

(** X10. A call of [remove_instances] returns normally only when it drops a
    speaker: the speaker list is then strictly shorter, and it is a sublist
    of the former one, the remaining speakers in their order. *)
Theorem remove_instances_Ok_speakers keep self :
  (remove_instances keep self).1 = Ok tt →
  length (_speakers (remove_instances keep self).2) < length (_speakers self) ∧
  _speakers (remove_instances keep self).2 `sublist_of` _speakers self.
Proof.
  intros (kept & si' & kept_grp & _ & Hlt & _ & Hsp & _)%remove_instances_Ok.
  split.
  - apply traverse_length in Hsp. unfold np_len in Hlt. lia.
  - change (_speakers self) with (drop 0 (_speakers self)).
    apply (select_increasing_sublist _ (data (np_unique kept))).
    + apply np_unique_increasing.
    + destruct (data (np_unique kept)); [done|lia].
    + unfold select. destruct (dt kept) eqn:Hdt; [exact Hsp|].
      cbn [np_unique dt data] in Hsp |- *.
      destruct (sorted_set Nat.compare (data kept)); [done|]. by cbn in Hsp.
Qed.

Lemma reindexed_names (speakers new sn : list string) (si idx si' : list nat) :
  select speakers si = Ok sn →
  traverse (λ i, v ← list_getitem si i;
                 s ← list_getitem speakers v;
                 list_index new s) idx = Ok si' →
  ∃ names, select sn idx = Ok names ∧ select new si' = Ok names ∧
           Forall (λ k, k < length new) si'.
Proof.
  intros Hsn. rewrite traverse_Ok.
  induction 1 as [|i k idx si' Hik _ (names & Hn1 & Hn2 & Hall)]; [by exists []|].
  destruct (si !! i) as [v|] eqn:Hv;
    [rewrite (list_getitem_Some _ _ _ Hv) in Hik
    |by rewrite (list_getitem_None _ _ Hv) in Hik].
  cbn in Hik.
  destruct (speakers !! v) as [s|] eqn:Hs;
    [rewrite (list_getitem_Some _ _ _ Hs) in Hik
    |by rewrite (list_getitem_None _ _ Hs) in Hik].
  cbn in Hik.
  destruct (index_of s new) as [j|] eqn:Hj;
    [rewrite (list_index_Some _ _ _ Hj) in Hik
    |by rewrite (list_index_None _ _ Hj) in Hik].
  injection Hik as <-. apply index_of_Some in Hj as [Hj Hlt].
  exists (s :: names). rewrite !select_cons, Hn1, Hn2.
  rewrite (list_getitem_Some _ _ _ Hj).
  destruct (select_lookup _ _ _ _ _ Hsn Hv) as [Hsni _].
  rewrite (list_getitem_Some sn i s) by congruence.
  split; [done|]. split; [done|]. by constructor.
Qed.

(** X11. After a call of [remove_instances] that returns normally, every
    kept instance has the speaker it had, under its new index; the speaker
    indices are valid integers; names, feature rows, speaker indices and
    group indices are aligned; and every remaining group names remaining
    speakers only. *)
Theorem remove_instances_Ok_aligned keep self sn :
  speaker_names self = Ok sn →
  (remove_instances keep self).1 = Ok tt →
  let after := (remove_instances keep self).2 in
  speaker_names after = select sn (positions (contains keep) (_names self)) ∧
  speakers_valid after = true ∧
  length (_x after) = n_instances after ∧
  np_len (_speaker_indices after) = n_instances after ∧
  np_len (_speaker_group_indices after) = n_instances after ∧
  (∀ g sp, g ∈ _speaker_groups after → sp ∈ g → sp ∈ _speakers after).
Proof.
  intros Hsn Hok after.
  destruct (remove_instances_Ok keep self Hok)
    as (kept & si' & kept_grp & Hkept & _ & Hx & _ & Hsi' & Hsi & _ & _ & Hreset).
  fold after in Hx, Hsi', Hsi, Hreset.
  assert (Hnames : n_instances after
                   = length (positions (contains keep) (_names self))).
  { unfold n_instances, after. rewrite remove_instances_names_filter.
    rewrite <- filter_contains. unfold positions. by rewrite length_positions_from. }
  assert (Hdt' : dt (np_array si') = int64 ∧
                 np_len (_speaker_group_indices after) = np_len (np_array si')).
  { pose proof (speaker_group_indices_of_length _ _ _ _ Hreset) as [_ Hlen].
    split; [|done]. unfold speaker_group_indices_of in Hreset.
    destruct (fill_groups _ _ _ _); cbn in Hreset; [|done..].
    unfold as_index in Hreset. by destruct (dt (np_array si')). }
  destruct Hdt' as [Hdt' Hsgi].
  assert (Hdt : dt (_speaker_indices self) = int64).
  { destruct si' as [|k si']; [done|].
    destruct (positions (contains keep) (_names self)) as [|i idx]; [done|].
    cbn [traverse] in Hsi'.
    destruct (list_getitem (data (_speaker_indices self)) i); cbn in Hsi'; [|done..].
    by destruct (dt (_speaker_indices self)). }
  rewrite Hdt in Hsi'. unfold list_getitem_np in Hsi'.
  destruct (reindexed_names _ _ _ _ _ _ Hsn Hsi') as (names & Hn1 & Hn2 & Hall).
  unfold speaker_names, speakers_valid. rewrite Hsi.
  replace (data (np_array si')) with si' by done.
  split; [by rewrite Hn1, Hn2|].
  split.
  { rewrite Hdt'. cbn. apply forallb_forall. intros v Hv%list_elem_of_In.
    rewrite Forall_forall in Hall. by apply Nat.ltb_lt, Hall. }
  split; [rewrite Hnames; by eapply select_length|].
  assert (Hlen : np_len (np_array si') = n_instances after).
  { rewrite Hnames. unfold np_len. cbn. by eapply traverse_length. }
  split; [done|]. split; [by rewrite Hsgi|].
  intros g sp Hg Hsp.
  unfold speaker_group_indices_of in Hreset.
  pose proof (fill_groups_cases (_speakers after) 0 (_speaker_groups after)
                (replicate (length (_speakers after)) None)) as Hfill.
  destruct (decide (Forall (Forall (λ sp, sp ∈ _speakers after))
                      (_speaker_groups after))) as [Hcl|Hcl].
  - rewrite Forall_forall in Hcl. specialize (Hcl g Hg).
    rewrite Forall_forall in Hcl. by apply Hcl.
  - by rewrite Hfill in Hreset.
Qed.

(** X12. A call of [remove_instances] that keeps no instance of a dataset
    with speakers raises [IndexError]: the speaker list and the speaker
    indices are emptied, and the empty index array, a float64 array, is
    refused as an index when the group indices are reset. *)
Theorem remove_instances_keep_none keep self :
  (∀ n, n ∈ _names self → n ∉ keep) →
  _speakers self ≠ [] →
  let r := remove_instances keep self in
  r.1 = Raise IndexError ∧
  _names r.2 = [] ∧ _x r.2 = [] ∧ _speakers r.2 = [] ∧
  _speaker_indices r.2 = mk_ndarray float64 [] ∧
  _speaker_groups r.2 = [] ∧
  _speaker_group_indices r.2 = _speaker_group_indices self.
Proof.
  intros Hnone Hsp r. subst r.
  assert (Hidx : positions (contains keep) (_names self) = []).
  { apply positions_from_none. intros n Hn. unfold contains.
    apply bool_decide_eq_false. by apply Hnone. }
  unfold remove_instances, _reset_speaker_group_indices, speaker_group_indices_of.
  run_meth. rewrite Hidx.
  cbn [select traverse np_getitem_list mbind outcome_bind np_unique sorted_set
       foldr data dt np_len length].
  rewrite bool_decide_eq_true_2 by (destruct (_speakers self); [done|cbn; lia]).
  cbn. done.
Qed.

End RemoveInstancesMore.

Lemma remove_instances_Ok_speakers_witness :
  length (_speakers (remove_instances ["a1"] (base Scenario.object_A)).2) < 2 ∧
  _speakers (remove_instances ["a1"] (base Scenario.object_A)).2
    `sublist_of` ["X"; "Y"].
Proof.
  apply (remove_instances_Ok_speakers ["a1"] (base Scenario.object_A)).
  vm_compute. reflexivity.
Defined.

Lemma remove_instances_Ok_aligned_witness :
  let after := (remove_instances ["a2"] (base Scenario.object_A)).2 in
  speaker_names after = Ok ["Y"] ∧
  speakers_valid after = true ∧
  length (_x after) = n_instances after ∧
  np_len (_speaker_indices after) = n_instances after ∧
  np_len (_speaker_group_indices after) = n_instances after ∧
  (∀ g sp, g ∈ _speaker_groups after → sp ∈ g → sp ∈ _speakers after).
Proof.
  apply (remove_instances_Ok_aligned ["a2"] (base Scenario.object_A) ["X"; "Y"]).
  - vm_compute. reflexivity.
  - vm_compute. reflexivity.
Defined.

Lemma remove_instances_keep_none_witness :
  let r := remove_instances ["b1"] (base Scenario.object_A) in
  r.1 = Raise IndexError ∧
  _names r.2 = [] ∧ _x r.2 = [] ∧ _speakers r.2 = [] ∧
  _speaker_indices r.2 = mk_ndarray float64 [] ∧
  _speaker_groups r.2 = [] ∧
  _speaker_group_indices r.2 = mk_ndarray int64 [0; 1].
Proof.
  apply (remove_instances_keep_none ["b1"] (base Scenario.object_A)).
  - intros n Hn. vm_compute in Hn.
    repeat (apply elem_of_cons in Hn as [->|Hn]);
      [| |by apply not_elem_of_nil in Hn];
      intros ?%list_elem_of_singleton; discriminate.
  - discriminate.
Defined.

(** ** Labelled datasets *)

Lemma index_of_NoDup {A} `{EqDecision A} (l : list A) i v :
  NoDup l → l !! i = Some v → index_of v l = Some i.
Proof.
  intros Hnd Hi.
  destruct (index_of_elem v l) as [j Hj]; [by eapply list_elem_of_lookup_2|].
  rewrite Hj. f_equal. apply index_of_Some in Hj as [Hj _].
  by eapply NoDup_lookup.
Qed.

Lemma increasing_sublist (l r : list string) :
  r `sublist_of` l → increasing String.compare l = true →
  increasing String.compare r = true.
Proof.
  induction 1 as [|x r l Hsub IH|x r l Hsub IH]; intros Hinc; [done| |].
  - specialize (IH (increasing_tail _ _ _ Hinc)).
    destruct r as [|y r]; [done|]. apply increasing_cons. split; [|done].
    pose proof (increasing_Forall _ string_compare_trans _ _ Hinc) as Hall.
    rewrite Forall_forall in Hall. apply Hall.
    eapply elem_of_sublist; [|exact Hsub]. left.
  - apply IH. by eapply increasing_tail.
Qed.

Lemma Forall_lt_forallb n (l : list nat) :
  Forall (λ v, v < n) l → forallb (λ v, v <? n) l = true.
Proof.
  intros Hall. apply forallb_forall. intros v Hv%list_elem_of_In.
  rewrite Forall_forall in Hall. by apply Nat.ltb_lt, Hall.
Qed.

Lemma select_Ok_bound {A} (l : list A) idx r :
  select l idx = Ok r → Forall (λ i, i < length l) idx.
Proof.
  intros H%select_Ok. induction H as [|i v idx r Hi _ IH]; constructor; [|done].
  by eapply lookup_lt_Some.
Qed.

Section LabelledMore.
Context {X : Type}.
Implicit Types (self : LabelledDataset X) (keep : list string).

(** X13. On a sorted class list [class_to_int] and indexing are inverse: the
    index of the class at a position is that position, the class at the
    index of a class is that class, and a label that is no class raises
    [ValueError]. *)
Theorem class_to_int_inverse self :
  classes_sorted self = true →
  (∀ i c, _classes self !! i = Some c → class_to_int self c = Ok i) ∧
  (∀ c i, class_to_int self c = Ok i → _classes self !! i = Some c) ∧
  (∀ c, c ∉ _classes self → class_to_int self c = Raise ValueError).
Proof.
  intros Hsorted%increasing_strs_NoDup. unfold class_to_int.
  split; [|split].
  - intros i c Hi. apply list_index_Some. by apply index_of_NoDup.
  - intros c i. unfold list_index.
    destruct (index_of c (_classes self)) as [j|] eqn:Hj; [|done].
    intros [= <-]. by apply index_of_Some in Hj as [? _].
  - intros c Hc. apply list_index_None.
    destruct (index_of c (_classes self)) as [j|] eqn:Hj; [|done].
    exfalso. apply Hc. apply index_of_Some in Hj as [Hj _].
    by eapply list_elem_of_lookup_2.
Qed.

(** X14. [map_classes] with any mapping, on a dataset with valid labels and
    a class list that is not empty, returns normally: the new class list is
    the sorted set of the mapped names, the class of every instance is the
    image of the class it had, the labels are valid for the new list and
    the class counts are their tally; nothing of the base object changes. *)
Theorem map_classes_merge map self :
  labels_valid self = true →
  _classes self ≠ [] →
  let after := (map_classes map self).2 in
  (map_classes map self).1 = Ok tt ∧
  _classes after = sorted_strs ((λ c, dict_get map c c) <$> _classes self) ∧
  classes_sorted after = true ∧
  labels_valid after = true ∧
  class_counts_current after = true ∧
  base after = base self ∧
  ∃ labels, str_labels_of self = Ok labels ∧
            str_labels_of after = Ok ((λ c, dict_get map c c) <$> labels).
Proof.
  intros [Hdt Hall]%labels_valid_inv Hne after. subst after.
  set (mapped := (λ c, dict_get map c c) <$> _classes self).
  destruct (traverse_list_index_elem (sorted_strs mapped) mapped)
    as (arr_map & Harr & Hlen & Hbound).
  { intros v Hv. by apply elem_of_sorted_strs. }
  pose proof (traverse_list_index_select _ _ _ Harr) as Hsel.
  assert (Harr_ne : arr_map ≠ []).
  { intros ->. subst mapped. rewrite length_fmap in Hlen.
    destruct (_classes self); done. }
  destruct (select_in_range (_classes self) (data (_y self)))
    as (labels & Hlabels & _).
  { intros i Hi. rewrite Forall_forall in Hall. by apply Hall. }
  destruct (select_in_range arr_map (data (_y self))) as (y' & Hy' & Hylen).
  { intros i Hi. rewrite Forall_forall in Hall. specialize (Hall i Hi).
    unfold n_classes in Hall. subst mapped. rewrite length_fmap in Hlen. lia. }
  assert (Hy'_ne_dt : dt (np_array arr_map) = int64) by (by destruct arr_map).
  unfold map_classes. run_meth. fold mapped. rewrite Harr.
  unfold np_getitem_array, as_index, np_getitem_list. rewrite Hdt.
  cbn [mbind outcome_bind]. rewrite Hy'_ne_dt.
  replace (data (np_array arr_map)) with arr_map by done.
  rewrite Hy'. cbn [mbind outcome_bind]. unfold np_bincount. cbn [dt data].
  cbn [fst snd _classes _y _class_counts base set_classes set_y set_class_counts].
  split; [done|]. split; [done|].
  split; [apply sorted_strs_increasing|].
  assert (Hy'_bound : Forall (λ v, v < length (sorted_strs mapped)) y').
  { apply Forall_forall. intros v Hv.
    rewrite Forall_forall in Hbound. apply Hbound. by eapply select_elem. }
  split.
  { unfold labels_valid, n_classes. cbn. by apply Forall_lt_forallb. }
  split.
  { unfold class_counts_current, np_bincount. cbn. by apply bool_decide_eq_true. }
  split; [done|].
  exists labels. split; [done|]. unfold str_labels_of. cbn.
  fold (select (sorted_strs mapped) y').
  rewrite (select_compose _ _ _ _ _ Hsel Hy').
  subst mapped. by apply select_fmap.
Qed.

Section LabelledInitMore.
Variable load_backend : backend_cls → Path → outcome (Backend X).
Variable corpora : gmap string CorpusInfo.
Variable lower : string → string.

(** X15. A constructed labelled dataset gives every instance the class of
    its annotation; it has one valid label for each instance, a sorted
    class list without duplicates, and class counts that tally the labels
    and add up to the number of instances. *)
Theorem LabelledDataset_init_labels path label_dict annot self :
  LabelledDataset_init load_backend corpora lower path label_dict annot = Ok self →
  str_labels_of self = traverse (dict_getitem label_dict) (_names (base self)) ∧
  np_len (_y self) = n_instances (base self) ∧
  classes_sorted self = true ∧
  labels_valid self = true ∧
  class_counts_current self = true ∧
  (∃ counts, _class_counts self = Some counts ∧
             np_sum counts = n_instances (base self)).
Proof.
  intros Hinit.
  destruct (LabelledDataset_init_conditions _ _ _ _ _ _ _ Hinit)
    as (Hsorted & Hvalid & Hcur & _).
  unfold LabelledDataset_init in Hinit.
  destruct (Dataset_init _ _ _ _ _) as [d| |]; cbn in Hinit; [|done..].
  destruct (traverse (dict_getitem label_dict) (_names d)) as [labels| |] eqn:Hl;
    cbn in Hinit; [|done..].
  destruct (traverse (list_index (sorted_strs labels)) labels) as [y| |] eqn:Hy;
    cbn in Hinit; [|done..].
  destruct (np_bincount (np_array y) 0) as [c| |] eqn:Hc; cbn in Hinit; [|done..].
  injection Hinit as <-.
  assert (Hlen : np_len (np_array y) = length (_names d)).
  { unfold np_len. cbn. apply traverse_length in Hy, Hl. lia. }
  unfold str_labels_of, n_instances. cbn [_classes _y base _class_counts].
  split.
  { rewrite Hl. apply (traverse_list_index_select (sorted_strs labels) labels y Hy). }
  split; [done|]. split; [done|]. split; [done|]. split; [done|].
  apply np_bincount_Ok in Hc as (_ & _ & Hsum).
  exists c. split; [done|]. by rewrite Hsum.
Qed.

(** X16. With a label annotation that lacks an instance name the constructor
    raises [KeyError] for the first such name. *)
Theorem LabelledDataset_init_missing_label path label_dict annot d pre n rest :
  Dataset_init load_backend corpora lower path annot = Ok d →
  _names d = pre ++ n :: rest →
  (∀ m, m ∈ pre → is_Some (label_dict !! m)) →
  label_dict !! n = None →
  LabelledDataset_init load_backend corpora lower path label_dict annot
  = Raise (KeyError n).
Proof.
  intros Hd Hnames Hpre Hn. unfold LabelledDataset_init. rewrite Hd.
  cbn [mbind outcome_bind]. rewrite Hnames.
  rewrite (traverse_Raise (dict_getitem label_dict) pre n rest (KeyError n)); [done| |].
  - intros m [v Hv]%Hpre. exists v. unfold dict_getitem. by rewrite Hv.
  - unfold dict_getitem. by rewrite Hn.
Qed.

End LabelledInitMore.

End LabelledMore.

Lemma class_to_int_inverse_witness :
  class_to_int Scenario.object_A "sad" = Ok 1 ∧
  class_to_int Scenario.object_A "angry" = Raise ValueError.
Proof.
  destruct (class_to_int_inverse Scenario.object_A) as (Hto & _ & Hnone).
  - vm_compute. reflexivity.
  - split; [by apply Hto|]. apply Hnone.
    intros Hin. vm_compute in Hin.
    repeat (apply elem_of_cons in Hin as [[=]|Hin]).
    by apply not_elem_of_nil in Hin.
Defined.

Lemma map_classes_merge_witness :
  let after := (map_classes (<["sad" := "happy"]> ∅) Scenario.object_A).2 in
  (map_classes (<["sad" := "happy"]> ∅) Scenario.object_A).1 = Ok tt ∧
  _classes after = ["happy"] ∧
  _y after = mk_ndarray int64 [0; 0] ∧
  _class_counts after = Some (mk_ndarray int64 [2]) ∧
  str_labels_of after = Ok ["happy"; "happy"].
Proof.
  destruct (map_classes_merge (<["sad" := "happy"]> ∅) Scenario.object_A)
    as (Hok & Hcl & _ & _ & _ & _ & labels & Hl & Hafter).
  - vm_compute. reflexivity.
  - discriminate.
  - intros after. subst after. split; [exact Hok|].
    split; [vm_compute; reflexivity|]. split; [vm_compute; reflexivity|].
    split; [vm_compute; reflexivity|].
    assert (labels = ["happy"; "sad"]) as ->.
    { vm_compute in Hl. by injection Hl. }
    rewrite Hafter. vm_compute. reflexivity.
Defined.

Lemma LabelledDataset_init_labels_witness :
  str_labels_of Scenario.object_A = Ok ["happy"; "sad"] ∧
  np_len (_y Scenario.object_A) = 2 ∧
  (∃ counts, _class_counts Scenario.object_A = Some counts ∧ np_sum counts = 2).
Proof.
  destruct (LabelledDataset_init_labels Scenario.load Scenario.registry Scenario.lower
              Scenario.path_A Scenario.labels_A (Some Scenario.speakers_A)
              Scenario.object_A)
    as (Hlabels & Hlen & _ & _ & _ & Hcounts).
  - vm_compute. reflexivity.
  - split; [rewrite Hlabels; vm_compute; reflexivity|].
    split; [exact Hlen|exact Hcounts].
Defined.

Lemma LabelledDataset_init_missing_label_witness :
  LabelledDataset_init Scenario.load Scenario.registry Scenario.lower Scenario.path_A
    Scenario2.labels_partial (Some Scenario.speakers_A)
  = Raise (KeyError "a2").
Proof.
  apply (LabelledDataset_init_missing_label Scenario.load Scenario.registry Scenario.lower
           Scenario.path_A Scenario2.labels_partial (Some Scenario.speakers_A)
           (base Scenario.object_A) ["a1"] "a2" []).
  - vm_compute. reflexivity.
  - reflexivity.
  - intros m ->%list_elem_of_singleton. vm_compute. by eexists.
  - vm_compute. reflexivity.
Defined.

(** ** Removing instances and classes of a labelled dataset *)

Section LabelledRemove.
Context {X : Type}.
Implicit Types (self : LabelledDataset X) (keep : list string).

(** What a normal return of the override tells. *)
Lemma LabelledDataset_remove_instances_Ok keep self :
  (LabelledDataset_remove_instances keep self).1 = Ok tt →
  let idx := positions (contains keep) (_names (base self)) in
  let after := (LabelledDataset_remove_instances keep self).2 in
  ∃ kept counts,
    np_getitem_list (_y self) idx = Ok kept ∧
    np_bincount (_y after) 0 = Ok counts ∧
    _class_counts after = Some counts ∧
    base after = (remove_instances keep (base self)).2 ∧
    (remove_instances keep (base self)).1 = Ok tt ∧
    ((np_len (np_unique kept) < length (_classes self) ∧
      ∃ y', traverse (list_getitem_np (_classes self) (dt kept))
              (data (np_unique kept)) = Ok (_classes after) ∧
            traverse (λ i,
                v ← list_getitem (data (_y self)) i;
                c ← list_getitem_np (_classes self) (dt (_y self)) v;
                list_index (_classes after) c) idx = Ok y' ∧
            _y after = np_array y') ∨
     (length (_classes self) ≤ np_len (np_unique kept) ∧
      _classes after = _classes self ∧ _y after = kept)).
Proof.
  unfold LabelledDataset_remove_instances, on_base. run_meth.
  destruct (np_getitem_list _ _) as [kept| |]; cbn; [|done..].
  case_bool_decide as Hlt; cbn.
  - destruct (traverse _ (sorted_set _ _)) as [new_classes| |] eqn:Hnew; cbn; [|done..].
    destruct (traverse _ (positions _ _)) as [y'| |] eqn:Hy'; cbn; [|done..].
    destruct (np_bincount (np_array y') 0) as [counts| |] eqn:Hc; cbn; [|done..].
    intros Hbase. exists kept, counts. repeat split; try done.
    left. split; [done|]. by exists y'.
  - destruct (np_bincount kept 0) as [counts| |] eqn:Hc; cbn; [|done..].
    intros Hbase. exists kept, counts. repeat split; try done.
    right. split; [lia|done].
Qed.

(** X17. After a call of [LabelledDataset.remove_instances] that returns
    normally, every kept instance has the class it had; the class list is a
    sublist of the former one and still sorted, the labels are valid
    indices into it, one for each remaining name, and the class counts are
    their tally. *)
Theorem LabelledDataset_remove_instances_Ok_labels keep self labels :
  str_labels_of self = Ok labels →
  classes_sorted self = true →
  (LabelledDataset_remove_instances keep self).1 = Ok tt →
  let after := (LabelledDataset_remove_instances keep self).2 in
  str_labels_of after
  = select labels (positions (contains keep) (_names (base self))) ∧
  _classes after `sublist_of` _classes self ∧
  classes_sorted after = true ∧
  labels_valid after = true ∧
  class_counts_current after = true ∧
  np_len (_y after) = n_instances (base after).
Proof.
  intros Hlabels Hsorted Hok after.
  destruct (LabelledDataset_remove_instances_Ok keep self Hok)
    as (kept & counts & Hkept & Hc & Hcc & Hbase & _ & Hcase).
  fold after in Hc, Hcc, Hbase, Hcase.
  set (idx := positions (contains keep) (_names (base self))) in *.
  assert (Hnames : n_instances (base after) = length idx).
  { unfold n_instances. rewrite Hbase, remove_instances_names_filter.
    rewrite <- filter_contains. unfold idx, positions.
    by rewrite length_positions_from. }
  assert (Hcur : class_counts_current after = true).
  { unfold class_counts_current. rewrite Hc. by apply bool_decide_eq_true. }
  apply np_bincount_Ok in Hc as (Hdt & _ & _).
  unfold np_getitem_list in Hkept.
  destruct (select (data (_y self)) idx) as [d| |] eqn:Hd; cbn in Hkept; [|done..].
  injection Hkept as <-.
  unfold str_labels_of in Hlabels |- *. fold (select (_classes self) (data (_y self))) in Hlabels.
  fold (select (_classes after) (data (_y after))).
  unfold classes_sorted, labels_valid, n_classes.
  destruct Hcase as [(Hlt & y' & Hnew & Hy' & Hy)|(Hge & Hcl & Hy)].
  - rewrite Hy in Hdt |- *. cbn [dt data np_unique] in Hnew.
    assert (Hdty : dt (_y self) = int64).
    { destruct y' as [|k y']; [done|].
      destruct idx as [|i idx']; [done|].
      cbn [traverse] in Hy'.
      destruct (list_getitem (data (_y self)) i); cbn in Hy'; [|done..].
      by destruct (dt (_y self)). }
    rewrite Hdty in Hnew, Hy'. unfold list_getitem_np in Hnew, Hy'.
    destruct (reindexed_names _ _ _ _ _ _ Hlabels Hy') as (names & Hn1 & Hn2 & Hall).
    replace (data (np_array y')) with y' by done.
    assert (Hsub : _classes after `sublist_of` _classes self).
    { change (_classes self) with (drop 0 (_classes self)).
      apply (select_increasing_sublist _ (sorted_set Nat.compare d)).
      - apply (np_unique_increasing (mk_ndarray int64 d)).
      - destruct (sorted_set Nat.compare d); [done|lia].
      - exact Hnew. }
    split; [by rewrite Hn1, Hn2|]. split; [done|].
    split; [by eapply increasing_sublist|].
    split; [rewrite Hdt; cbn; by apply Forall_lt_forallb|].
    split; [done|].
    rewrite Hnames. unfold np_len. cbn. by eapply traverse_length.
  - rewrite Hy in Hdt |- *. rewrite Hcl. cbn [dt data] in Hdt |- *.
    split; [by eapply select_compose|]. split; [done|]. split; [done|].
    split.
    { rewrite Hdt. cbn. apply Forall_lt_forallb, Forall_forall. intros v Hv.
      apply select_Ok_bound in Hlabels. rewrite Forall_forall in Hlabels.
      apply Hlabels. by eapply select_elem. }
    split; [done|].
    rewrite Hnames. unfold np_len. cbn. by eapply select_length.
Qed.

(** X18. A call of [LabelledDataset.remove_instances] that keeps no instance
    of a dataset with classes raises [TypeError] at the tally of the
    labels, which are by then an empty float64 array: the class list and
    the labels are emptied, and the base method is never reached, so names,
    features and speakers stay as they were. *)
Theorem LabelledDataset_remove_instances_keep_none keep self :
  (∀ n, n ∈ _names (base self) → n ∉ keep) →
  _classes self ≠ [] →
  let r := LabelledDataset_remove_instances keep self in
  r.1 = Raise TypeError ∧
  _classes r.2 = [] ∧
  _y r.2 = mk_ndarray float64 [] ∧
  _class_counts r.2 = _class_counts self ∧
  base r.2 = base self.
Proof.
  intros Hnone Hcl r. subst r.
  assert (Hidx : positions (contains keep) (_names (base self)) = []).
  { apply positions_from_none. intros n Hn. unfold contains.
    apply bool_decide_eq_false. by apply Hnone. }
  unfold LabelledDataset_remove_instances. run_meth. rewrite Hidx.
  cbn [select traverse np_getitem_list mbind outcome_bind np_unique sorted_set
       foldr data dt np_len length].
  rewrite bool_decide_eq_true_2 by (destruct (_classes self); [done|cbn; lia]).
  cbn. done.
Qed.

Lemma bincount_data_nil n : bincount_data [] n = replicate n 0.
Proof.
  unfold bincount_data. rewrite Nat.max_0_l. generalize 0 at 1.
  induction n as [|n IH]; intros s; [done|]. cbn. f_equal. apply IH.
Qed.

Lemma length_filter_positions keep (l : list string) :
  length (filter (λ c, c ∈ keep) l) = length (positions (contains keep) l).
Proof.
  rewrite <- filter_contains. unfold positions. by rewrite length_positions_from.
Qed.

(** The run of [remove_classes] on a dataset with valid labels, each with
    its name, feature row and integer speaker index: every step before the
    tally of the new labels completes, and the tally fails exactly when no
    label is left. *)
Lemma remove_classes_run keep self :
  labels_valid self = true →
  labels_covered self = true →
  ∃ labels x' names' si y',
    str_labels_of self = Ok labels ∧
    length labels = np_len (_y self) ∧
    select (_x (base self)) (positions (contains keep) labels) = Ok x' ∧
    select (_names (base self)) (positions (contains keep) labels) = Ok names' ∧
    select (data (_speaker_indices (base self))) (positions (contains keep) labels)
    = Ok si ∧
    traverse (list_index (sorted_strs (filter (λ c, c ∈ keep) (_classes self))))
      (filter (λ c, c ∈ keep) labels) = Ok y' ∧
    let b := base self in
    let st cc :=
      {| base :=
           {| _corpus := _corpus b;
              _names := names';
              _features := _features b;
              _x := x';
              _speakers := _speakers b;
              _male_speakers := _male_speakers b;
              _female_speakers := _female_speakers b;
              _speaker_groups := _speaker_groups b;
              _speaker_indices := mk_ndarray int64 si;
              _speaker_counts :=
                Some (mk_ndarray int64 (bincount_data si (length (_speakers b))));
              _male_indices := _male_indices b;
              _female_indices := _female_indices b;
              _speaker_group_indices := mk_ndarray int64 si |};
         _classes := sorted_strs (filter (λ c, c ∈ keep) (_classes self));
         _y := np_array y';
         _class_counts := cc |} in
    remove_classes keep self =
    match y' with
    | [] => (Raise TypeError, st (_class_counts self))
    | _ => (Ok tt, st (Some (mk_ndarray int64 (bincount_data y' 0))))
    end.
Proof.
  intros [Hdt Hall]%labels_valid_inv Hcov.
  unfold labels_covered in Hcov.
  apply andb_prop in Hcov as [[[Hn Hx]%andb_prop Hs]%andb_prop Hsi].
  apply Nat.leb_le in Hn, Hx, Hs. apply bool_decide_eq_true in Hsi.
  unfold np_len in *.
  destruct (select_in_range (_classes self) (data (_y self))) as (labels & Hlabels & Hlen).
  { intros i Hi. rewrite Forall_forall in Hall. by apply Hall. }
  set (keep_idx := positions (contains keep) labels).
  assert (Hidx : ∀ i, i ∈ keep_idx → i < length (data (_y self))).
  { intros i Hi%positions_bound. lia. }
  destruct (select_in_range (_x (base self)) keep_idx) as (x' & Hx' & _).
  { intros i Hi%Hidx. lia. }
  destruct (select_in_range (_names (base self)) keep_idx) as (names' & Hnames' & _).
  { intros i Hi%Hidx. lia. }
  destruct (select_in_range (data (_speaker_indices (base self))) keep_idx)
    as (si & Hsi' & _).
  { intros i Hi%Hidx. lia. }
  destruct (traverse_list_index_elem
              (sorted_strs (filter (λ c, c ∈ keep) (_classes self)))
              (filter (λ c, c ∈ keep) labels)) as (y' & Hy' & Hylen & _).
  { intros v [Hk Hv]%list_elem_of_filter.
    apply elem_of_sorted_strs, list_elem_of_filter. split; [done|].
    by eapply select_elem. }
  exists labels, x', names', si, y'.
  split; [done|]. split; [done|]. fold keep_idx.
  split; [done|]. split; [done|]. split; [done|]. split; [done|].
  unfold remove_classes, str_labels_of. run_meth.
  fold (select (_classes self) (data (_y self))).
  rewrite Hlabels. fold keep_idx. rewrite Hx', Hnames'.
  unfold np_getitem_list. rewrite Hsi'. cbn [mbind outcome_bind].
  unfold np_bincount at 1. cbn [dt]. rewrite Hsi.
  rewrite Hy'.
  destruct y' as [|k y']; cbn -[count bincount_data]; reflexivity.
Qed.

(** X19. [remove_classes], on a dataset with valid and covered labels of
    which some class is in [keep], returns normally and keeps exactly the
    instances whose class is in [keep]: names, feature rows and speaker
    indices are read at their positions, each kept instance has the class
    it had, the class list is the sorted part of the former one that is in
    [keep], and the labels are again valid, covered and tallied. *)
Theorem remove_classes_filter keep self labels :
  labels_valid self = true →
  labels_covered self = true →
  str_labels_of self = Ok labels →
  (∃ c, c ∈ labels ∧ c ∈ keep) →
  let after := (remove_classes keep self).2 in
  let keep_idx := positions (contains keep) labels in
  (remove_classes keep self).1 = Ok tt ∧
  select (_names (base self)) keep_idx = Ok (_names (base after)) ∧
  select (_x (base self)) keep_idx = Ok (_x (base after)) ∧
  np_getitem_list (_speaker_indices (base self)) keep_idx
  = Ok (_speaker_indices (base after)) ∧
  str_labels_of after = Ok (filter (λ c, c ∈ keep) labels) ∧
  _classes after = sorted_strs (filter (λ c, c ∈ keep) (_classes self)) ∧
  classes_sorted after = true ∧
  labels_valid after = true ∧
  labels_covered after = true ∧
  class_counts_current after = true.
Proof.
  intros Hvalid Hcov Hlabels (c & Hc & Hk) after keep_idx. subst after.
  destruct (remove_classes_run keep self Hvalid Hcov)
    as (labels' & x' & names' & si & y' & Hl & Hlen & Hx' & Hnames' & Hsi & Hy' & Hrun).
  rewrite Hlabels in Hl. injection Hl as <-. fold keep_idx in Hx', Hnames', Hsi.
  cbv zeta in Hrun.
  destruct (traverse_list_index_bound _ _ _ Hy') as [Hbound Hylen].
  assert (Hne : y' ≠ []).
  { intros ->. cbn in Hylen.
    assert (Hin : c ∈ filter (λ c, c ∈ keep) labels) by by apply list_elem_of_filter.
    destruct (filter (λ c, c ∈ keep) labels); [by apply not_elem_of_nil in Hin|done]. }
  assert (Hdt : dt (_speaker_indices (base self)) = int64).
  { unfold labels_covered in Hcov. apply andb_prop in Hcov as [_ Hcov].
    by apply bool_decide_eq_true in Hcov. }
  destruct y' as [|k y0]; [done|]. rewrite Hrun.
  set (y' := k :: y0) in *.
  assert (Hint : dt (np_array y') = int64) by done.
  cbn [fst snd base _names _x _speaker_indices _classes _y _class_counts].
  split; [done|]. split; [done|]. split; [done|].
  split; [unfold np_getitem_list; by rewrite Hsi, Hdt|].
  split.
  { unfold str_labels_of. cbn [_classes _y].
    replace (data (np_array y')) with y' by done.
    by apply (traverse_list_index_select _ _ _ Hy'). }
  split; [done|]. split; [apply sorted_strs_increasing|].
  split.
  { unfold labels_valid, n_classes. cbn [_classes _y]. rewrite Hint.
    replace (data (np_array y')) with y' by done.
    apply andb_true_intro.
    split; [by apply bool_decide_eq_true|by apply Forall_lt_forallb]. }
  split.
  { unfold labels_covered, np_len. cbn [base _names _x _speaker_indices _y data dt].
    replace (data (np_array y')) with y' by done.
    apply select_length in Hx', Hnames', Hsi.
    pose proof (length_filter_positions keep labels) as Hf. fold keep_idx in Hf.
    rewrite !andb_true_iff, !Nat.leb_le, bool_decide_eq_true.
    unfold keep_idx in *. repeat split; lia. }
  unfold class_counts_current, np_bincount. cbn [_y _class_counts]. rewrite Hint.
  replace (data (np_array y')) with y' by done.
  by apply bool_decide_eq_true.
Qed.

(** X20. [remove_classes] with a [keep] that holds the class of no instance
    raises [TypeError] at the tally of the new labels, an empty float64
    array; by then names, feature rows and labels are emptied, and the
    speaker counts are zero for every speaker, while the class counts are
    those of before the call. *)
Theorem remove_classes_none_kept keep self labels :
  labels_valid self = true →
  labels_covered self = true →
  str_labels_of self = Ok labels →
  (∀ c, c ∈ labels → c ∉ keep) →
  let r := remove_classes keep self in
  r.1 = Raise TypeError ∧
  _names (base r.2) = [] ∧
  _x (base r.2) = [] ∧
  _speaker_indices (base r.2) = mk_ndarray int64 [] ∧
  _speaker_counts (base r.2) = Some (np_zeros (length (_speakers (base self)))) ∧
  _y r.2 = mk_ndarray float64 [] ∧
  _class_counts r.2 = _class_counts self.
Proof.
  intros Hvalid Hcov Hlabels Hnone r. subst r.
  destruct (remove_classes_run keep self Hvalid Hcov)
    as (labels' & x' & names' & si & y' & Hl & Hlen & Hx' & Hnames' & Hsi & Hy' & Hrun).
  rewrite Hlabels in Hl. injection Hl as <-. cbv zeta in Hrun.
  assert (Hidx : positions (contains keep) labels = []).
  { apply positions_from_none. intros c Hc. unfold contains.
    apply bool_decide_eq_false. by apply Hnone. }
  rewrite Hidx in Hx', Hnames', Hsi.
  injection Hx' as <-. injection Hnames' as <-. injection Hsi as <-.
  pose proof (length_filter_positions keep labels) as Hf. rewrite Hidx in Hf.
  apply traverse_length in Hy'. rewrite Hf in Hy'.
  destruct y' as [|? ?]; [|done]. rewrite Hrun.
  cbn [fst snd base _names _x _speaker_indices _speaker_counts _y _class_counts].
  repeat split; try done.
  unfold np_zeros. by rewrite bincount_data_nil.
Qed.

Lemma filter_all {A} (P : A → Prop) `{∀ x, Decision (P x)} (l : list A) :
  (∀ x, x ∈ l → P x) → filter P l = l.
Proof.
  induction l as [|a l IH]; intros Hall; [done|].
  rewrite filter_cons_True by (apply Hall; left).
  f_equal. apply IH. intros x Hx. apply Hall. by right.
Qed.

(** X21. [remove_classes] is idempotent: after a call that returned
    normally, a second call with the same [keep] returns normally and
    leaves every attribute as the first call set it. *)
Theorem remove_classes_idempotent keep self :
  labels_valid self = true →
  labels_covered self = true →
  (remove_classes keep self).1 = Ok tt →
  remove_classes keep (remove_classes keep self).2
  = (Ok tt, (remove_classes keep self).2).
Proof.
  intros Hvalid Hcov Hok.
  destruct (remove_classes_run keep self Hvalid Hcov)
    as (labels & x' & names' & si & y' & Hl & Hlen & Hx' & Hnames' & Hsi & Hy' & Hrun).
  cbv zeta in Hrun.
  destruct y' as [|k y0]; [by rewrite Hrun in Hok|]. clear Hok.
  set (y' := k :: y0) in *.
  set (fl := filter (λ c, c ∈ keep) labels) in *.
  set (classes' := sorted_strs (filter (λ c, c ∈ keep) (_classes self))) in *.
  destruct (traverse_list_index_bound _ _ _ Hy') as [Hbound Hylen].
  pose proof (length_filter_positions keep labels) as Hf. fold fl in Hf.
  pose proof (select_length _ _ _ Hx') as Hxl.
  pose proof (select_length _ _ _ Hnames') as Hnl.
  pose proof (select_length _ _ _ Hsi) as Hsl.
  rewrite Hrun. cbn [snd].
  match goal with |- remove_classes keep ?st = _ => set (after := st) end.
  assert (Hvalid' : labels_valid after = true).
  { unfold labels_valid, n_classes. cbn [after _classes _y].
    apply andb_true_intro.
    split; [by apply bool_decide_eq_true|by apply Forall_lt_forallb]. }
  assert (Hcov' : labels_covered after = true).
  { unfold labels_covered, np_len. cbn [after base _names _x _speaker_indices _y data dt].
    replace (data (np_array y')) with y' by done.
    rewrite !andb_true_iff, !Nat.leb_le, bool_decide_eq_true.
    repeat split; lia. }
  destruct (remove_classes_run keep after Hvalid' Hcov')
    as (labels2 & x2 & names2 & si2 & y2 & Hl2 & _ & Hx2 & Hn2 & Hsi2 & Hy2 & Hrun2).
  cbv zeta in Hrun2. rewrite Hrun2. clear Hrun2.
  unfold str_labels_of in Hl2.
  cbn [after base _names _x _speaker_indices _classes _y data] in Hl2, Hx2, Hn2, Hsi2, Hy2.
  replace (data (np_array y')) with y' in Hl2 by done.
  fold (select classes' y') in Hl2.
  rewrite (traverse_list_index_select _ _ _ Hy') in Hl2. injection Hl2 as <-.
  assert (Hall : ∀ c, c ∈ fl → c ∈ keep).
  { by intros c [? _]%list_elem_of_filter. }
  rewrite (positions_all (contains keep) fl) in Hx2, Hn2, Hsi2
    by (intros c Hc; apply bool_decide_eq_true; by apply Hall).
  replace (length fl) with (length x') in Hx2 by lia.
  replace (length fl) with (length names') in Hn2 by lia.
  replace (length fl) with (length si) in Hsi2 by lia.
  rewrite select_all in Hx2. rewrite select_all in Hn2. rewrite select_all in Hsi2.
  injection Hx2 as <-. injection Hn2 as <-. injection Hsi2 as <-.
  assert (Hcl : sorted_strs (filter (λ c, c ∈ keep) classes') = classes').
  { rewrite filter_all.
    - apply sorted_strs_id, sorted_strs_increasing.
    - by intros c [? _]%elem_of_sorted_strs%list_elem_of_filter. }
  rewrite Hcl, (filter_all _ fl Hall), Hy' in Hy2. injection Hy2 as <-.
  unfold after.
  cbn [base _corpus _names _features _x _speakers _male_speakers _female_speakers
       _speaker_groups _speaker_indices _speaker_counts _male_indices
       _female_indices _speaker_group_indices _classes _y _class_counts].
  fold classes'. rewrite Hcl. reflexivity.
Qed.

End LabelledRemove.

Lemma LabelledDataset_remove_instances_Ok_labels_witness :
  let after := (LabelledDataset_remove_instances ["a2"] Scenario.object_A).2 in
  str_labels_of after = Ok ["sad"] ∧
  _classes after `sublist_of` ["happy"; "sad"] ∧
  classes_sorted after = true ∧
  labels_valid after = true ∧
  class_counts_current after = true ∧
  np_len (_y after) = n_instances (base after).
Proof.
  apply (LabelledDataset_remove_instances_Ok_labels ["a2"] Scenario.object_A
           ["happy"; "sad"]).
  - vm_compute. reflexivity.
  - vm_compute. reflexivity.
  - vm_compute. reflexivity.
Defined.

Lemma LabelledDataset_remove_instances_keep_none_witness :
  let r := LabelledDataset_remove_instances ["b1"] Scenario.object_A in
  r.1 = Raise TypeError ∧
  _classes r.2 = [] ∧
  _y r.2 = mk_ndarray float64 [] ∧
  _class_counts r.2 = Some (mk_ndarray int64 [1; 1]) ∧
  base r.2 = base Scenario.object_A.
Proof.
  apply (LabelledDataset_remove_instances_keep_none ["b1"] Scenario.object_A).
  - intros n Hn. vm_compute in Hn.
    repeat (apply elem_of_cons in Hn as [->|Hn]);
      [| |by apply not_elem_of_nil in Hn];
      intros ?%list_elem_of_singleton; discriminate.
  - discriminate.
Defined.

Lemma remove_classes_filter_witness :
  let after := (remove_classes ["sad"] Scenario.object_A).2 in
  (remove_classes ["sad"] Scenario.object_A).1 = Ok tt ∧
  _names (base after) = ["a2"] ∧
  str_labels_of after = Ok ["sad"] ∧
  _classes after = ["sad"] ∧
  labels_valid after = true ∧
  class_counts_current after = true.
Proof.
  destruct (remove_classes_filter ["sad"] Scenario.object_A ["happy"; "sad"])
    as (Hok & _ & _ & _ & Hlabels & Hcl & _ & Hvalid & _ & Hcur).
  - vm_compute. reflexivity.
  - vm_compute. reflexivity.
  - vm_compute. reflexivity.
  - exists "sad". split; [right; left|left].
  - intros after. subst after. split; [exact Hok|].
    split; [vm_compute; reflexivity|].
    split; [rewrite Hlabels; vm_compute; reflexivity|].
    split; [rewrite Hcl; vm_compute; reflexivity|].
    split; [exact Hvalid|exact Hcur].
Defined.

Lemma remove_classes_none_kept_witness :
  let r := remove_classes ["angry"] Scenario.object_A in
  r.1 = Raise TypeError ∧
  _names (base r.2) = [] ∧
  _x (base r.2) = [] ∧
  _speaker_indices (base r.2) = mk_ndarray int64 [] ∧
  _speaker_counts (base r.2) = Some (mk_ndarray int64 [0; 0]) ∧
  _y r.2 = mk_ndarray float64 [] ∧
  _class_counts r.2 = Some (mk_ndarray int64 [1; 1]).
Proof.
  apply (remove_classes_none_kept ["angry"] Scenario.object_A ["happy"; "sad"]).
  - vm_compute. reflexivity.
  - vm_compute. reflexivity.
  - vm_compute. reflexivity.
  - intros c Hc.
    repeat (apply elem_of_cons in Hc as [->|Hc]);
      [| |by apply not_elem_of_nil in Hc];
      intros ?%list_elem_of_singleton; discriminate.
Defined.

Lemma remove_classes_idempotent_witness :
  remove_classes ["sad"] (remove_classes ["sad"] Scenario.object_A).2
  = (Ok tt, (remove_classes ["sad"] Scenario.object_A).2).
Proof.
  apply (remove_classes_idempotent ["sad"] Scenario.object_A).
  - vm_compute. reflexivity.
  - vm_compute. reflexivity.
  - vm_compute. reflexivity.
Defined.

(** ** Male and female indices *)

Section GenderMore.
Context {X : Type}.
Implicit Types (self : Dataset X).

(** X22. [_reset_male_female_indices] on a dataset with valid speaker
    indices returns normally. When both speaker lists are configured, the
    male indices are exactly the positions of the instances whose speaker
    is in the male list, likewise the female indices, and nothing else
    changes; when one of the lists is empty the call changes nothing, so
    index tuples set earlier stay. *)
Theorem reset_male_female_indices_spec self :
  speakers_valid self = true →
  let after := (_reset_male_female_indices self).2 in
  (_reset_male_female_indices self).1 = Ok tt ∧
  if gender_configured self then
    ∃ sn m f,
      speaker_names self = Ok sn ∧
      _male_indices after = Some m ∧ _female_indices after = Some f ∧
      (∀ i, i ∈ m ↔ ∃ s, sn !! i = Some s ∧ s ∈ _male_speakers self) ∧
      (∀ i, i ∈ f ↔ ∃ s, sn !! i = Some s ∧ s ∈ _female_speakers self) ∧
      after = set_female_indices (Some f) (set_male_indices (Some m) self)
  else after = self.
Proof.
  intros Hvalid after. subst after.
  unfold speakers_valid in Hvalid. apply andb_prop in Hvalid as [Hdt Hall].
  apply bool_decide_eq_true in Hdt. apply forallb_Forall_lt in Hall.
  destruct (select_in_range (_speakers self) (data (_speaker_indices self)))
    as (sn & Hsn & _).
  { intros i Hi. rewrite Forall_forall in Hall. by apply Hall. }
  unfold _reset_male_female_indices, male_female_indices, gender_configured,
    isin_nonzero, as_index.
  run_meth. rewrite Hdt. cbn [mbind outcome_bind]. rewrite Hsn.
  case_bool_decide as Hconf; cbn; [|done].
  split; [done|].
  exists sn, (np_nonzero (contains (_male_speakers self) <$> sn)),
    (np_nonzero (contains (_female_speakers self) <$> sn)).
  unfold speaker_names. split; [done|]. split; [done|]. split; [done|].
  assert (Hpos : ∀ group i,
            i ∈ np_nonzero (contains group <$> sn)
            ↔ ∃ s, sn !! i = Some s ∧ s ∈ group).
  { intros group i. unfold np_nonzero. rewrite elem_of_positions.
    rewrite list_lookup_fmap. split.
    - intros (b & Hb & Hid). destruct (sn !! i) as [s|]; [|done].
      cbn in Hb. injection Hb as <-. exists s. split; [done|].
      by apply bool_decide_eq_true in Hid.
    - intros (s & -> & Hs). exists true. split; [|done].
      cbn. f_equal. by apply bool_decide_eq_true. }
  split; [apply Hpos|]. split; [apply Hpos|done].
Qed.

End GenderMore.

Lemma reset_male_female_indices_spec_witness :
  let after := (_reset_male_female_indices Scenario2.gendered).2 in
  (_reset_male_female_indices Scenario2.gendered).1 = Ok tt ∧
  _male_indices after = Some [0] ∧ _female_indices after = Some [1].
Proof.
  destruct (reset_male_female_indices_spec Scenario2.gendered) as [Hok _].
  - vm_compute. reflexivity.
  - intros after. split; [exact Hok|]. split; vm_compute; reflexivity.
Defined.

(** ** Combined datasets *)

Lemma positions_from_ext {A} (p q : A → bool) s (l : list A) :
  (∀ v, v ∈ l → p v = q v) → positions_from p s l = positions_from q s l.
Proof.
  revert s. induction l as [|a l IH]; intros s Hext; [done|].
  cbn [positions_from]. rewrite (Hext a) by left.
  rewrite (IH (S s)) by (intros v Hv; apply Hext; by right). done.
Qed.

Lemma traverse_Forall {A B} (f : A → outcome B) (l : list A) :
  Forall (λ a, ∃ b, f a = Ok b) l → ∃ r, traverse f l = Ok r.
Proof.
  induction 1 as [|a l [b Hb] _ [r Hr]]; [by exists []|].
  exists (b :: r). rewrite traverse_cons, Hb. cbn. by rewrite Hr.
Qed.

Section CombinedMore.
Context {X : Type}.
Variable same_layout : list (list X) → bool.
Implicit Types (self : CombinedDataset X) (datasets : list (LabelledDataset X)).

(** What a combination that was built tells about the steps of its
    constructor. *)
Lemma CombinedDataset_init_Ok datasets labels self :
  CombinedDataset_init same_layout datasets labels = Ok self →
  ∃ per y,
    traverse str_labels_of datasets = Ok per ∧
    datasets ≠ [] ∧
    same_layout ((λ d, _x (base d)) <$> datasets) = true ∧
    let acc := foldl merge_step (mk_merged [] [] [] []) datasets in
    let all_si := mk_ndarray (promote (m_speaker_indices acc))
                    (concat (data <$> m_speaker_indices acc)) in
    let all_labels := datasets ≫= _classes in
    _speakers (base (labelled self)) = m_speakers acc ∧
    _speaker_groups (base (labelled self)) = m_speaker_groups acc ∧
    _speaker_group_indices (base (labelled self))
    = _speaker_indices (base (labelled self)) ∧
    _y (labelled self) = np_array y ∧
    match labels with
    | None =>
        _x (base (labelled self)) = concat ((λ d, _x (base d)) <$> datasets) ∧
        _speaker_indices (base (labelled self)) = all_si ∧
        _classes (labelled self) = sorted_strs all_labels ∧
        traverse (list_index (sorted_strs all_labels)) (concat per) = Ok y
    | Some l =>
        let drop_labels := filter (λ c, c ∉ l) all_labels in
        let keep_idx :=
          positions (λ c, negb (contains drop_labels c)) (concat per) in
        select (concat ((λ d, _x (base d)) <$> datasets)) keep_idx
        = Ok (_x (base (labelled self))) ∧
        np_getitem_list all_si keep_idx
        = Ok (_speaker_indices (base (labelled self))) ∧
        _classes (labelled self) = sorted_strs l ∧
        traverse (list_index (sorted_strs l))
          (filter (λ c, c ∉ drop_labels) (concat per)) = Ok y
    end.
Proof.
  unfold CombinedDataset_init. intros H.
  destruct datasets as [|d0 ds]; [done|].
  unfold np_bincount, np_repeat_arange in H. cbn [dt mbind outcome_bind] in H.
  unfold list_getitem in H.
  cbn [lookup list_lookup of_option mbind outcome_bind] in H.
  unfold np_concatenate in H.
  destruct (m_speaker_indices _) as [|a0 l0] eqn:Hl0 in H; [done|].
  destruct (m_speaker_group_indices _) as [|a1 l1] eqn:Hl1 in H; [done|].
  cbn [mbind outcome_bind] in H.
  unfold np_concatenate_x in H. cbn [fmap list_fmap] in H.
  destruct (same_layout _) eqn:Hlayout in H; [|done].
  cbn [mbind outcome_bind] in H.
  destruct (traverse str_labels_of (d0 :: ds)) as [per| |] eqn:Hper; [|done..].
  cbn [mbind outcome_bind] in H.
  destruct labels as [l|].
  - destruct (select _ _) as [x'| |] eqn:Hx' in H; [|done..].
    cbn [mbind outcome_bind] in H.
    destruct (np_getitem_list _ _) as [si| |] eqn:Hsi in H; [|done..].
    cbn [mbind outcome_bind] in H.
    destruct (traverse (list_index _) _) as [y| |] eqn:Hy in H; [|done..].
    cbn [mbind outcome_bind] in H. injection H as <-.
    exists per, y. split; [done|]. split; [done|]. split; [done|]. cbv zeta.
    cbn [labelled base _speakers _speaker_groups _speaker_group_indices
         _speaker_indices _y _x _classes].
    rewrite Hl0. by repeat split.
  - cbn [mbind outcome_bind] in H.
    destruct (traverse (list_index _) _) as [y| |] eqn:Hy in H; [|done..].
    cbn [mbind outcome_bind] in H. injection H as <-.
    exists per, y. split; [done|]. split; [done|]. split; [done|]. cbv zeta.
    cbn [labelled base _speakers _speaker_groups _speaker_group_indices
         _speaker_indices _y _x _classes].
    rewrite Hl0. by repeat split.
Qed.

(** The speakers of the accumulated instances, read through the shifted
    indices, are those of the sources under their corpus prefix. *)
Lemma merge_fold_select datasets per (acc : merged) names_acc :
  select (m_speakers acc) (concat (data <$> m_speaker_indices acc)) = Ok names_acc →
  Forall2 (λ d sn, speaker_names (base d) = Ok sn) datasets per →
  select (m_speakers (foldl merge_step acc datasets))
    (concat (data <$> m_speaker_indices (foldl merge_step acc datasets)))
  = Ok (names_acc ++
        concat (zip_with (λ d sn, prefixed (_corpus (base d)) <$> sn) datasets per)).
Proof.
  intros Hacc H. revert acc names_acc Hacc.
  induction H as [|d sn datasets per Hd _ IH]; intros acc names_acc Hacc.
  - cbn. by rewrite app_nil_r.
  - cbn [foldl zip_with concat].
    rewrite (IH _ (names_acc ++ (prefixed (_corpus (base d)) <$> sn))).
    + by rewrite <- (assoc_L (++)).
    + cbn [merge_step m_speakers m_speaker_indices].
      rewrite fmap_app, concat_app. cbn [fmap list_fmap concat np_add data].
      rewrite app_nil_r. apply select_app.
      * by apply select_app_l.
      * apply select_offset, select_fmap. exact Hd.
Qed.

Lemma str_labels_in_classes datasets per c :
  traverse str_labels_of datasets = Ok per →
  c ∈ concat per → c ∈ datasets ≫= _classes.
Proof.
  revert per. induction datasets as [|d datasets IH]; intros per.
  - intros [= <-] ?%not_elem_of_nil. done.
  - rewrite traverse_cons.
    destruct (str_labels_of d) as [ls| |] eqn:Hls; cbn; [|done..].
    destruct (traverse str_labels_of datasets) as [per'| |]; cbn; [|done..].
    intros [= <-]. cbn. rewrite !elem_of_app. intros [Hc|Hc].
    + left. by eapply select_elem.
    + right. by eapply IH.
Qed.

(** On the labels of the sources, being outside the dropped labels is
    being in the allow-list. *)
Lemma allow_list_positions datasets per (l : list string) :
  traverse str_labels_of datasets = Ok per →
  let drop_labels := filter (λ c, c ∉ l) (datasets ≫= _classes) in
  positions (λ c, negb (contains drop_labels c)) (concat per)
  = positions (contains l) (concat per) ∧
  filter (λ c, c ∉ drop_labels) (concat per) = filter (λ c, c ∈ l) (concat per).
Proof.
  intros Hper drop_labels.
  assert (Hiff : ∀ c, c ∈ concat per → c ∉ drop_labels ↔ c ∈ l).
  { intros c Hc. unfold drop_labels. rewrite list_elem_of_filter.
    pose proof (str_labels_in_classes _ _ _ Hper Hc).
    destruct (decide (c ∈ l)); tauto. }
  split.
  - apply positions_from_ext. intros c Hc. unfold contains.
    destruct (decide (c ∈ l)) as [Hl|Hl].
    + rewrite (bool_decide_eq_false_2 (c ∈ drop_labels)) by by apply Hiff.
      by rewrite bool_decide_eq_true_2.
    + rewrite (bool_decide_eq_true_2 (c ∈ drop_labels)).
      * by rewrite bool_decide_eq_false_2.
      * destruct (decide (c ∈ drop_labels)) as [|Hd]; [done|].
        by apply Hiff in Hd.
  - induction (concat per) as [|c cs IH]; [done|].
    rewrite !filter_cons.
    destruct (decide (c ∉ drop_labels)) as [Hd|Hd],
             (decide (c ∈ l)) as [Hl|Hl].
    + f_equal. apply IH. intros ? ?. apply Hiff. by right.
    + exfalso. apply Hl, Hiff; [left|done].
    + exfalso. apply Hd, Hiff; [left|done].
    + apply IH. intros ? ?. apply Hiff. by right.
Qed.

(** X23. In a combination every kept instance has the speaker of its source
    instance, under the corpus prefix: the offsets added to the speaker
    indices of the sources make them read the merged speaker list
    correctly. With an allow-list the kept instances are those whose class
    is on the list. The group indices are the speaker indices. *)
Theorem CombinedDataset_init_speaker_names datasets labels self per_sp per_lab :
  CombinedDataset_init same_layout datasets labels = Ok self →
  Forall2 (λ d sn, speaker_names (base d) = Ok sn) datasets per_sp →
  Forall2 (λ d ls, str_labels_of d = Ok ls) datasets per_lab →
  let all_sp :=
    concat (zip_with (λ d sn, prefixed (_corpus (base d)) <$> sn) datasets per_sp) in
  speaker_names (base (labelled self))
  = match labels with
    | None => Ok all_sp
    | Some l => select all_sp (positions (contains l) (concat per_lab))
    end ∧
  _speaker_group_indices (base (labelled self))
  = _speaker_indices (base (labelled self)).
Proof.
  intros Hinit Hsp Hlab all_sp.
  destruct (CombinedDataset_init_Ok _ _ _ Hinit)
    as (per & y & Hper & _ & _ & Hspeakers & _ & Hgi & _ & Hcase).
  cbv zeta in Hspeakers, Hcase.
  apply traverse_Ok in Hlab. rewrite Hper in Hlab. injection Hlab as ->.
  split; [|done].
  pose proof (merge_fold_select datasets per_sp (mk_merged [] [] [] []) []
                eq_refl Hsp) as Hsel.
  cbn [app] in Hsel. fold all_sp in Hsel.
  unfold speaker_names. rewrite Hspeakers.
  destruct labels as [l|].
  - destruct Hcase as (_ & Hsi & _).
    destruct (allow_list_positions datasets per_lab l Hper) as [Hpos _].
    cbv zeta in Hpos. rewrite Hpos in Hsi. unfold np_getitem_list in Hsi.
    cbn [data] in Hsi.
    destruct (select _ (positions _ _)) as [si| |] eqn:Hsi' in Hsi; [|done..].
    cbn in Hsi. injection Hsi as <-. cbn [data].
    by eapply select_compose.
  - destruct Hcase as (_ & -> & _). exact Hsel.
Qed.

Lemma merge_indices_length datasets (acc : merged) :
  let r := foldl merge_step acc datasets in
  length (m_speaker_indices r) = length (m_speaker_indices acc) + length datasets ∧
  length (m_speaker_group_indices r)
  = length (m_speaker_group_indices acc) + length datasets ∧
  length (concat (data <$> m_speaker_indices r))
  = length (concat (data <$> m_speaker_indices acc)) +
    sum_list ((λ d, np_len (_speaker_indices (base d))) <$> datasets).
Proof.
  revert acc. induction datasets as [|d datasets IH]; intros acc; cbn.
  - repeat split; lia.
  - destruct (IH (merge_step acc d)) as (H1 & H2 & H3). cbv zeta in H1, H2, H3.
    rewrite H1, H2, H3. cbn [merge_step m_speaker_indices m_speaker_group_indices].
    rewrite fmap_app, concat_app, !length_app. cbn. unfold np_len.
    rewrite app_nil_r, length_fmap. repeat split; lia.
Qed.

Lemma covered_lengths datasets :
  Forall (λ d, labels_covered d = true) datasets →
  sum_list ((λ d, np_len (_y d)) <$> datasets)
  ≤ length (datasets ≫= (λ d, _x (base d))) ∧
  sum_list ((λ d, np_len (_y d)) <$> datasets)
  ≤ sum_list ((λ d, np_len (_speaker_indices (base d))) <$> datasets).
Proof.
  induction 1 as [|d datasets Hd _ [IH1 IH2]]; [done|].
  unfold labels_covered in Hd.
  apply andb_prop in Hd as [[[_ Hx]%andb_prop Hs]%andb_prop _].
  apply Nat.leb_le in Hx, Hs. cbn. rewrite length_app. lia.
Qed.

Lemma length_concat_x datasets :
  length (concat ((λ d, _x (base d)) <$> datasets))
  = length (datasets ≫= (λ d, _x (base d))).
Proof.
  induction datasets as [|d datasets IH]; [done|].
  cbn. by rewrite !length_app, IH.
Qed.

(** The steps of the constructor before the concatenation of the feature
    containers complete for any sources, at least one. *)
Lemma CombinedDataset_init_layout datasets labels :
  datasets ≠ [] →
  CombinedDataset_init same_layout datasets labels
  = (if same_layout ((λ d, _x (base d)) <$> datasets) then
       CombinedDataset_init same_layout datasets labels
     else Raise ValueError).
Proof.
  intros Hne.
  destruct (same_layout _) eqn:Hlayout; [done|].
  destruct (merge_indices_length datasets (mk_merged [] [] [] []))
    as (Hn1 & Hn2 & _).
  cbv zeta in Hn1, Hn2.
  cbn [m_speaker_indices m_speaker_group_indices length] in Hn1, Hn2.
  unfold CombinedDataset_init.
  destruct datasets as [|d0 ds] eqn:Hds; [done|]. rewrite <- Hds in *.
  unfold np_bincount, np_repeat_arange. cbn [dt mbind outcome_bind].
  replace (list_getitem datasets 0) with (Ok d0) by by rewrite Hds.
  cbn [mbind outcome_bind]. unfold np_concatenate.
  destruct (m_speaker_indices _) as [|a0 l0] eqn:Hl0;
    [rewrite Hds in Hn1; cbn in Hn1; lia|].
  destruct (m_speaker_group_indices _) as [|a1 l1] eqn:Hl1;
    [rewrite Hds in Hn2; cbn in Hn2; lia|].
  cbn [mbind outcome_bind]. unfold np_concatenate_x. rewrite Hlayout.
  by destruct (_ <$> datasets).
Qed.

(** X24. The constructor, on sources, at least one, that have valid and
    covered labels, with or without an allow-list: when numpy accepts the
    feature containers of the sources together it builds a combination,
    and it raises [ValueError] otherwise. In the combination every
    instance has the class of its source instance; with an allow-list the
    instances whose class is on the list remain, the class list is the
    sorted list, and feature rows, speaker indices and labels stay aligned
    with each other. Without one the class list is the sorted union of the
    class lists of the sources. *)
Theorem CombinedDataset_init_labels datasets labels :
  datasets ≠ [] →
  Forall (λ d, labels_valid d = true) datasets →
  Forall (λ d, labels_covered d = true) datasets →
  if same_layout ((λ d, _x (base d)) <$> datasets) then
    ∃ self per,
      CombinedDataset_init same_layout datasets labels = Ok self ∧
      Forall2 (λ d ls, str_labels_of d = Ok ls) datasets per ∧
      str_labels_of (labelled self)
      = Ok (match labels with
            | None => concat per
            | Some l => filter (λ c, c ∈ l) (concat per)
            end) ∧
      _classes (labelled self)
      = sorted_strs (match labels with
                     | None => datasets ≫= _classes
                     | Some l => l
                     end) ∧
      (is_Some labels →
       length (_x (base (labelled self))) = np_len (_y (labelled self)) ∧
       np_len (_speaker_indices (base (labelled self)))
       = np_len (_y (labelled self)))
  else CombinedDataset_init same_layout datasets labels = Raise ValueError.
Proof.
  intros Hne Hvalid Hcov.
  pose proof (CombinedDataset_init_layout datasets labels Hne) as Hlay.
  destruct (same_layout _) eqn:Hlayout; [clear Hlay|exact Hlay].
  destruct (traverse_Forall str_labels_of datasets) as [per Hper].
  { eapply Forall_impl; [exact Hvalid|]. intros d [_ Hall]%labels_valid_inv.
    destruct (select_in_range (_classes d) (data (_y d))) as (ls & Hls & _);
      [|by exists ls].
    intros i Hi. rewrite Forall_forall in Hall. by apply Hall. }
  pose proof (str_labels_length _ _ Hper) as Hlen.
  destruct (covered_lengths _ Hcov) as [Hxlen Hsilen].
  rewrite <- length_concat_x in Hxlen.
  destruct (merge_indices_length datasets (mk_merged [] [] [] []))
    as (Hn1 & Hn2 & Hn3).
  cbv zeta in Hn1, Hn2, Hn3. cbn [m_speaker_indices m_speaker_group_indices
    length fmap list_fmap concat] in Hn1, Hn2, Hn3.
  assert (Hex : ∃ self, CombinedDataset_init same_layout datasets labels = Ok self).
  { unfold CombinedDataset_init.
    destruct datasets as [|d0 ds] eqn:Hds; [done|]. rewrite <- Hds in *.
    unfold np_bincount, np_repeat_arange. cbn [dt mbind outcome_bind].
    replace (list_getitem datasets 0) with (Ok d0) by by rewrite Hds.
    cbn [mbind outcome_bind]. unfold np_concatenate.
    destruct (m_speaker_indices _) as [|a0 l0] eqn:Hl0;
      [rewrite Hds in Hn1; cbn in Hn1; lia|]. rewrite <- Hl0 in *.
    destruct (m_speaker_group_indices _) as [|a1 l1] eqn:Hl1;
      [rewrite Hds in Hn2; cbn in Hn2; lia|]. rewrite <- Hl1 in *.
    cbn [mbind outcome_bind]. unfold np_concatenate_x. rewrite Hlayout.
    destruct ((λ d, _x (base d)) <$> datasets) as [|x0 xs] eqn:Hxs;
      [by rewrite Hds in Hxs|]. rewrite <- Hxs in *.
    cbn [mbind outcome_bind]. rewrite Hper. cbn [mbind outcome_bind].
    destruct labels as [l|].
    - set (keep_idx := positions _ (concat per)).
      assert (Hidx : ∀ i, i ∈ keep_idx → i < length (concat per)).
      { by intros i Hi%positions_bound. }
      destruct (select_in_range (concat ((λ d, _x (base d)) <$> datasets)) keep_idx)
        as (x' & -> & _).
      { intros i Hi%Hidx. lia. }
      cbn [mbind outcome_bind]. unfold np_getitem_list. cbn [data dt].
      destruct (select_in_range (concat (data <$> m_speaker_indices
                  (foldl merge_step (mk_merged [] [] [] []) datasets))) keep_idx)
        as (si & -> & _).
      { intros i Hi%Hidx. lia. }
      cbn [mbind outcome_bind].
      destruct (traverse_list_index_elem (sorted_strs l)
                  (filter (λ c, c ∉ filter (λ c, c ∉ l) (datasets ≫= _classes))
                     (concat per))) as (y & -> & _).
      { destruct (allow_list_positions datasets per l Hper) as [_ Hf].
        cbv zeta in Hf. rewrite Hf.
        intros v [Hv _]%list_elem_of_filter. by apply elem_of_sorted_strs. }
      cbn [mbind outcome_bind]. by eexists.
    - cbn [mbind outcome_bind].
      destruct (traverse_list_index_elem (sorted_strs (datasets ≫= _classes))
                  (concat per)) as (y & -> & _).
      { intros v Hv. apply elem_of_sorted_strs.
        by eapply str_labels_in_classes. }
      cbn [mbind outcome_bind]. by eexists. }
  destruct Hex as [self Hinit]. exists self, per.
  split; [done|]. split; [by apply traverse_Ok|].
  destruct (CombinedDataset_init_Ok _ _ _ Hinit)
    as (per' & y & Hper' & _ & _ & _ & _ & _ & Hy & Hcase).
  cbv zeta in Hcase. rewrite Hper in Hper'. injection Hper' as <-.
  unfold str_labels_of. rewrite Hy.
  assert (Hdata : data (np_array y) = y) by done.
  unfold np_len. rewrite Hdata.
  destruct labels as [l|].
  - destruct Hcase as (Hx & Hsi & -> & Hy').
    destruct (allow_list_positions datasets per l Hper) as [Hpos Hf].
    cbv zeta in Hpos, Hf. rewrite Hf in Hy'. rewrite Hpos in Hx, Hsi.
    split; [by apply (traverse_list_index_select _ _ _ Hy')|].
    split; [done|]. intros _.
    apply traverse_length in Hy'. rewrite length_filter_positions in Hy'.
    apply select_length in Hx.
    unfold np_getitem_list in Hsi.
    destruct (select _ _) as [si| |] eqn:Hsel in Hsi; [|done..].
    cbn in Hsi. injection Hsi as <-. apply select_length in Hsel.
    cbn [data]. lia.
  - destruct Hcase as (_ & _ & -> & Hy').
    split; [by apply (traverse_list_index_select _ _ _ Hy')|].
    split; [done|]. by intros [? ?].
Qed.

End CombinedMore.

Lemma CombinedDataset_init_speaker_names_witness :
  speaker_names (base (labelled Scenario.object_AB)) = Ok ["A_X"; "A_Y"; "B_Z"] ∧
  _speaker_group_indices (base (labelled Scenario.object_AB))
  = _speaker_indices (base (labelled Scenario.object_AB)).
Proof.
  apply (CombinedDataset_init_speaker_names Scenario.same_layout
           [Scenario.object_A; Scenario2.object_B] None Scenario.object_AB
           [["X"; "Y"]; ["Z"]] [["happy"; "sad"]; ["happy"]]).
  - vm_compute. reflexivity.
  - repeat constructor.
  - repeat constructor.
Defined.

Lemma CombinedDataset_init_labels_witness :
  ∃ self,
    CombinedDataset_init Scenario.same_layout [Scenario.object_A; Scenario2.object_B] (Some ["happy"])
    = Ok self ∧
    str_labels_of (labelled self) = Ok ["happy"; "happy"] ∧
    _classes (labelled self) = ["happy"] ∧
    length (_x (base (labelled self))) = np_len (_y (labelled self)).
Proof.
  destruct (CombinedDataset_init_labels Scenario.same_layout
              [Scenario.object_A; Scenario2.object_B] (Some ["happy"]))
    as (self & per & Hinit & Hper & Hlabels & Hcl & Hlen).
  - discriminate.
  - repeat constructor.
  - repeat constructor.
  - exists self. split; [exact Hinit|].
    assert (per = [["happy"; "sad"]; ["happy"]]) as ->.
    { apply traverse_Ok in Hper. vm_compute in Hper. by injection Hper. }
    split; [rewrite Hlabels; vm_compute; reflexivity|].
    split; [rewrite Hcl; vm_compute; reflexivity|].
    by apply Hlen.
Defined.

(** ** Corpus indices and counts *)

Lemma count_app v (l1 l2 : list nat) : count v (l1 ++ l2) = count v l1 + count v l2.
Proof. unfold count. by rewrite filter_app, length_app. Qed.

Lemma count_replicate_ne v w n : v ≠ w → count v (replicate n w) = 0.
Proof. intros Hne. apply count_absent. by intros [-> _]%elem_of_replicate. Qed.

Lemma count_repeat_arange k s (sizes : list nat) :
  count k (repeat_arange_from s sizes)
  = if decide (s ≤ k) then default 0 (sizes !! (k - s)) else 0.
Proof.
  revert s. induction sizes as [|n sizes IH]; intros s; cbn [repeat_arange_from].
  - by destruct (decide (s ≤ k)).
  - rewrite count_app, IH.
    destruct (decide (k = s)) as [->|Hne].
    + rewrite count_replicate, Nat.sub_diag.
      destruct (decide (S s ≤ s)), (decide (s ≤ s)); try lia. cbn. lia.
    + rewrite count_replicate_ne by done.
      destruct (decide (s ≤ k)), (decide (S s ≤ k)); try lia.
      by replace (k - s) with (S (k - S s)) by lia.
Qed.

(** An entry of a tally beyond its end stands for no occurrence. *)
Lemma bincount_data_default (l : list nat) minlength k :
  default 0 (bincount_data l minlength !! k) = count k l.
Proof.
  unfold bincount_data.
  set (n := (match l with [] => 0 | _ => S (max_list l) end) `max` minlength).
  rewrite list_lookup_fmap.
  destruct (decide (k < n)) as [Hk|Hk].
  - by rewrite lookup_seq_lt.
  - rewrite lookup_seq_ge by lia. cbn. symmetry. apply count_absent.
    intros Hin. pose proof (max_list_elem_of_le k l Hin).
    destruct l; [by apply not_elem_of_nil in Hin|]. lia.
Qed.

Lemma repeat_arange_from_app s (l1 l2 : list nat) :
  repeat_arange_from s (l1 ++ l2)
  = repeat_arange_from s l1 ++ repeat_arange_from (s + length l1) l2.
Proof.
  revert s. induction l1 as [|n l1 IH]; intros s; cbn.
  - by rewrite Nat.add_0_r.
  - rewrite IH, <- (assoc_L (++)). do 3 f_equal. lia.
Qed.

Lemma repeat_arange_from_bounds s (sizes : list nat) v :
  v ∈ repeat_arange_from s sizes → s ≤ v < s + length sizes.
Proof.
  revert s. induction sizes as [|n sizes IH]; intros s; cbn.
  - by intros ?%not_elem_of_nil.
  - rewrite elem_of_app. intros [[-> _]%elem_of_replicate|Hv%IH]; lia.
Qed.

Lemma positions_from_fmap {A B} (f : A → B) (p : B → bool) s (l : list A) :
  positions_from p s (f <$> l) = positions_from (λ a, p (f a)) s l.
Proof.
  revert s. induction l as [|a l IH]; intros s; [done|].
  cbn. rewrite IH. done.
Qed.

Lemma positions_from_app {A} (p : A → bool) s (l1 l2 : list A) :
  positions_from p s (l1 ++ l2)
  = positions_from p s l1 ++ positions_from p (s + length l1) l2.
Proof.
  revert s. induction l1 as [|a l1 IH]; intros s; cbn.
  - by rewrite Nat.add_0_r.
  - rewrite IH. replace (S s + length l1) with (s + S (length l1)) by lia.
    by destruct (p a).
Qed.

Section CorpusMore.
Context {X : Type}.
Variable same_layout : list (list X) → bool.
Implicit Types (self : CombinedDataset X) (datasets : list (LabelledDataset X)).

Lemma length_bind_x datasets :
  length (datasets ≫= (λ d, _x (base d)))
  = sum_list ((λ d, length (_x (base d))) <$> datasets).
Proof.
  induction datasets as [|d datasets IH]; [done|].
  cbn. by rewrite length_app, IH.
Qed.

(** X25. The corpus counts of a combination are the numbers of feature
    rows of the sources, with or without an allow-list: the entry of every
    source is its size (an entry beyond the end of the
    tally standing for zero), and the counts add up to the number of rows
    of all sources. *)
Theorem CombinedDataset_init_corpus_counts datasets labels self :
  CombinedDataset_init same_layout datasets labels = Ok self →
  np_sum (_corpus_counts self) = length (datasets ≫= (λ d, _x (base d))) ∧
  ∀ k d, datasets !! k = Some d →
         default 0 (data (_corpus_counts self) !! k) = length (_x (base d)).
Proof.
  intros Hinit.
  assert (Hc : _corpus_counts self
               = mk_ndarray int64
                   (bincount_data
                      (repeat_arange_from 0 ((λ d, length (_x (base d))) <$> datasets))
                      0)).
  { unfold CombinedDataset_init in Hinit.
    unfold np_bincount, np_repeat_arange in Hinit.
    cbn [dt data mbind outcome_bind] in Hinit.
    repeat match type of Hinit with
           | (match ?m with _ => _ end) = _ =>
               destruct m; cbn [mbind outcome_bind] in Hinit; try done
           | mbind _ ?m = _ =>
               destruct m; cbn [mbind outcome_bind] in Hinit; try done
           end.
    all: by injection Hinit as <-. }
  rewrite Hc. unfold np_sum. cbn [data]. split.
  - by rewrite sum_bincount_data, length_repeat_arange_from, length_bind_x.
  - intros k d Hk. rewrite bincount_data_default, count_repeat_arange.
    rewrite decide_True by lia.
    by rewrite Nat.sub_0_r, list_lookup_fmap, Hk.
Qed.

(** X26. The split of a combination by the corpus of one of its sources,
    the first of that corpus name, is by contiguous ranges: the instances
    of the corpus are the positions from the number of rows of the earlier
    sources on, as many as the source has rows, and the others are the
    positions before and after. *)
Theorem get_corpus_split_contiguous pre d post labels self :
  CombinedDataset_init same_layout (pre ++ d :: post) labels = Ok self →
  (∀ d', d' ∈ pre → _corpus (base d') ≠ _corpus (base d)) →
  let size := λ ds : list (LabelledDataset X),
                length (ds ≫= (λ d, _x (base d))) in
  get_corpus_split self (_corpus (base d))
  = Ok (seq (size pre) (length (_x (base d))),
        seq 0 (size pre) ++ seq (size pre + length (_x (base d))) (size post)).
Proof.
  intros (_ & _ & Hcorpora & Hci)%CombinedDataset_init_sources Hfirst size.
  unfold get_corpus_split, corpus_to_idx. rewrite Hcorpora, Hci.
  rewrite !fmap_app, !fmap_cons.
  rewrite (list_index_Some _ _ (length pre)).
  2:{ rewrite index_of_app_r.
      - cbn. rewrite decide_True by done. cbn. rewrite length_fmap. f_equal. lia.
      - intros (d' & Heq & Hd')%list_elem_of_fmap. by apply (Hfirst d'). }
  cbn [mbind outcome_bind]. unfold np_nonzero, np_eq, np_repeat_arange, positions.
  cbn [data]. rewrite !positions_from_fmap.
  rewrite repeat_arange_from_app. cbn [repeat_arange_from].
  rewrite !positions_from_app, ?length_app, ?length_replicate.
  rewrite ?length_repeat_arange_from, ?length_fmap.
  unfold size. rewrite !length_bind_x.
  set (sp := sum_list ((λ d, length (_x (base d))) <$> pre)).
  set (sq := sum_list ((λ d, length (_x (base d))) <$> post)).
  set (n := length (_x (base d))).
  cbn [plus id].
  assert (Hpre : ∀ v, v ∈ repeat_arange_from 0 ((λ d, length (_x (base d))) <$> pre)
                      → bool_decide (v = length pre) = false).
  { intros v Hv%repeat_arange_from_bounds. rewrite length_fmap in Hv.
    apply bool_decide_eq_false. lia. }
  assert (Hmid : ∀ v, v ∈ replicate n (length pre)
                      → bool_decide (v = length pre) = true).
  { intros v [-> _]%elem_of_replicate. by apply bool_decide_eq_true. }
  assert (Hpost : ∀ v, v ∈ repeat_arange_from (S (length pre))
                               ((λ d, length (_x (base d))) <$> post)
                       → bool_decide (v = length pre) = false).
  { intros v Hv%repeat_arange_from_bounds. apply bool_decide_eq_false. lia. }
  f_equal. f_equal.
  - rewrite (positions_from_none _ 0) by done.
    rewrite (positions_from_all _ sp) by done.
    rewrite (positions_from_none _ (sp + n)) by done.
    by rewrite length_replicate, app_nil_r.
  - rewrite (positions_from_all _ 0) by (intros v Hv; by rewrite Hpre).
    rewrite (positions_from_none _ sp) by (intros v Hv; by rewrite Hmid).
    rewrite (positions_from_all _ (sp + n)) by (intros v Hv; by rewrite Hpost).
    by rewrite !length_repeat_arange_from.
Qed.

End CorpusMore.

Lemma CombinedDataset_init_corpus_counts_witness :
  np_sum (_corpus_counts Scenario.object_AB) = 3 ∧
  default 0 (data (_corpus_counts Scenario.object_AB) !! 1) = 1.
Proof.
  destruct (CombinedDataset_init_corpus_counts Scenario.same_layout
              [Scenario.object_A; Scenario2.object_B] None Scenario.object_AB)
    as [Hsum Hk].
  - vm_compute. reflexivity.
  - split; [exact Hsum|]. apply (Hk 1 Scenario2.object_B). reflexivity.
Defined.

Lemma get_corpus_split_contiguous_witness :
  get_corpus_split Scenario.object_AB "B" = Ok ([2], [0; 1]).
Proof.
  apply (get_corpus_split_contiguous Scenario.same_layout [Scenario.object_A] Scenario2.object_B []
           None Scenario.object_AB).
  - vm_compute. reflexivity.
  - intros d' ->%list_elem_of_singleton. discriminate.
Defined.

(** ** The corpus split after an inherited method *)

Section SplitAfterRemoval.
Context {X : Type}.
Implicit Types (self : CombinedDataset X) (keep : list string).

(** [remove_classes] on a combination assigns none of the corpus
    attributes. *)
Lemma CombinedDataset_remove_classes_corpus keep self :
  let after := (CombinedDataset_remove_classes keep self).2 in
  _corpora after = _corpora self ∧
  _corpus_indices after = _corpus_indices self ∧
  _corpus_counts after = _corpus_counts self.
Proof. done. Qed.

(** After [remove_classes] has dropped an instance of a combination that
    had one corpus index for each instance, there are more corpus indices
    than instances, and the split by any listed corpus returns a position
    that is no instance position. *)
Lemma get_corpus_split_after_remove_classes keep self labels c corpus :
  labels_valid (labelled self) = true →
  labels_covered (labelled self) = true →
  np_len (_corpus_indices self) = n_instances (base (labelled self)) →
  str_labels_of (labelled self) = Ok labels →
  c ∈ labels → c ∉ keep →
  contains (_corpora self) corpus = true →
  let after := (CombinedDataset_remove_classes keep self).2 in
  n_instances (base (labelled after)) < np_len (_corpus_indices after) ∧
  ∃ in_corpus other i,
    get_corpus_split after corpus = Ok (in_corpus, other) ∧
    (i ∈ in_corpus ∨ i ∈ other) ∧
    n_instances (base (labelled after)) ≤ i.
Proof.
  intros Hvalid Hcov Hci Hlabels Hc Hout Hcorpus after.
  assert (Hlt : n_instances (base (labelled after)) < np_len (_corpus_indices after)).
  { destruct (remove_classes_run keep (labelled self) Hvalid Hcov)
      as (labels' & x' & names' & si & y' & Hl & Hlen & _ & Hnames' & _ & _ & Hrun).
    rewrite Hlabels in Hl. injection Hl as <-. cbv zeta in Hrun.
    assert (Hn : n_instances (base (labelled after)) = length names').
    { unfold after, CombinedDataset_remove_classes, on_labelled.
      cbn [snd labelled]. rewrite Hrun. by destruct y'. }
    rewrite Hn. apply select_length in Hnames'. rewrite Hnames'.
    change (_corpus_indices after) with (_corpus_indices self). rewrite Hci.
    unfold labels_covered in Hcov.
    apply andb_prop in Hcov as [[[Hnm _]%andb_prop _]%andb_prop _].
    apply Nat.leb_le in Hnm. unfold n_instances.
    assert (length (positions (contains keep) labels) < length labels); [|lia].
    eapply length_positions_lt; [exact Hc|].
    by apply bool_decide_eq_false. }
  split; [done|].
  destruct (get_corpus_split_spec after corpus Hcorpus)
    as (k & in_corpus & other & _ & _ & Hsplit & _ & _ & Hcover & _).
  exists in_corpus, other, (n_instances (base (labelled after))).
  split; [done|]. split; [by apply Hcover|done].
Qed.

End SplitAfterRemoval.

(** C8, at a failing input. The combination of scenario A has three
    instances and the split for corpus A is [[0, 1]] and [[2]]. After
    [remove_classes] keeping happy, which the combination inherits, it has
    the two instances [A_a1] and [B_b1], and the corpus indices are still
    [[0, 0, 1]]: the split for corpus A is still [[0, 1]] and [[2]], so the
    instance of B at position 1 is listed under corpus A and position 2,
    which holds no instance, among the others. *)
Theorem get_corpus_split_stale_after_remove_classes :
  ∃ c after,
    Scenario.combined None = Ok c ∧
    n_instances (base (labelled c)) = 3 ∧
    get_corpus_split c "A" = Ok ([0; 1], [2]) ∧
    CombinedDataset_remove_classes ["happy"] c = (Ok tt, after) ∧
    _names (base (labelled after)) = ["A_a1"; "B_b1"] ∧
    n_instances (base (labelled after)) = 2 ∧
    _corpus_indices after = mk_ndarray int64 [0; 0; 1] ∧
    get_corpus_split after "A" = Ok ([0; 1], [2]) ∧
    get_corpus_split after "B" = Ok ([2], [0; 1]).
Proof.
  eexists _, _. split; [vm_compute; reflexivity|].
  split; [vm_compute; reflexivity|].
  split; [vm_compute; reflexivity|].
  split; [vm_compute; reflexivity|].
  repeat split.
Qed.
